(** * Circular navigation: layout geometry, selection state, display and cache

    A shallow embedding of the parts of the circular-navigation
    JavaScript sources that decide the layout angles
    (utils/calculations.js), the selection classification
    (NodeManager.js, PathManager.js), the click handler
    (CircularNavManager.js with StateManager.js), the resize handler
    (DisplayManager.js) and the content cache (CacheManager.js).

    JavaScript numbers that carry angles and pixel lengths are read as
    real numbers; timestamps and counters are integers. *)

From Stdlib Require Import Ascii String.
From Stdlib Require Import List Bool Arith ZArith Lia.
From Stdlib Require Import Permutation Sorted Reals Lra.
Import ListNotations.

Set Implicit Arguments.
Open Scope string_scope.
Open Scope list_scope.
Set Warnings "-register-all".


(* ================================================================== *)
(** ** JavaScript arithmetic used by the sources *)
(* ================================================================== *)

Module Js.

Open Scope R_scope.

(** Truncation toward zero, the quotient that [%] uses. *)
Definition trunc (x : R) : Z :=
  if Rle_dec 0 x then Int_part x else (- Int_part (- x))%Z.

(** [a % b] on numbers: the remainder of the truncated division. *)
Definition rem (a b : R) : R := a - b * IZR (trunc (a / b)).

(** [Math.min(...xs)] and [Math.max(...xs)].  On an empty argument list
    JavaScript answers [Infinity] and [-Infinity]; these are not real
    numbers and are rendered as [None]. *)
Definition Math_min (xs : list R) : option R :=
  match xs with
  | [] => None
  | x :: rest => Some (fold_left Rmin rest x)
  end.

Definition Math_max (xs : list R) : option R :=
  match xs with
  | [] => None
  | x :: rest => Some (fold_left Rmax rest x)
  end.

(** [text.split(' ')]: the pieces between the spaces, as the first
    piece and the others; the result of [split] is never empty. *)
Fixpoint split_space (s : string) : string * list string :=
  match s with
  | EmptyString => (EmptyString, [])
  | String c rest =>
      let '(w, ws) := split_space rest in
      if Ascii.eqb c " "%char then (EmptyString, w :: ws)
      else (String c w, ws)
  end.

(** [words.join(' ')]. *)
Definition join_space (words : list string) : string :=
  String.concat " " words.

(** Whether [s] holds ASCII characters only.  On such a string the
    number of bytes, which [String.length] counts, is the number of
    UTF-16 units, which [text.length] counts. *)
Fixpoint is_ascii (s : string) : bool :=
  match s with
  | EmptyString => true
  | String c rest => Nat.ltb (nat_of_ascii c) 128 && is_ascii rest
  end.

End Js.

(* ================================================================== *)
(** ** The d3 hierarchy the managers work on *)
(* ================================================================== *)

Module Hierarchy.

(** The data tree handed to [d3.hierarchy]: an item id and its owned
    children, in order. *)
Inductive tree : Type :=
  | Node (id : string) (children : list tree).

Definition kids (t : tree) : list tree :=
  match t with Node _ cs => cs end.

(** A hierarchy node is an object; two references are [===] exactly
    when they denote the same position of the tree.  A reference is the
    list of child indices that leads to the node, innermost index
    first, so that the root is [[]] and the parent is the tail. *)
Definition nodeRef : Type := list nat.

(** [node.depth] and [node.parent] as [d3.hierarchy] sets them
    ([parent] is [null] on the root). *)
Definition depth (n : nodeRef) : nat := List.length n.

Definition parent (n : nodeRef) : option nodeRef :=
  match n with
  | [] => None
  | _ :: p => Some p
  end.

(** Reference equality [a === b]. *)
Fixpoint same (a b : nodeRef) : bool :=
  match a, b with
  | [], [] => true
  | i :: a', j :: b' => Nat.eqb i j && same a' b'
  | _, _ => false
  end.

(** The subtree reached from [t] along child indices, outermost first. *)
Fixpoint subtree (t : tree) (path : list nat) : option tree :=
  match path with
  | [] => Some t
  | k :: rest =>
      match nth_error (kids t) k with
      | Some c => subtree c rest
      | None => None
      end
  end.

(** [node.children], as references, in order; empty for a leaf (where
    d3 leaves the field undefined) and for a reference outside the
    tree. *)
Definition children (root : tree) (n : nodeRef) : list nodeRef :=
  match subtree root (rev n) with
  | Some t => map (fun k => k :: n) (seq 0 (List.length (kids t)))
  | None => []
  end.

Fixpoint height (t : tree) : nat :=
  match t with
  | Node _ cs => fold_right (fun c h => Nat.max (S (height c)) h) 0%nat cs
  end.

(** The nodes at depth [k], left to right. *)
Fixpoint level (root : tree) (k : nat) : list nodeRef :=
  match k with
  | O => [ [] ]
  | S k' => flat_map (children root) (level root k')
  end.

(** [root.descendants()]: d3 lists the nodes in breadth-first order,
    the root, then each level from left to right. *)
Definition descendants (root : tree) : list nodeRef :=
  flat_map (level root) (seq 0 (S (height root))).

(** A link of [root.links()]: a node with its parent as source. *)
Record link : Type := Link { source : nodeRef; target : nodeRef }.

End Hierarchy.

(* ================================================================== *)
(** ** utils/calculations.js *)
(* ================================================================== *)

Module Calculations.

Open Scope R_scope.

(** [calculateAverageAngle(angles)].  With no angle at all the source
    computes [(Infinity + -Infinity) / 2], that is [NaN]: [None]. *)
Definition calculateAverageAngle (angles : list R) : option R :=
  match Js.Math_min angles, Js.Math_max angles with
  | Some minAngle, Some maxAngle =>
      if Rgt_dec (maxAngle - minAngle) PI
      then Some (Js.rem ((minAngle + maxAngle + 2 * PI) / 2) (2 * PI))
      else Some ((minAngle + maxAngle) / 2)
  | _, _ => None
  end.

(** The arithmetic mean of a sequence, the quantity the specification
    names; it is not part of the source. *)
Definition arithmetic_mean (xs : list R) : R :=
  fold_right Rplus 0 xs / INR (List.length xs).




(** The [x] fields of the hierarchy nodes (their angles), as left by
    the d3 tree layout and then overwritten by [processDepthNodes]. *)
Definition angles : Type := Hierarchy.nodeRef -> R.

(** The assignment [node.x = v]. *)
Definition set_x (x : angles) (node : Hierarchy.nodeRef) (v : R) : angles :=
  fun m => if Hierarchy.same m node then v else x m.

(** [nodes.forEach((node, i) => ...)] threading the mutated fields. *)
Fixpoint forEach_indexed (f : Hierarchy.nodeRef -> nat -> angles -> angles)
    (nodes : list Hierarchy.nodeRef) (i : nat) (x : angles) : angles :=
  match nodes with
  | [] => x
  | node :: rest => forEach_indexed f rest (S i) (f node i x)
  end.

Definition depthTwoNodes (root : Hierarchy.tree) : list Hierarchy.nodeRef :=
  filter (fun d => Nat.eqb (Hierarchy.depth d) 2) (Hierarchy.descendants root).

(** [processDepthNodes(root)].  The guard on [node.children.length]
    keeps [calculateAverageAngle] away from the empty list, so its
    [NaN] is never stored.  The angles are real numbers here and
    rounded doubles in the source.  The two take the same branch of
    [calculateAverageAngle] wherever the children of a node span less
    or more than half a turn; where they span exactly half a turn the
    doubles are a rounding error away from [PI] on either side, and
    the branch the source takes is not the model's to tell. *)
Definition processDepthNodes (root : Hierarchy.tree) (x : angles) : angles :=
  let x1 :=
    if Nat.ltb 0 (List.length (depthTwoNodes root)) then
      let angleStep := (2 * PI) / INR (List.length (depthTwoNodes root)) in
      forEach_indexed (fun node i x => set_x x node (INR i * angleStep))
                      (depthTwoNodes root) 0 x
    else x in
  let depthOneNodes := Hierarchy.children root [] in
  fold_left
    (fun x node =>
       if Nat.ltb 0 (List.length (Hierarchy.children root node)) then
         let childAngles := map x (Hierarchy.children root node) in
         match calculateAverageAngle childAngles with
         | Some avgAngle => set_x x node avgAngle
         | None => x
         end
       else x)
    depthOneNodes x1.

(** The hierarchy of the specification's layout scenario: a root with
    two primary items, the first with three secondary items and the
    second with one. *)
Definition scenario_tree : Hierarchy.tree :=
  Hierarchy.Node "root"
    [ Hierarchy.Node "A"
        [ Hierarchy.Node "a1" []; Hierarchy.Node "a2" [];
          Hierarchy.Node "a3" [] ];
      Hierarchy.Node "B" [ Hierarchy.Node "b1" [] ] ].

(** [normalizeAngle(angle)].  Each of the two [while] loops runs on
    fuel; [None] when the fuel does not suffice.  On real numbers
    every turn of a loop moves the angle.  On doubles an angle of
    magnitude [2^57] or more absorbs the step, and the source loops for
    ever there: how long the loops run is not the model's to tell, only
    what they return. *)
Fixpoint raise_angle (fuel : nat) (angle : R) : option R :=
  match fuel with
  | O => None
  | S fuel' =>
      if Rlt_dec angle 0 then raise_angle fuel' (angle + 2 * PI)
      else Some angle
  end.

Fixpoint lower_angle (fuel : nat) (angle : R) : option R :=
  match fuel with
  | O => None
  | S fuel' =>
      if Rge_dec angle (2 * PI) then lower_angle fuel' (angle - 2 * PI)
      else Some angle
  end.

Definition normalizeAngle (fuel : nat) (angle : R) : option R :=
  match raise_angle fuel angle with
  | Some raised => lower_angle fuel raised
  | None => None
  end.

(** [project(angle, radius)]. *)
Definition project (angle radius : R) : R * R :=
  (radius * cos (angle - PI / 2), radius * sin (angle - PI / 2)).

(** [calculateOptimalSpacing(containerSize, nodeCount, nodeSize)]. *)
Definition calculateOptimalSpacing (containerSize : R) (nodeCount : nat)
    (nodeSize : R) : R :=
  let minSpacing := nodeSize * (1 / 2) in
  let availableSpace := containerSize - nodeSize * INR nodeCount in
  let optimalSpacing := availableSpace / (INR nodeCount + 1) in
  Rmax minSpacing optimalSpacing.

(** [calculateCurveTension(source, target)], on the [x] and [y] fields
    of the two nodes. *)
Definition calculateCurveTension (source target : R * R) : R :=
  let dx := fst target - fst source in
  let dy := snd target - snd source in
  let distance := sqrt (dx * dx + dy * dy) in
  Rmin (8 / 10) (Rmax (3 / 10) (distance / 1000)).

(** [calculateAnimationDuration(changeMagnitude, config)], on
    [config.animation.minDuration] and [maxDuration]. *)
Definition calculateAnimationDuration (changeMagnitude : R)
    (minDuration maxDuration : R) : R :=
  let duration := minDuration + changeMagnitude * (maxDuration - minDuration) in
  Rmin maxDuration (Rmax minDuration duration).

Section TextWrap.

(** [calculateTextWidth(text, fontSize)] measures on a canvas; the
    measure is a parameter. *)
Variable calculateTextWidth : string -> R -> R.

(** The [for] loop of [calculateTextWrap] over the words after the
    first. *)
Fixpoint wrap_loop (maxWidth fontSize : R) (words : list string)
    (lines : list string) (currentLine : string) : list string :=
  match words with
  | [] => lines ++ [currentLine]
  | word :: rest =>
      let width :=
        calculateTextWidth (currentLine ++ " " ++ word)%string fontSize in
      if Rle_dec width maxWidth
      then wrap_loop maxWidth fontSize rest lines
                     (currentLine ++ " " ++ word)%string
      else wrap_loop maxWidth fontSize rest (lines ++ [currentLine]) word
  end.

(** [calculateTextWrap(text, maxWidth, fontSize)]. *)
Definition calculateTextWrap (text : string) (maxWidth fontSize : R)
  : list string :=
  let '(first, rest) := Js.split_space text in
  wrap_loop maxWidth fontSize rest [] first.

End TextWrap.

End Calculations.

(* ================================================================== *)
(** ** visualization/NodeManager.js and visualization/PathManager.js *)
(* ================================================================== *)

(** The classification methods return a value that d3 reads for its
    truthiness; the embedding returns that truthiness.  A selection
    that is [null] is [None]. *)

Module NodeManager.

Import Hierarchy.

Definition isActiveNode (node : nodeRef) (selectedNode : option nodeRef)
  : bool :=
  match selectedNode with
  | None => Nat.eqb (depth node) 0
  | Some sel =>
      same node sel
      || match parent sel with
         | Some p => same node p
         | None => false
         end
      || (Nat.eqb (depth node) 0 && true)
  end.

(** The active set as the specification words it: the selection; its
    parent when the selection is at depth 1; the depth-0 root when
    nothing is selected. *)
Definition active_per_spec (node : nodeRef) (selectedNode : option nodeRef)
  : Prop :=
  match selectedNode with
  | None => depth node = 0%nat
  | Some sel => node = sel \/ (depth sel = 1%nat /\ parent sel = Some node)
  end.

Definition same_option (a b : option nodeRef) : bool :=
  match a, b with
  | Some x, Some y => same x y
  | None, None => true
  | _, _ => false
  end.

Definition isSiblingNode (node : nodeRef) (selectedNode : option nodeRef)
  : bool :=
  match selectedNode with
  | None => false
  | Some sel =>
      if Nat.eqb (depth node) 0 then false
      else same_option (parent node) (parent sel) && negb (same node sel)
  end.

(** [calculateNodePosition(node)], on [node.depth], [node.x] and
    [node.y]. *)
Definition calculateNodePosition (d : nat) (x y : R) : R * R :=
  if Nat.eqb d 0 then (0, 0)%R
  else
    let angle := (x - PI / 2)%R in
    let radius := y in
    (radius * cos angle, radius * sin angle)%R.

End NodeManager.

Module PathManager.

Import Hierarchy.

Definition isActivePath (l : option link) (selectedNode : option nodeRef)
  : bool :=
  match l, selectedNode with
  | Some l, Some sel =>
      if Nat.eqb (depth sel) 0 then true
      else if Nat.eqb (depth sel) 1 then
        match parent sel with
        | Some p => same (source l) p && same (target l) sel
        | None => false
        end
        || same (source l) sel
      else if Nat.eqb (depth sel) 2 then
        same (target l) sel
        || match parent sel with
           | Some p => same (source l) p
           | None => false
           end
        || match parent sel with
           | Some p =>
               match parent p with
               | Some g => same (source l) g && same (target l) p
               | None => false
               end
           | None => false
           end
      else false
  | _, _ => false
  end.

(** The active links of a depth-2 selection as the specification words
    them: the link into the selection, the link from its parent to it,
    and the link from its grandparent to its parent. *)
Definition active_per_spec (l : link) (sel : nodeRef) : Prop :=
  target l = sel
  \/ (parent sel = Some (source l) /\ target l = sel)
  \/ (exists p, parent sel = Some p /\ target l = p
                /\ parent p = Some (source l)).

Definition isSiblingPath (l : option link) (selectedNode : option nodeRef)
  : bool :=
  match l, selectedNode with
  | Some l, Some sel =>
      if Nat.eqb (depth sel) 1 then
        match parent sel with
        | Some p => same (source l) p && negb (same (target l) sel)
        | None => false
        end
      else if Nat.eqb (depth sel) 2 then
        match parent sel with
        | Some p => same (source l) p && negb (same (target l) sel)
        | None => false
        end
        || match parent sel with
           | Some p =>
               match parent p with
               | Some g =>
                   negb (same (source l) g)
                   && Nat.eqb (depth (target l)) 2
                   && negb (same (target l) sel)
               | None => false
               end
           | None => false
           end
      else false
  | _, _ => false
  end.

(** The entry of [config.colors.path] that [getPathColor] returns. *)
Inductive pathColor : Type := ColorActive | ColorInactive | ColorDefault.

Definition getPathColor (l : link) (selectedNode : option nodeRef)
  : pathColor :=
  if isActivePath (Some l) selectedNode then ColorActive
  else if isSiblingPath (Some l) selectedNode then ColorInactive
  else ColorDefault.

Definition getPathOpacity (l : link) (selectedNode : option nodeRef) : Z :=
  if Nat.eqb (depth (source l)) 1 && Nat.eqb (depth (target l)) 2 then
    match selectedNode with
    | None => 0%Z
    | Some sel =>
        if Nat.eqb (depth sel) 0 then 1%Z
        else if Nat.eqb (depth sel) 1 then
          if same (source l) sel then 1%Z else 0%Z
        else if Nat.eqb (depth sel) 2 then
          match parent sel with
          | Some p => if same (source l) p then 1%Z else 0%Z
          | None => 0%Z
          end
        else 0%Z
    end
  else 1%Z.

Definition getInitialOpacity (l : link) : Z :=
  if Nat.eqb (depth (source l)) 0 then 1%Z
  else if Nat.eqb (depth (source l)) 1 && Nat.eqb (depth (target l)) 2
       then 0%Z
       else 1%Z.

(** [calculateEndPoint(node)], on [node.x] and [node.y]. *)
Definition calculateEndPoint (x y : R) : R * R :=
  let angle := (x - PI / 2)%R in
  let radius := y in
  (radius * cos angle, radius * sin angle)%R.

End PathManager.

(* ================================================================== *)
(** ** state/StateManager.js and core/CircularNavManager.js *)
(* ================================================================== *)

Module JsValue.

(** The JavaScript values the click handler tests for truthiness. *)
Inductive value : Type :=
  | Undefined
  | Null
  | Boolean (b : bool)
  | Function (name : string)
  | NodeObject (n : Hierarchy.nodeRef).

Definition truthy (v : value) : bool :=
  match v with
  | Undefined | Null => false
  | Boolean b => b
  | Function _ => true
  | NodeObject _ => true
  end.

End JsValue.

Module StateManager.

Import Hierarchy JsValue.

(** [this.state] of a StateManager.  The fields [error], [data],
    [zoomLevel], [dimensions] and [contentLoaded] play no part in the
    click handling and are left out. *)
Record State : Type := {
  isInitialized : bool;
  isDestroying : bool;
  isTransitioning : bool;
  isUpdating : bool;
  isError : bool;
  selectedNode : option nodeRef;
  previousNode : option nodeRef
}.

(** A StateManager instance: its own fields are [parent], [listeners]
    and [state]; the methods, [isTransitioning()] among them, live on
    the prototype. *)
Record t : Type := { state : State }.

(** The constructor's initial state. *)
Definition initial : t :=
  {| state := {| isInitialized := false; isDestroying := false;
                 isTransitioning := false; isUpdating := false;
                 isError := false; selectedNode := None;
                 previousNode := None |} |}.

(** The method call [sm.isTransitioning()]. *)
Definition call_isTransitioning (sm : t) : bool :=
  isTransitioning (state sm).

(** The property read [sm.isTransitioning], without a call: no own
    field has that name, so the read finds the prototype method and
    yields the function object. *)
Definition read_isTransitioning (sm : t) : value :=
  Function "isTransitioning".

Definition option_same (a b : option nodeRef) : bool :=
  match a, b with
  | Some x, Some y => same x y
  | None, None => true
  | _, _ => false
  end.

(** [updateState({ selectedNode: node, isTransitioning: true })] up to
    its first suspension: the merge [{...this.state, ...newState}],
    then, in [handleStateChange], the move of the old selection to
    [previousNode] when the selection changed, then the start of
    [handleSelectionChange], whose nested
    [updateState({ isTransitioning: true })] merges the flag again.
    What follows is asynchronous. *)
Definition updateState_select (node : nodeRef) (sm : t) : t :=
  let oldState := state sm in
  let merged :=
    {| isInitialized := isInitialized oldState;
       isDestroying := isDestroying oldState;
       isTransitioning := true;
       isUpdating := isUpdating oldState;
       isError := isError oldState;
       selectedNode := Some node;
       previousNode := previousNode oldState |} in
  if option_same (selectedNode merged) (selectedNode oldState) then
    {| state := merged |}
  else
    {| state :=
         {| isInitialized := isInitialized merged;
            isDestroying := isDestroying merged;
            isTransitioning := true;
            isUpdating := isUpdating merged;
            isError := isError merged;
            selectedNode := selectedNode merged;
            previousNode :=
              match selectedNode oldState with
              | Some old => Some old
              | None => previousNode merged
              end |} |}.

End StateManager.

Module CircularNavManager.

Import Hierarchy JsValue.

(** [event.detail.node]: a node object, or nothing. *)
Definition detail_node (node : option nodeRef) : value :=
  match node with
  | Some n => NodeObject n
  | None => Undefined
  end.

(** [handleNodeClick(event)].  [this.state] is the StateManager, and
    the guard reads its member [isTransitioning] without calling it. *)
Definition handleNodeClick (node : option nodeRef) (state : StateManager.t)
  : StateManager.t :=
  if negb (truthy (detail_node node))
     || truthy (StateManager.read_isTransitioning state)
  then state
  else
    match node with
    | Some n => StateManager.updateState_select n state
    | None => state
    end.

End CircularNavManager.

(* ================================================================== *)
(** ** core/config.js *)
(* ================================================================== *)

Module Config.

Open Scope R_scope.

Record Size : Type := { width : R; height : R }.

Record TextSizes : Type := { t_central : R; t_primary : R; t_secondary : R }.

Record NodeSizes : Type := {
  n_central : R;
  n_primary : Size;
  n_secondary : Size
}.

(** One entry of [config.profiles]. *)
Record Profile : Type := {
  textSizes : TextSizes;
  nodeSizes : NodeSizes
}.

(** The configuration entries the display and the cache read. *)
Record t : Type := {
  dimensions_min : Size;
  breakpoint_small : R;
  breakpoint_medium : R;
  breakpoint_large : R;
  node_central_minSize : R;
  indicator_inner_radius : R;
  indicator_outer_radius : R;
  text_sizes_large : TextSizes;
  profiles_mobile : Profile;
  profiles_tablet : Profile;
  profiles_desktop : Profile;
  cache_maxSize : Z;
  cache_preloadDelay : Z;
  performance_batchSize : Z
}.

Definition DEFAULT_CONFIG : t := {|
  dimensions_min := {| width := 800; height := 600 |};
  breakpoint_small := 768;
  breakpoint_medium := 1024;
  breakpoint_large := 1440;
  node_central_minSize := 60;
  indicator_inner_radius := 5;
  indicator_outer_radius := 8;
  text_sizes_large :=
    {| t_central := 18; t_primary := 16; t_secondary := 14 |};
  profiles_mobile :=
    {| textSizes := {| t_central := 14; t_primary := 12; t_secondary := 10 |};
       nodeSizes := {| n_central := 80;
                       n_primary := {| width := 60; height := 45 |};
                       n_secondary := {| width := 50; height := 35 |} |} |};
  profiles_tablet :=
    {| textSizes := {| t_central := 16; t_primary := 14; t_secondary := 12 |};
       nodeSizes := {| n_central := 90;
                       n_primary := {| width := 70; height := 55 |};
                       n_secondary := {| width := 60; height := 45 |} |} |};
  profiles_desktop :=
    {| textSizes := {| t_central := 18; t_primary := 16; t_secondary := 14 |};
       nodeSizes := {| n_central := 100;
                       n_primary := {| width := 80; height := 65 |};
                       n_secondary := {| width := 70; height := 55 |} |} |};
  cache_maxSize := 50;
  cache_preloadDelay := 1000;
  performance_batchSize := 10
|}.

(** The default configuration with another cache capacity and batch
    size. *)
Definition with_cache_limits (maxSize batchSize : Z) (c : t) : t :=
  {| dimensions_min := dimensions_min c;
     breakpoint_small := breakpoint_small c;
     breakpoint_medium := breakpoint_medium c;
     breakpoint_large := breakpoint_large c;
     node_central_minSize := node_central_minSize c;
     indicator_inner_radius := indicator_inner_radius c;
     indicator_outer_radius := indicator_outer_radius c;
     text_sizes_large := text_sizes_large c;
     profiles_mobile := profiles_mobile c;
     profiles_tablet := profiles_tablet c;
     profiles_desktop := profiles_desktop c;
     cache_maxSize := maxSize;
     cache_preloadDelay := cache_preloadDelay c;
     performance_batchSize := batchSize |}.

End Config.

(* ================================================================== *)
(** ** state/DisplayManager.js *)
(* ================================================================== *)

Module DisplayManager.

Open Scope R_scope.
Import Config.

(** What the browser reports when a method runs: the container's
    bounding rectangle and the window's inner size. *)
Record Viewport : Type := {
  rect : Size;
  innerWidth : R;
  innerHeight : R
}.

Record NodeBoxes : Type := {
  central : Size;
  primary : Size;
  secondary : Size
}.

Record Indicators : Type := { inner : R; outer : R }.

Record Dimensions : Type := {
  dim_width : R;
  dim_height : R;
  radius : R;
  text : TextSizes;
  nodes : NodeBoxes;
  indicators : Indicators
}.

(** The fields of a DisplayManager that change. *)
Record t : Type := {
  currentProfile : option Profile;
  lastDimensions : option Dimensions
}.

Definition getActiveProfile (config : Config.t) (vp : Viewport) : Profile :=
  let width := innerWidth vp in
  if Rlt_dec width (breakpoint_small config) then profiles_mobile config
  else if Rlt_dec width (breakpoint_medium config) then profiles_tablet config
  else profiles_desktop config.

Definition calculateWidth (config : Config.t) (vp : Viewport) : R :=
  let containerWidth := Rmax (width (rect vp)) (width (dimensions_min config)) in
  let maxWidth := innerWidth vp * (9 / 10) in
  Rmin containerWidth maxWidth.

Definition calculateHeight (config : Config.t) (vp : Viewport) : R :=
  let containerHeight :=
    Rmax (height (rect vp)) (height (dimensions_min config)) in
  let maxHeight := innerHeight vp * (7 / 10) in
  Rmin containerHeight maxHeight.

Definition calculateRadius (config : Config.t) (vp : Viewport) : R :=
  let minDimension := Rmin (width (rect vp)) (height (rect vp)) in
  let baseRadius := minDimension * (35 / 100) in
  Rmax (node_central_minSize config * (3 / 2))
       (Rmin baseRadius (width (rect vp) * (4 / 10))).

Definition calculateFluidSize (config : Config.t) (vp : Viewport)
    (minSize maxSize : R) : R :=
  let slope :=
    (maxSize - minSize) / (breakpoint_large config - breakpoint_small config) in
  let size := minSize + slope * (width (rect vp) - breakpoint_small config) in
  Rmin maxSize (Rmax minSize size).

Definition calculateTextSizes (config : Config.t) (vp : Viewport)
    (profile : Profile) : TextSizes :=
  {| t_central := calculateFluidSize config vp
                    (t_central (textSizes profile))
                    (t_central (text_sizes_large config));
     t_primary := calculateFluidSize config vp
                    (t_primary (textSizes profile))
                    (t_primary (text_sizes_large config));
     t_secondary := calculateFluidSize config vp
                      (t_secondary (textSizes profile))
                      (t_secondary (text_sizes_large config)) |}.

Definition calculateNodeSizes (vp : Viewport) (profile : Profile)
  : NodeBoxes :=
  let minDimension := Rmin (width (rect vp)) (height (rect vp)) in
  {| central :=
       {| width := Rmax (n_central (nodeSizes profile))
                        (minDimension * (15 / 100));
          height := Rmax (n_central (nodeSizes profile))
                         (minDimension * (15 / 100)) |};
     primary :=
       {| width := Rmax (width (n_primary (nodeSizes profile)))
                        (minDimension * (10 / 100));
          height := Rmax (height (n_primary (nodeSizes profile)))
                         (minDimension * (8 / 100)) |};
     secondary :=
       {| width := Rmax (width (n_secondary (nodeSizes profile)))
                        (minDimension * (8 / 100));
          height := Rmax (height (n_secondary (nodeSizes profile)))
                         (minDimension * (6 / 100)) |} |}.

Definition calculateIndicatorSizes (config : Config.t) (vp : Viewport)
  : Indicators :=
  let minDimension := Rmin (width (rect vp)) (height (rect vp)) in
  {| inner := Rmax (indicator_inner_radius config) (minDimension * (1 / 100));
     outer := Rmax (indicator_outer_radius config)
                   (minDimension * (15 / 1000)) |}.

(** [calculateDimensions()]: the result is also stored in
    [this.lastDimensions] before it is returned. *)
Definition calculateDimensions (config : Config.t) (vp : Viewport) (dm : t)
  : Dimensions * t :=
  let profile := getActiveProfile config vp in
  let dimensions :=
    {| dim_width := calculateWidth config vp;
       dim_height := calculateHeight config vp;
       radius := calculateRadius config vp;
       text := calculateTextSizes config vp profile;
       nodes := calculateNodeSizes vp profile;
       indicators := calculateIndicatorSizes config vp |} in
  (dimensions,
   {| currentProfile := currentProfile dm;
      lastDimensions := Some dimensions |}).

(** [setup()], without the listener registration. *)
Definition setup (config : Config.t) (vp : Viewport) (dm : t) : t :=
  let dm1 := {| currentProfile := Some (getActiveProfile config vp);
                lastDimensions := lastDimensions dm |} in
  snd (calculateDimensions config vp dm1).

Definition hasSignificantChanges (dm : t) (newDims : Dimensions) : bool :=
  match lastDimensions dm with
  | None => true
  | Some last =>
      let threshold := 1 / 100 in
      (if Rgt_dec (Rabs (dim_width newDims - dim_width last))
                  (dim_width last * threshold) then true else false)
      || (if Rgt_dec (Rabs (dim_height newDims - dim_height last))
                     (dim_height last * threshold) then true else false)
  end.

(** [handleResize()], the body that the debounce wrapper runs after the
    quiet period.  The second component is the argument of the call
    [this.parent.viz.update(null, newDimensions)] when it is made. *)
Definition handleResize (config : Config.t) (vp : Viewport) (dm : t)
  : t * option Dimensions :=
  let newProfile := getActiveProfile config vp in
  let '(newDimensions, dm1) := calculateDimensions config vp dm in
  if hasSignificantChanges dm1 newDimensions then
    ({| currentProfile := Some newProfile;
        lastDimensions := lastDimensions dm1 |},
     Some newDimensions)
  else (dm1, None).

(** What the specification asks of a resize: the change of width or
    height against the last computed value exceeds one percent. *)
Definition significant_per_spec (last new : Dimensions) : Prop :=
  Rabs (dim_width new - dim_width last) > dim_width last * (1 / 100)
  \/ Rabs (dim_height new - dim_height last) > dim_height last * (1 / 100).

(** A desktop viewport whose container is [w] pixels wide and 700
    pixels high. *)
Definition viewport_of_width (w : R) : Viewport :=
  {| rect := {| width := w; height := 700 |};
     innerWidth := 1440; innerHeight := 1000 |}.

End DisplayManager.

(* ================================================================== *)
(** ** The two listeners of the window's [resize] event *)
(* ================================================================== *)

Module WindowResize.

Import JsValue Config DisplayManager.

(** The property read [this.state.isDestroying] in
    [CircularNavManager.handleResize].  [this.state] is the
    StateManager, whose own fields are [parent], [listeners] and
    [state] and whose prototype has no member of that name (the flag
    lives one level down, in [this.state.state]): the read yields
    [undefined]. *)
Definition read_isDestroying (sm : StateManager.t) : value := Undefined.

(** [CircularNavManager.handleResize()], the body its debounce wrapper
    runs after the quiet period.  The second component is the argument
    of the call [this.viz.update(null, dimensions)] when it is made. *)
Definition handleResize (config : Config.t) (vp : Viewport)
    (sm : StateManager.t) (dm : DisplayManager.t)
  : DisplayManager.t * option Dimensions :=
  if truthy (read_isDestroying sm) then (dm, None)
  else
    let '(dimensions, dm1) := calculateDimensions config vp dm in
    (dm1, Some dimensions).

Definition call_made (update : option Dimensions) : list Dimensions :=
  match update with
  | Some dimensions => [dimensions]
  | None => []
  end.

(** One [resize] event of the window once the quiet periods are over.
    Both handlers are registered on the window, the DisplayManager's by
    [display.setup()] and the CircularNavManager's by
    [setupEventListeners()]; [displayFirst] tells whose quiet period
    ends first.  The result is the display manager afterwards and the
    calls of [viz.update] made, in order. *)
Definition resize_event (config : Config.t) (vp : Viewport)
    (displayFirst : bool) (sm : StateManager.t) (dm : DisplayManager.t)
  : DisplayManager.t * list Dimensions :=
  if displayFirst then
    let '(dm1, u1) := DisplayManager.handleResize config vp dm in
    let '(dm2, u2) := handleResize config vp sm dm1 in
    (dm2, call_made u1 ++ call_made u2)
  else
    let '(dm1, u1) := handleResize config vp sm dm in
    let '(dm2, u2) := DisplayManager.handleResize config vp dm1 in
    (dm2, call_made u1 ++ call_made u2).

End WindowResize.

(* ================================================================== *)
(** ** visualization/OuterElementManager.js *)
(* ================================================================== *)

Module OuterElementManager.

Import Hierarchy.

Definition isActiveIndicator (node : nodeRef) (selectedNode : option nodeRef)
  : bool :=
  match selectedNode with
  | None => false
  | Some sel =>
      same node sel
      || (Nat.eqb (depth sel) 1
          && match parent node with
             | Some p => same p sel
             | None => false
             end)
  end.

Definition shouldPulse (node : nodeRef) (selectedNode : option nodeRef)
  : bool :=
  match selectedNode with
  | None => false
  | Some sel => same node sel && Nat.eqb (depth sel) 2
  end.

Definition isActiveLabel (node : nodeRef) (selectedNode : option nodeRef)
  : bool :=
  isActiveIndicator node selectedNode.

Definition isFadedLabel (node : nodeRef) (selectedNode : option nodeRef)
  : bool :=
  match selectedNode with
  | None => false
  | Some sel =>
      if Nat.eqb (depth sel) 0 then false
      else if Nat.eqb (depth sel) 1 then
        negb match parent node with
             | Some p => same p sel
             | None => false
             end
      else
        negb (same node sel)
        && negb (NodeManager.same_option (parent node) (parent sel))
  end.

(** [getLabelOpacity]: [0.5] or [1]. *)
Definition getLabelOpacity (node : nodeRef) (selectedNode : option nodeRef)
  : R :=
  if isFadedLabel node selectedNode then (1 / 2)%R else 1%R.

(** The coordinates that [calculateIndicatorPosition(node)] writes into
    its [translate(x,y)], on [node.x] and [node.y]. *)
Definition calculateIndicatorPosition (x y : R) : R * R :=
  let angle := x in
  let radius := y in
  (radius * cos angle, radius * sin angle)%R.

(** How [calculateLabelLayout] lays the name out: [type: 'single'] with
    its [text], or [type: 'double'] with its two lines. *)
Inductive LabelLines : Type :=
  | SingleLine (text : string)
  | DoubleLine (firstLine secondLine : string).

Record LabelLayout : Type := {
  lines : LabelLines;
  width : R;
  height : R;
  x : R;
  y : R
}.

(** [calculateTextPosition(angle, radius, layout)], on the width, the
    height and the type of the layout, with [config.text.spacing.base].
    The source also normalises a copy of the angle and computes a
    dynamic spacing; neither enters the result. *)
Definition calculateTextPosition (spacing_base : R) (angle radius : R)
    (layout_width layout_height : R) (single : bool) : R * R :=
  let textRadius := (radius + spacing_base)%R in
  let x := (textRadius * cos angle)%R in
  let y := (textRadius * sin angle)%R in
  ((x - layout_width / 2)%R,
   (y - (if single then layout_height / 4 else layout_height / 2))%R).

(** [calculateLabelLayout(node)], on [node.data.name], [node.x] and
    [node.y], with [config.text.thresholds.longText] and
    [config.text.spacing.base].  String lengths count bytes, which are
    the UTF-16 units of JavaScript on ASCII names.
    [Math.ceil(wordCount / 2)] is [(wordCount + 1) / 2], and
    [a > b * 1.5] on lengths is [3 * b < 2 * a]. *)
Definition calculateLabelLayout (config : Config.t) (longText : nat)
    (spacing_base : R) (name : string) (node_x node_y : R) : LabelLayout :=
  let text := name in
  let '(first, rest) := Js.split_space text in
  let words := first :: rest in
  let totalLength := String.length text in
  let wordCount := List.length words in
  let secondary := Config.t_secondary (Config.text_sizes_large config) in
  let angle := node_x in
  let radius := (node_y + Config.indicator_outer_radius config)%R in
  if Nat.ltb 1 wordCount
     && (Nat.ltb longText totalLength || Nat.ltb 2 wordCount)
  then
    let midpoint := Nat.div (wordCount + 1) 2 in
    let firstHalf := Js.join_space (firstn midpoint words) in
    let secondHalf := Js.join_space (skipn midpoint words) in
    let midpoint' :=
      if Nat.ltb (3 * String.length secondHalf) (2 * String.length firstHalf)
      then (midpoint - 1)%nat else midpoint in
    let w := spacing_base in
    let h := (secondary * (5 / 2))%R in
    let position := calculateTextPosition spacing_base angle radius w h false in
    {| lines := DoubleLine (Js.join_space (firstn midpoint' words))
                           (Js.join_space (skipn midpoint' words));
       width := w; height := h; x := fst position; y := snd position |}
  else
    let w := spacing_base in
    let h := (secondary * (3 / 2))%R in
    let position := calculateTextPosition spacing_base angle radius w h true in
    {| lines := SingleLine text;
       width := w; height := h; x := fst position; y := snd position |}.

End OuterElementManager.

(* ================================================================== *)
(** ** JavaScript [Map] and [Set] with string keys *)
(* ================================================================== *)

(** Both containers iterate in insertion order, and the cache relies on
    it (the order of [entries()] before the sort, the order of the
    preload queue), so they are association lists and lists, kept
    without repeated keys by their operations. *)

Module JsMap.

Section WithValue.

Variable V : Type.

Definition t : Type := list (string * V).

Fixpoint get (k : string) (m : t) : option V :=
  match m with
  | [] => None
  | (k', v) :: rest => if String.eqb k' k then Some v else get k rest
  end.

Definition has (k : string) (m : t) : bool :=
  match get k m with
  | Some _ => true
  | None => false
  end.

(** [m.set(k, v)]: an existing key keeps its place, a new one goes to
    the end. *)
Fixpoint set (k : string) (v : V) (m : t) : t :=
  match m with
  | [] => [(k, v)]
  | (k', v') :: rest =>
      if String.eqb k' k then (k, v) :: rest else (k', v') :: set k v rest
  end.

Definition delete (k : string) (m : t) : t :=
  filter (fun e => negb (String.eqb (fst e) k)) m.

Definition size (m : t) : Z := Z.of_nat (List.length m).

Definition keys (m : t) : list string := map fst m.

End WithValue.

End JsMap.

Module JsSet.

Definition t : Type := list string.

Definition has (k : string) (s : t) : bool :=
  existsb (String.eqb k) s.

Definition add (k : string) (s : t) : t :=
  if has k s then s else s ++ [k].

Definition delete (k : string) (s : t) : t :=
  filter (fun k' => negb (String.eqb k' k)) s.

Definition size (s : t) : Z := Z.of_nat (List.length s).

End JsSet.

(* ================================================================== *)
(** ** state/CacheManager.js *)
(* ================================================================== *)

Module CacheManager.

Open Scope Z_scope.

Section WithContent.

(** The processed payload that [fetchContent] resolves to, and
    [estimateSize], the byte length of its JSON text. *)
Variable Content : Type.
Variable estimateSize : Content -> Z.

Variable config : Config.t.

Record Entry : Type := {
  content : Content;
  added : Z;
  lastAccessed : Z;
  size : Z
}.

Record Stats : Type := {
  hits : Z;
  misses : Z;
  stat_size : Z;
  lastCleanup : Z
}.

(** The fields of a CacheManager.  A promise stored in
    [loadingPromises] is named by the number of the [fetchContent]
    call that made it. *)
Record t : Type := {
  cache : JsMap.t Entry;
  preloadQueue : JsSet.t;
  stats : Stats;
  isLoading : bool;
  loadingPromises : JsMap.t nat
}.

(** The constructor, run at time [now]. *)
Definition create (now : Z) : t :=
  {| cache := []; preloadQueue := [];
     stats := {| hits := 0; misses := 0; stat_size := 0;
                 lastCleanup := now |};
     isLoading := false; loadingPromises := [] |}.

Definition with_cache (c : JsMap.t Entry) (m : t) : t :=
  {| cache := c; preloadQueue := preloadQueue m; stats := stats m;
     isLoading := isLoading m; loadingPromises := loadingPromises m |}.

Definition with_stats (s : Stats) (m : t) : t :=
  {| cache := cache m; preloadQueue := preloadQueue m; stats := s;
     isLoading := isLoading m; loadingPromises := loadingPromises m |}.

Definition with_preloadQueue (q : JsSet.t) (m : t) : t :=
  {| cache := cache m; preloadQueue := q; stats := stats m;
     isLoading := isLoading m; loadingPromises := loadingPromises m |}.

Definition with_isLoading (b : bool) (m : t) : t :=
  {| cache := cache m; preloadQueue := preloadQueue m; stats := stats m;
     isLoading := b; loadingPromises := loadingPromises m |}.

Definition with_loadingPromises (l : JsMap.t nat) (m : t) : t :=
  {| cache := cache m; preloadQueue := preloadQueue m; stats := stats m;
     isLoading := isLoading m; loadingPromises := l |}.

(** [shouldCleanup()], with [Date.now()] read as [now].  The readings
    of the clock within one synchronous method run are taken to be the
    same instant. *)
Definition shouldCleanup (now : Z) (m : t) : bool :=
  let timeSinceCleanup := now - lastCleanup (stats m) in
  (JsMap.size (cache m) >? Config.cache_maxSize config)
  || (timeSinceCleanup >? 300000).

(** [entries.sort(([, a], [, b]) => a.lastAccessed - b.lastAccessed)]:
    the sort is stable, an entry stays in front of a later one unless
    the comparator is positive. *)
Fixpoint insert_entry (e : string * Entry) (sorted : list (string * Entry))
  : list (string * Entry) :=
  match sorted with
  | [] => [e]
  | e' :: rest =>
      if lastAccessed (snd e) - lastAccessed (snd e') <=? 0
      then e :: sorted
      else e' :: insert_entry e rest
  end.

Definition sort_entries (entries : list (string * Entry))
  : list (string * Entry) :=
  fold_right insert_entry [] entries.

(** [xs.slice(0, n)]. *)
Definition slice0 (A : Type) (n : Z) (xs : list A) : list A :=
  if n <? 0
  then firstn (List.length xs - Z.to_nat (- n)) xs
  else firstn (Z.to_nat n) xs.

(** [cleanup()]. *)
Definition cleanup (now : Z) (m : t) : t :=
  if JsMap.size (cache m) <=? Config.cache_maxSize config then m
  else
    let entries := sort_entries (cache m) in
    let removeCount := JsMap.size (cache m) - Config.cache_maxSize config in
    let m1 :=
      fold_left (fun m e => with_cache (JsMap.delete (fst e) (cache m)) m)
                (slice0 removeCount entries) m in
    with_stats {| hits := hits (stats m1); misses := misses (stats m1);
                  stat_size := JsMap.size (cache m1);
                  lastCleanup := now |} m1.

(** [set(id, content)]. *)
Definition set (now : Z) (id : string) (c : Content) (m : t) : t :=
  let m1 :=
    with_cache
      (JsMap.set id {| content := c; added := now; lastAccessed := now;
                       size := estimateSize c |} (cache m)) m in
  let m2 :=
    with_stats {| hits := hits (stats m1); misses := misses (stats m1);
                  stat_size := JsMap.size (cache m1);
                  lastCleanup := lastCleanup (stats m1) |} m1 in
  if shouldCleanup now m2 then cleanup now m2 else m2.

(** A sequence of [set] calls, each with its clock reading. *)
Definition set_all (calls : list (Z * string * Content)) (m : t) : t :=
  fold_left (fun m '(now, id, c) => set now id c m) calls m.

(** [getBatch()]: the loop over the queue with its counter. *)
Fixpoint getBatch_loop (batchSize : Z) (queue : list string)
    (batch : JsSet.t) (count : Z) : JsSet.t :=
  match queue with
  | [] => batch
  | id :: rest =>
      if count >=? batchSize then batch
      else getBatch_loop batchSize rest (JsSet.add id batch) (count + 1)
  end.

Definition getBatch (m : t) : JsSet.t :=
  getBatch_loop (Config.performance_batchSize config) (preloadQueue m) [] 0.

(** *** The asynchronous methods

    All code runs on one thread; an [async] method runs until its
    first [await] and is resumed later, with other code in between.
    The world holds, next to the manager, the calls made to
    [fetchContent] so far and the state of the preload loop while it is
    suspended. *)

Inductive origin : Type := ByGet | ByPreload.

(** One call of [fetchContent(id)]; [f_pending] while its promise has
    not settled.  The call's number is its position in the log. *)
Record Fetch : Type := {
  f_id : string;
  f_origin : origin;
  f_pending : bool
}.

(** The suspended [processPreloadQueue]: the [batch] it took, the
    fetches of the current round it still awaits, and whether it sits
    in the delay between rounds. *)
Record Drain : Type := {
  batch : JsSet.t;
  awaiting : list nat;
  delaying : bool
}.

Record World : Type := {
  mgr : t;
  fetches : list Fetch;
  drain : option Drain
}.

Definition start (now : Z) : World :=
  {| mgr := create now; fetches := []; drain := None |}.

(** The call [this.fetchContent(id)]: the request leaves at once; the
    promise is the new entry of the log. *)
Definition fetchContent (id : string) (o : origin) (w : World)
  : nat * World :=
  (List.length (fetches w),
   {| mgr := mgr w;
      fetches := fetches w ++ [ {| f_id := id; f_origin := o;
                                   f_pending := true |} ];
      drain := drain w |}).

(** The promise of call number [p] has settled. *)
Fixpoint settle (p : nat) (fs : list Fetch) : list Fetch :=
  match fs, p with
  | [], _ => []
  | f :: rest, O =>
      {| f_id := f_id f; f_origin := f_origin f; f_pending := false |} :: rest
  | f :: rest, S p' => f :: settle p' rest
  end.

(** What a call of [get(id)] hands back when it first yields: the
    promise already stored for [id], the cached content, or the promise
    of the fetch it has just started. *)
Inductive GetResult : Type :=
  | Joined (p : nat)
  | Hit (c : Content)
  | Fetching (p : nat).

Definition touch (now : Z) (e : Entry) : Entry :=
  {| content := content e; added := added e; lastAccessed := now;
     size := size e |}.

(** [get(id)] up to its first [await]. *)
Definition get_call (now : Z) (id : string) (w : World)
  : GetResult * World :=
  match JsMap.get id (loadingPromises (mgr w)) with
  | Some p => (Joined p, w)
  | None =>
      match JsMap.get id (cache (mgr w)) with
      | Some cached =>
          let m := mgr w in
          let m1 :=
            with_stats {| hits := hits (stats m) + 1;
                          misses := misses (stats m);
                          stat_size := stat_size (stats m);
                          lastCleanup := lastCleanup (stats m) |} m in
          let m2 :=
            with_cache (JsMap.set id (touch now cached) (cache m1)) m1 in
          (Hit (content cached),
           {| mgr := m2; fetches := fetches w; drain := drain w |})
      | None =>
          let m := mgr w in
          let m1 :=
            with_stats {| hits := hits (stats m);
                          misses := misses (stats m) + 1;
                          stat_size := stat_size (stats m);
                          lastCleanup := lastCleanup (stats m) |} m in
          let '(p, w1) :=
            fetchContent id ByGet
              {| mgr := m1; fetches := fetches w; drain := drain w |} in
          (Fetching p,
           {| mgr := with_loadingPromises
                       (JsMap.set id p (loadingPromises (mgr w1))) (mgr w1);
              fetches := fetches w1; drain := drain w1 |})
      end
  end.

(** [get(id)] resumed when its fetch [p] settles, with the content or
    with a rejection ([None]): [set] on success, and in either case
    [loadingPromises.delete(id)]. *)
Definition get_resume (now : Z) (p : nat) (result : option Content)
    (w : World) : option World :=
  match nth_error (fetches w) p with
  | Some {| f_id := id; f_origin := ByGet; f_pending := true |} =>
      let m1 :=
        match result with
        | Some c => set now id c (mgr w)
        | None => mgr w
        end in
      Some {| mgr := with_loadingPromises
                       (JsMap.delete id (loadingPromises m1)) m1;
              fetches := settle p (fetches w);
              drain := drain w |}
  | _ => None
  end.

(** One round of the loop body up to [await Promise.all(promises)]:
    the callback of [map] calls [fetchContent] for each id of the
    batch, in order. *)
Fixpoint start_round (ids : list string) (w : World) : list nat * World :=
  match ids with
  | [] => ([], w)
  | id :: rest =>
      let '(p, w1) := fetchContent id ByPreload w in
      let '(ps, w2) := start_round rest w1 in
      (p :: ps, w2)
  end.

(** The test [while (batch.size > 0)] with what follows it: another
    round, or the [finally] block that ends the method. *)
Definition loop_test (b : JsSet.t) (w : World) : World :=
  if JsSet.size b >? 0 then
    let '(ps, w1) := start_round b w in
    {| mgr := mgr w1; fetches := fetches w1;
       drain := Some {| batch := b; awaiting := ps; delaying := false |} |}
  else
    {| mgr := with_isLoading false (mgr w); fetches := fetches w;
       drain := None |}.

(** [processPreloadQueue()] up to its first [await]. *)
Definition processPreloadQueue (w : World) : World :=
  if isLoading (mgr w) || (JsSet.size (preloadQueue (mgr w)) =? 0) then w
  else
    let w1 := {| mgr := with_isLoading true (mgr w); fetches := fetches w;
                 drain := drain w |} in
    let b := getBatch (mgr w1) in
    loop_test b w1.

(** [preloadContent(ids)]. *)
Definition preloadContent (ids : list string) (w : World) : World :=
  let m1 :=
    fold_left
      (fun m id =>
         if negb (JsMap.has id (cache m)) && negb (JsSet.has id (preloadQueue m))
         then with_preloadQueue (JsSet.add id (preloadQueue m)) m
         else m)
      ids (mgr w) in
  let w1 := {| mgr := m1; fetches := fetches w; drain := drain w |} in
  if negb (isLoading (mgr w1)) then processPreloadQueue w1 else w1.

(** The callback of one batch member resumed when its fetch [p]
    settles: [set] on success, a warning on failure, and in either case
    [preloadQueue.delete(id)]. *)
Definition preload_resume (now : Z) (p : nat) (result : option Content)
    (w : World) : option World :=
  match drain w, nth_error (fetches w) p with
  | Some d, Some {| f_id := id; f_origin := ByPreload; f_pending := true |} =>
      let m1 :=
        match result with
        | Some c => set now id c (mgr w)
        | None => mgr w
        end in
      Some {| mgr := with_preloadQueue
                       (JsSet.delete id (preloadQueue m1)) m1;
              fetches := settle p (fetches w);
              drain := Some {| batch := batch d;
                               awaiting :=
                                 filter (fun q => negb (Nat.eqb q p))
                                        (awaiting d);
                               delaying := delaying d |} |}
  | _, _ => None
  end.

(** The loop resumed after [await Promise.all(promises)]: the delay is
    awaited when the queue is not empty, else the loop test follows at
    once. *)
Definition batch_done (w : World) : option World :=
  match drain w with
  | Some {| batch := b; awaiting := []; delaying := false |} =>
      if JsSet.size (preloadQueue (mgr w)) >? 0 then
        Some {| mgr := mgr w; fetches := fetches w;
                drain := Some {| batch := b; awaiting := [];
                                 delaying := true |} |}
      else Some (loop_test b w)
  | _ => None
  end.

(** The loop resumed when the timer of [preloadDelay] fires. *)
Definition delay_elapsed (w : World) : option World :=
  match drain w with
  | Some {| batch := b; awaiting := []; delaying := true |} =>
      Some (loop_test b w)
  | _ => None
  end.

(** What can happen next: a caller's [get] or [preloadContent], or the
    resumption of suspended code.  [None] when the event cannot occur
    in the world at hand. *)
Inductive event : Type :=
  | Get (id : string) (now : Z)
  | GetFetchSettled (p : nat) (result : option Content) (now : Z)
  | PreloadContent (ids : list string)
  | PreloadFetchSettled (p : nat) (result : option Content) (now : Z)
  | BatchDone
  | DelayElapsed.

Definition step (e : event) (w : World) : option World :=
  match e with
  | Get id now => Some (snd (get_call now id w))
  | GetFetchSettled p result now => get_resume now p result w
  | PreloadContent ids => Some (preloadContent ids w)
  | PreloadFetchSettled p result now => preload_resume now p result w
  | BatchDone => batch_done w
  | DelayElapsed => delay_elapsed w
  end.

Fixpoint run (es : list event) (w : World) : option World :=
  match es with
  | [] => Some w
  | e :: rest =>
      match step e w with
      | Some w1 => run rest w1
      | None => None
      end
  end.

(** The calls a trace of [get] calls and their settlements is made of. *)
Definition get_event (e : event) : bool :=
  match e with
  | Get _ _ | GetFetchSettled _ _ _ => true
  | _ => false
  end.

(** No two fetches of the same id are in flight. *)
Definition at_most_one_in_flight (w : World) : Prop :=
  forall p q f g,
    nth_error (fetches w) p = Some f -> nth_error (fetches w) q = Some g ->
    f_pending f = true -> f_pending g = true -> f_id f = f_id g -> p = q.

(** An entry was accessed no later than another one. *)
Definition older (a b : string * Entry) : Prop :=
  lastAccessed (snd a) <= lastAccessed (snd b).

(** The entries that are left when the keys of [rm] are deleted. *)
Definition survives (rm : list (string * Entry)) (e : string * Entry)
  : bool :=
  negb (existsb (String.eqb (fst e)) (JsMap.keys rm)).

(** Every fetch in flight is the promise that [loadingPromises] holds
    for its id. *)
Definition pending_registered (w : World) : Prop :=
  forall p f,
    nth_error (fetches w) p = Some f -> f_pending f = true ->
    JsMap.get (f_id f) (loadingPromises (mgr w)) = Some p.

(** The number of calls of [fetchContent(id)] made so far. *)
Definition fetch_count (id : string) (w : World) : nat :=
  List.length (filter (fun f => String.eqb (f_id f) id) (fetches w)).

(** [clear()], run at time [now]: the three containers are emptied,
    [isLoading] is lowered and the statistics start again.  Requests
    in flight and a suspended preload loop are not touched. *)
Definition clear (now : Z) (w : World) : World :=
  {| mgr := {| cache := []; preloadQueue := [];
               stats := {| hits := 0; misses := 0; stat_size := 0;
                           lastCleanup := now |};
               isLoading := false; loadingPromises := [] |};
     fetches := fetches w;
     drain := drain w |}.

End WithContent.

(** A concrete payload for the scenarios: the markup itself, sized by
    its length. *)
Definition markup_size (html : string) : Z := Z.of_nat (String.length html).

Definition small_config : Config.t :=
  Config.with_cache_limits 2 1 Config.DEFAULT_CONFIG.

End CacheManager.

(* ================================================================== *)
(** ** ui/Controls.js: the zoom handlers *)
(* ================================================================== *)

Module Controls.

Open Scope R_scope.

(** [config.zoom], the entries the handlers read. *)
Record ZoomConfig : Type := {
  zoom_min : R;
  zoom_max : R;
  zoom_step : R
}.

(** [DEFAULT_CONFIG.zoom]. *)
Definition DEFAULT_ZOOM : ZoomConfig :=
  {| zoom_min := 5 / 10; zoom_max := 3; zoom_step := 1 / 10 |}.

(** The fields of a Controls instance the zoom handlers use. *)
Record t : Type := {
  currentZoom : R;
  isZooming : bool
}.

(** The constructor. *)
Definition initial : t := {| currentZoom := 1; isZooming := false |}.

(** [updateZoom(newZoom)] up to its [await]: nothing for the zoom the
    instance already has; otherwise the flag is raised and the zoom
    stored (and [zoom:change] dispatched). *)
Definition updateZoom (newZoom : R) (c : t) : t :=
  if Req_dec_T newZoom (currentZoom c) then c
  else {| currentZoom := newZoom; isZooming := true |}.

(** [updateZoom] resumed when the animation timer fires: the
    [finally] block. *)
Definition updateZoom_done (c : t) : t :=
  {| currentZoom := currentZoom c; isZooming := false |}.

Definition handleZoomIn (config : ZoomConfig) (c : t) : t :=
  if isZooming c then c
  else updateZoom (Rmin (currentZoom c * zoom_step config)
                        (zoom_max config)) c.

Definition handleZoomOut (config : ZoomConfig) (c : t) : t :=
  if isZooming c then c
  else updateZoom (Rmax (currentZoom c / zoom_step config)
                        (zoom_min config)) c.

Definition handleReset (c : t) : t :=
  if isZooming c then c else updateZoom 1 c.

(** What can happen to the controls: a press of one of the three
    buttons (or its keyboard shortcut), or the end of the animation of
    the zoom step in progress. *)
Inductive action : Type :=
  | ZoomIn
  | ZoomOut
  | Reset
  | AnimationDone.

Definition step (config : ZoomConfig) (c : t) (a : action) : t :=
  match a with
  | ZoomIn => handleZoomIn config c
  | ZoomOut => handleZoomOut config c
  | Reset => handleReset c
  | AnimationDone => updateZoom_done c
  end.

Definition run (config : ZoomConfig) (actions : list action) (c : t) : t :=
  fold_left (step config) actions c.

End Controls.

(* ================================================================== *)
(** ** core/config.js and core/index.js: validation of the merged
       configuration *)
(* ================================================================== *)

Module ConfigObject.

Section WithValue.

(** The values of the top-level properties; the validation never looks
    inside them. *)
Variable V : Type.

(** A plain object, its own properties in insertion order. *)
Definition t : Type := JsMap.t V.

Definition required : list string :=
  ["dimensions"; "node"; "text"; "colors"]%string.

(** [validateConfig(config)]: [inl] is the message of the Error thrown.
    [prop in config] is the presence of the property; none of the four
    names is inherited from [Object.prototype]. *)
Definition validateConfig (config : t) : string + bool :=
  let missing := filter (fun prop => negb (JsMap.has prop config)) required in
  if (0 <? List.length missing)%nat
  then inl ("Missing required config properties: "
            ++ String.concat ", " missing)%string
  else inr true.

(** [{...a, ...b}]: the properties of [a], then those of [b], each
    assigned in turn. *)
Definition spread (a b : t) : t :=
  fold_left (fun o kv => JsMap.set (fst kv) (snd kv) o) (a ++ b) [].

(** The top-level properties of [DEFAULT_CONFIG], with the value of
    each. *)
Definition DEFAULT_CONFIG (section : string -> V) : t :=
  map (fun k => (k, section k))
      ["dimensions"; "animation"; "zoom"; "node"; "indicator"; "text";
       "colors"; "profiles"; "cache"; "performance"]%string.

(** The configuration a CircularNavManager built by
    [createInstance(containerId, postType, config)] ends with:
    [validateConfig(merged) ? merged : {}] on the merge of the defaults
    and the caller's object, or the Error of the validation. *)
Definition createInstance_config (section : string -> V) (config : t)
  : string + t :=
  let merged := spread (DEFAULT_CONFIG section) config in
  match validateConfig merged with
  | inl message => inl message
  | inr true => inr merged
  | inr false => inr []
  end.

End WithValue.

End ConfigObject.
(* ------------------------------------------------------------------ *)
(** *** Facts about the arithmetic *)

Section JsFacts.

Open Scope R_scope.













Lemma PI_gt_2 : 2 < PI.
Proof. pose proof PI2_1. lra. Qed.

End JsFacts.

(* ================================================================== *)
(** ** calculateAverageAngle *)
(* ================================================================== *)

Section AverageAngle.

Open Scope R_scope.
Import Calculations.

Lemma calculateAverageAngle_cases (angles : list R) (mn mx : R) :
  Js.Math_min angles = Some mn -> Js.Math_max angles = Some mx ->
  calculateAverageAngle angles =
    if Rgt_dec (mx - mn) PI
    then Some (Js.rem ((mn + mx + 2 * PI) / 2) (2 * PI))
    else Some ((mn + mx) / 2).
Proof.
  intros Hmn Hmx. unfold calculateAverageAngle. rewrite Hmn, Hmx. reflexivity.
Qed.

Lemma Math_min_max_defined (angles : list R) :
  angles <> [] ->
  exists mn mx, Js.Math_min angles = Some mn /\ Js.Math_max angles = Some mx.
Proof.
  destruct angles as [ | a rest]; [ congruence | ].
  intros _. simpl. eauto.
Qed.

Lemma calculateAverageAngle_defined (angles : list R) :
  angles <> [] -> exists a, calculateAverageAngle angles = Some a.
Proof.
  intros H. destruct (Math_min_max_defined H) as (mn & mx & Hmn & Hmx).
  rewrite (calculateAverageAngle_cases _ Hmn Hmx).
  destruct (Rgt_dec (mx - mn) PI); eauto.
Qed.











(** Off the equally spaced sequences the midpoint of the extremes need
    not be the mean: the three angles [0, 0, 1] span less than [PI],
    their arithmetic mean is [1/3], and the code returns [1/2].  No
    call in the program passes such a sequence. *)
Remark calculateAverageAngle_midpoint_of_extremes :
  let angles := [0; 0; 1] in
  arithmetic_mean angles = 1 / 3 /\
  calculateAverageAngle angles = Some (1 / 2).
Proof.
  pose proof PI_gt_2 as Hpi. cbn zeta. split.
  - unfold arithmetic_mean. simpl. lra.
  - unfold calculateAverageAngle. simpl.
    rewrite (Rmin_left 0 0) by lra. rewrite (Rmin_left 0 1) by lra.
    rewrite (Rmax_left 0 0) by lra. rewrite (Rmax_right 0 1) by lra.
    destruct (Rgt_dec (1 - 0) PI) as [H | _]; [ lra | ].
    f_equal. lra.
Qed.

End AverageAngle.

(* ================================================================== *)
(** ** The hierarchy and processDepthNodes *)
(* ================================================================== *)

Section HierarchyFacts.

Import Hierarchy.

Lemma same_true (a b : nodeRef) : same a b = true <-> a = b.
Proof.
  revert b. induction a as [ | i a IH]; intros [ | j b]; simpl;
    try (split; [ discriminate | congruence ]); [ tauto | ].
  rewrite andb_true_iff, Nat.eqb_eq, IH. split.
  - intros [-> ->]; reflexivity.
  - intros E; injection E; auto.
Qed.

Lemma same_refl (a : nodeRef) : same a a = true.
Proof. apply same_true; reflexivity. Qed.

Lemma same_false (a b : nodeRef) : same a b = false <-> a <> b.
Proof.
  rewrite <- same_true. destruct (same a b); split; congruence.
Qed.

Lemma in_children (root : tree) (n c : nodeRef) :
  In c (children root n) -> exists k, c = k :: n.
Proof.
  unfold children. destruct (subtree root (rev n)) as [t | ]; [ | intros [] ].
  rewrite in_map_iff. intros (k & <- & _). eauto.
Qed.

Lemma children_depth (root : tree) (n c : nodeRef) :
  In c (children root n) -> depth c = S (depth n).
Proof.
  intros H. destruct (in_children _ _ _ H) as [k ->]. reflexivity.
Qed.

Lemma children_parent (root : tree) (n c : nodeRef) :
  In c (children root n) -> parent c = Some n.
Proof.
  intros H. destruct (in_children _ _ _ H) as [k ->]. reflexivity.
Qed.

Lemma NoDup_children (root : tree) (n : nodeRef) : NoDup (children root n).
Proof.
  unfold children. destruct (subtree root (rev n)) as [t | ]; [ | constructor ].
  generalize (seq_NoDup (List.length (kids t)) 0).
  generalize (seq 0 (List.length (kids t))) as l.
  induction l as [ | k l IH]; simpl; intros H; [ constructor | ].
  inversion H as [ | ? ? Hk Hl]; subst. constructor; [ | auto ].
  rewrite in_map_iff. intros (j & E & Hj). injection E as ->. contradiction.
Qed.

Lemma NoDup_flat_map_children (root : tree) (l : list nodeRef) :
  NoDup l -> NoDup (flat_map (children root) l).
Proof.
  induction l as [ | p l IH]; simpl; intros H; [ constructor | ].
  inversion H as [ | ? ? Hp Hl]; subst.
  apply NoDup_app; [ apply NoDup_children | auto | ].
  intros c Hc Hc'. apply in_flat_map in Hc'. destruct Hc' as (q & Hq & Hcq).
  apply children_parent in Hc. apply children_parent in Hcq.
  assert (p = q) by congruence. subst. contradiction.
Qed.

Lemma level_depth (root : tree) (k : nat) (n : nodeRef) :
  In n (level root k) -> depth n = k.
Proof.
  revert n. induction k as [ | k IH]; simpl; intros n H.
  - destruct H as [<- | []]. reflexivity.
  - apply in_flat_map in H. destruct H as (p & Hp & Hn).
    rewrite (children_depth _ _ _ Hn). f_equal. auto.
Qed.

Lemma NoDup_level (root : tree) (k : nat) : NoDup (level root k).
Proof.
  induction k as [ | k IH]; simpl.
  - constructor; [ intros [] | constructor ].
  - apply NoDup_flat_map_children; exact IH.
Qed.

Lemma fold_max_ge (f : tree -> nat) (cs : list tree) (c : tree) :
  In c cs -> (f c <= fold_right (fun c h => Nat.max (f c) h) 0 cs)%nat.
Proof.
  induction cs as [ | d cs IH]; intros H; [ contradiction | ].
  cbn [fold_right]. destruct H as [-> | H].
  - apply Nat.le_max_l.
  - etransitivity; [ exact (IH H) | apply Nat.le_max_r ].
Qed.

Lemma height_child (id : string) (cs : list tree) (c : tree) :
  In c cs -> (S (height c) <= height (Node id cs))%nat.
Proof.
  intros H.
  change (height (Node id cs))
    with (fold_right (fun c h => Nat.max (S (height c)) h) 0%nat cs).
  exact (fold_max_ge (fun c => S (height c)) cs c H).
Qed.

Lemma subtree_height (path : list nat) (t u : tree) :
  subtree t path = Some u -> (List.length path + height u <= height t)%nat.
Proof.
  revert t. induction path as [ | k path IH]; simpl; intros t H.
  - injection H as ->. lia.
  - destruct (nth_error (kids t) k) as [c | ] eqn:E; [ | discriminate ].
    specialize (IH _ H). apply nth_error_In in E.
    destruct t as [id cs]. simpl in E.
    pose proof (height_child id _ _ E). lia.
Qed.

Lemma subtree_app (p q : list nat) (t : tree) :
  subtree t (p ++ q) =
    match subtree t p with Some u => subtree u q | None => None end.
Proof.
  revert t. induction p as [ | k p IH]; simpl; intros t; [ reflexivity | ].
  destruct (nth_error (kids t) k); auto.
Qed.

Lemma children_in_tree (root : tree) (n c : nodeRef) :
  In c (children root n) -> exists u, subtree root (rev c) = Some u.
Proof.
  unfold children. destruct (subtree root (rev n)) as [t | ] eqn:E;
    [ | intros [] ].
  rewrite in_map_iff. intros (k & <- & Hk). apply in_seq in Hk.
  simpl. rewrite subtree_app, E. simpl.
  destruct (nth_error (kids t) k) as [c | ] eqn:Ek; [ eauto | ].
  apply nth_error_None in Ek. lia.
Qed.

Lemma level_in_tree (root : tree) (k : nat) (n : nodeRef) :
  In n (level root k) -> exists u, subtree root (rev n) = Some u.
Proof.
  destruct k as [ | k]; simpl; intros H.
  - destruct H as [<- | []]. simpl. eauto.
  - apply in_flat_map in H. destruct H as (p & _ & Hn).
    eapply children_in_tree; eauto.
Qed.

Lemma level_beyond_height (root : tree) (k : nat) :
  (height root < k)%nat -> level root k = [].
Proof.
  intros Hk. destruct (level root k) as [ | n l] eqn:E; [ reflexivity | ].
  assert (Hin : In n (level root k)) by (rewrite E; left; reflexivity).
  pose proof (level_depth _ _ _ Hin) as Hd.
  destruct (level_in_tree _ _ _ Hin) as [u Hu].
  apply subtree_height in Hu. rewrite length_rev in Hu.
  unfold depth in Hd. lia.
Qed.

Lemma filter_depth_level (root : tree) (d k : nat) :
  filter (fun n => Nat.eqb (depth n) d) (level root k) =
    if Nat.eqb k d then level root k else [].
Proof.
  pose proof (level_depth root k) as H. revert H.
  generalize (level root k) as l. intros l H.
  destruct (Nat.eqb k d) eqn:E.
  - apply Nat.eqb_eq in E. subst d.
    induction l as [ | n l IH]; simpl; [ reflexivity | ].
    rewrite (H n (or_introl eq_refl)), Nat.eqb_refl.
    f_equal. apply IH. intros m Hm. apply H. right; exact Hm.
  - apply Nat.eqb_neq in E.
    induction l as [ | n l IH]; simpl; [ reflexivity | ].
    rewrite (H n (or_introl eq_refl)).
    destruct (Nat.eqb_spec k d); [ contradiction | ].
    apply IH. intros m Hm. apply H. right; exact Hm.
Qed.

Lemma filter_flat_map_level (root : tree) (d a len : nat) :
  filter (fun n => Nat.eqb (depth n) d)
         (flat_map (level root) (seq a len)) =
    if Nat.leb a d && Nat.ltb d (a + len) then level root d else [].
Proof.
  revert a. induction len as [ | len IH]; intros a.
  - cbn [seq flat_map filter].
    destruct (Nat.leb_spec a d), (Nat.ltb_spec d (a + 0)); simpl; auto; lia.
  - cbn [seq flat_map]. rewrite filter_app, filter_depth_level, IH.
    replace (S a + len)%nat with (a + S len)%nat by lia.
    destruct (Nat.eqb_spec a d) as [E | Hne];
      destruct (Nat.leb_spec (S a) d), (Nat.ltb_spec d (a + S len)),
        (Nat.leb_spec a d); try lia; cbn [andb app]; auto using app_nil_r.
  subst a. apply app_nil_r.
Qed.

Lemma depthTwoNodes_level (root : tree) :
  Calculations.depthTwoNodes root = level root 2.
Proof.
  unfold Calculations.depthTwoNodes, descendants.
  rewrite filter_flat_map_level.
  change (Nat.leb 0 2) with true. cbn [andb]. rewrite Nat.add_0_l.
  destruct (Nat.ltb_spec 2 (S (height root))) as [H | H]; [ reflexivity | ].
  symmetry. apply level_beyond_height. lia.
Qed.

Lemma level_two_grouped (root : tree) :
  level root 2 = flat_map (children root) (children root []).
Proof. simpl. rewrite app_nil_r. reflexivity. Qed.

End HierarchyFacts.

Section ProcessDepthNodes.

Open Scope R_scope.
Import Hierarchy Calculations.

Lemma set_x_same (x : angles) (n : nodeRef) (v : R) : set_x x n v n = v.
Proof. unfold set_x. rewrite same_refl. reflexivity. Qed.

Lemma set_x_other (x : angles) (n m : nodeRef) (v : R) :
  m <> n -> set_x x n v m = x m.
Proof.
  intros H. unfold set_x. apply same_false in H. rewrite H. reflexivity.
Qed.

Lemma forEach_indexed_angles (step : R) (l : list nodeRef) :
  NoDup l ->
  forall (k : nat) (x : angles),
    let x' := forEach_indexed
                (fun node i x => set_x x node (INR i * step)) l k x in
    (forall i n, nth_error l i = Some n -> x' n = INR (k + i) * step) /\
    (forall n, ~ In n l -> x' n = x n).
Proof.
  induction 1 as [ | a l Ha Hl IH]; intros k x; cbn zeta.
  - split; [ intros [ | i] n; discriminate | reflexivity ].
  - cbn [forEach_indexed].
    destruct (IH (S k) (set_x x a (INR k * step))) as [IHin IHout].
    cbn zeta in IHin, IHout. split.
    + intros [ | i] n Hn; simpl in Hn.
      * injection Hn as <-. rewrite IHout by exact Ha.
        rewrite set_x_same, Nat.add_0_r. reflexivity.
      * rewrite (IHin i n Hn). f_equal. f_equal. lia.
    + intros n Hn. rewrite IHout by (intros H; apply Hn; right; exact H).
      apply set_x_other. intros ->. apply Hn. left; reflexivity.
Qed.

(** The body of the loop over the depth-1 nodes. *)
Lemma place_parents (root : tree) (l : list nodeRef) :
  NoDup l -> (forall p, In p l -> depth p = 1%nat) ->
  forall x0 : angles,
    let xr :=
      fold_left
        (fun x node =>
           if Nat.ltb 0 (List.length (children root node)) then
             match calculateAverageAngle (map x (children root node)) with
             | Some avgAngle => set_x x node avgAngle
             | None => x
             end
           else x) l x0 in
    (forall n, ~ In n l -> xr n = x0 n) /\
    (forall p, In p l -> children root p <> [] ->
               calculateAverageAngle (map x0 (children root p)) = Some (xr p)).
Proof.
  induction 1 as [ | a l Ha Hl IH]; intros Hd x0; cbn zeta.
  - split; [ reflexivity | intros p [] ].
  - cbn [fold_left].
    set (x1 := if Nat.ltb 0 (List.length (children root a)) then
                 match calculateAverageAngle (map x0 (children root a)) with
                 | Some avgAngle => set_x x0 a avgAngle
                 | None => x0
                 end
               else x0).
    assert (Hx1 : forall n, n <> a -> x1 n = x0 n).
    { intros n Hn. unfold x1.
      destruct (Nat.ltb 0 (List.length (children root a))); [ | reflexivity ].
      destruct (calculateAverageAngle (map x0 (children root a)));
        [ apply set_x_other; exact Hn | reflexivity ]. }
    destruct (IH (fun p H => Hd p (or_intror H)) x1) as [IHout IHin].
    cbn zeta in IHout, IHin. split.
    + intros n Hn. rewrite IHout by (intros H; apply Hn; right; exact H).
      apply Hx1. intros ->. apply Hn. left; reflexivity.
    + intros p [<- | Hp] Hc.
      * rewrite IHout by exact Ha. unfold x1.
        destruct (children root a) as [ | c cs] eqn:Ec; [ congruence | ].
        cbn [List.length Nat.ltb Nat.leb].
        destruct (@calculateAverageAngle_defined (map x0 (c :: cs)))
          as [v Hv]; [ discriminate | ].
        rewrite Hv, set_x_same. reflexivity.
      * etransitivity; [ | exact (IHin p Hp Hc) ].
        f_equal. apply map_ext_in.
        intros c Hcin. symmetry. apply Hx1. intros ->.
        apply children_depth in Hcin.
        rewrite (Hd p (or_intror Hp)), (Hd a (or_introl eq_refl)) in Hcin.
        discriminate.
Qed.

(** What [processDepthNodes] computes when there are depth-2 nodes. *)
Lemma processDepthNodes_spec (root : tree) (x : angles) :
  let N := List.length (depthTwoNodes root) in
  let x' := processDepthNodes root x in
  (N >= 1)%nat ->
  depthTwoNodes root = flat_map (children root) (children root []) /\
  NoDup (depthTwoNodes root) /\
  (forall i node,
      nth_error (depthTwoNodes root) i = Some node ->
      x' node = INR i * (2 * PI / INR N) /\ 0 <= x' node < 2 * PI) /\
  (forall p,
      In p (children root []) -> children root p <> [] ->
      calculateAverageAngle (map x' (children root p)) = Some (x' p)).
Proof.
  intros N x' HN.
  assert (Hlvl : depthTwoNodes root = level root 2)
    by apply depthTwoNodes_level.
  assert (Hnd : NoDup (depthTwoNodes root))
    by (rewrite Hlvl; apply NoDup_level).
  assert (Hone : forall p, In p (children root []) -> depth p = 1%nat)
    by (intros p Hp; apply (children_depth _ _ _ Hp)).
  assert (Htwo : forall n, In n (depthTwoNodes root) -> depth n = 2%nat)
    by (intros n Hn; rewrite Hlvl in Hn; apply (level_depth _ _ _ Hn)).
  set (step := 2 * PI / INR N).
  set (x1 := forEach_indexed (fun node i x => set_x x node (INR i * step))
                             (depthTwoNodes root) 0 x).
  destruct (forEach_indexed_angles step Hnd 0 x) as [Hin _].
  cbn zeta in Hin. fold x1 in Hin.
  destruct (place_parents root (NoDup_children root []) Hone x1)
    as [Hout Havg].
  cbn zeta in Hout, Havg.
  assert (Hx' : x' = fold_left
        (fun x node =>
           if Nat.ltb 0 (List.length (children root node)) then
             match calculateAverageAngle (map x (children root node)) with
             | Some avgAngle => set_x x node avgAngle
             | None => x
             end
           else x) (children root []) x1).
  { unfold x', processDepthNodes. fold N.
    destruct (Nat.ltb_spec 0 N) as [_ | H]; [ reflexivity | lia ]. }
  rewrite <- Hx' in Hout, Havg.
  assert (Hkeep : forall n, depth n = 2%nat -> x' n = x1 n).
  { intros n Hn. apply Hout. intros H. apply Hone in H. congruence. }
  split; [ rewrite Hlvl; apply level_two_grouped | ].
  split; [ exact Hnd | ]. split.
  - intros i node Hi.
    assert (Hval : x' node = INR i * step).
    { rewrite Hkeep by (apply Htwo; eapply nth_error_In; exact Hi).
      rewrite (Hin i node Hi). reflexivity. }
    split; [ exact Hval | ]. rewrite Hval.
    assert (HiN : (i < N)%nat)
      by (apply nth_error_Some; unfold N; congruence).
    assert (HNpos : 0 < INR N) by (apply lt_0_INR; lia).
    assert (Hipos : 0 <= INR i) by apply pos_INR.
    assert (Hilt : INR i < INR N) by (apply lt_INR; exact HiN).
    pose proof PI_RGT_0 as Hpi.
    assert (Hfrac : 0 <= INR i / INR N < 1).
    { split.
      - apply Rmult_le_pos; [ exact Hipos | ].
        left. apply Rinv_0_lt_compat. exact HNpos.
      - apply (Rmult_lt_reg_r (INR N)); [ exact HNpos | ].
        unfold Rdiv. rewrite Rmult_assoc, Rinv_l by lra. lra. }
    replace (INR i * step) with (INR i / INR N * (2 * PI))
      by (unfold step; field; lra).
    split; nra.
  - intros p Hp Hc. etransitivity; [ | exact (Havg p Hp Hc) ]. f_equal.
    apply map_ext_in. intros c Hcin. apply Hkeep.
    rewrite (children_depth _ _ _ Hcin), (Hone p Hp). reflexivity.
Qed.





(** The layout scenario of the specification: the four secondary
    nodes get [0], [PI / 2], [PI] and [3 PI / 2]; the first primary
    node gets [PI / 2], the midpoint of its children's angles, and the
    second the angle of its only child. *)
Example scenario_angles :
  let x' := processDepthNodes scenario_tree (fun _ => 0) in
  x' [0; 0]%nat = 0 /\ x' [1; 0]%nat = PI / 2 /\
  x' [2; 0]%nat = PI /\ x' [0; 1]%nat = 3 * PI / 2 /\
  x' [0]%nat = PI / 2 /\ x' [1]%nat = 3 * PI / 2.
Proof.
  assert (H : (List.length (depthTwoNodes scenario_tree) >= 1)%nat)
    by (vm_compute; lia).
  destruct (processDepthNodes_spec scenario_tree (fun _ => 0) H)
    as (_ & _ & Hangle & Havg).
  cbn zeta.
  pose proof (proj1 (Hangle 0%nat [0; 0]%nat eq_refl)) as H0.
  pose proof (proj1 (Hangle 1%nat [1; 0]%nat eq_refl)) as H1.
  pose proof (proj1 (Hangle 2%nat [2; 0]%nat eq_refl)) as H2.
  pose proof (proj1 (Hangle 3%nat [0; 1]%nat eq_refl)) as H3.
  change (List.length (depthTwoNodes scenario_tree)) with 4%nat
    in H0, H1, H2, H3.
  simpl INR in H0, H1, H2, H3.
  assert (E0 : processDepthNodes scenario_tree (fun _ => 0) [0; 0]%nat = 0)
    by (rewrite H0; lra).
  assert (E1 : processDepthNodes scenario_tree (fun _ => 0) [1; 0]%nat = PI / 2)
    by (rewrite H1; lra).
  assert (E2 : processDepthNodes scenario_tree (fun _ => 0) [2; 0]%nat = PI)
    by (rewrite H2; lra).
  assert (E3 : processDepthNodes scenario_tree (fun _ => 0) [0; 1]%nat
               = 3 * PI / 2)
    by (rewrite H3; lra).
  pose proof PI_RGT_0 as Hpi.
  pose proof (Havg [0]%nat ltac:(vm_compute; auto) ltac:(vm_compute; discriminate))
    as HA.
  pose proof (Havg [1]%nat ltac:(vm_compute; auto) ltac:(vm_compute; discriminate))
    as HB.
  change (children scenario_tree [0]%nat)
    with [[0; 0]; [1; 0]; [2; 0]]%nat in HA.
  change (children scenario_tree [1]%nat) with [[0; 1]]%nat in HB.
  cbn [map] in HA, HB. rewrite E0, E1, E2 in HA. rewrite E3 in HB.
  unfold calculateAverageAngle in HA, HB. simpl in HA, HB.
  rewrite (Rmin_left 0 (PI / 2)), (Rmin_left 0 PI) in HA by lra.
  rewrite (Rmax_right 0 (PI / 2)), (Rmax_right (PI / 2) PI) in HA by lra.
  destruct (Rgt_dec (PI - 0) PI) as [Hc | _] in HA; [ lra | ].
  destruct (Rgt_dec (3 * PI / 2 - 3 * PI / 2) PI) as [Hc | _] in HB;
    [ lra | ].
  injection HA as HA. injection HB as HB.
  repeat split; try assumption; lra.
Qed.

End ProcessDepthNodes.

(* ================================================================== *)
(** ** Selection classification *)
(* ================================================================== *)

Section Classification.

Import Hierarchy.

Lemma eqb_depth_zero (n : nodeRef) : Nat.eqb (depth n) 0 = true <-> n = [].
Proof.
  destruct n as [ | k n]; simpl; split; congruence.
Qed.

(** C4, as the code has it: with a selection [sel], a node is active
    exactly when it is [sel], or the parent of [sel] (at whatever depth
    [sel] lies), or a depth-0 node; with no selection, exactly when its
    depth is 0. *)
Theorem isActiveNode_exact (node : nodeRef) :
  (forall sel : nodeRef,
      NodeManager.isActiveNode node (Some sel) = true <->
      (node = sel \/ parent sel = Some node \/ depth node = 0%nat)) /\
  (NodeManager.isActiveNode node None = true <-> depth node = 0%nat).
Proof.
  split.
  - intros sel. unfold NodeManager.isActiveNode.
    rewrite !orb_true_iff, andb_true_r, same_true, Nat.eqb_eq.
    destruct (parent sel) as [p | ] eqn:Ep.
    + rewrite same_true. split.
      * intros [[H | H] | H]; subst; auto.
      * intros [H | [H | H]]; [ auto | injection H as ->; auto | auto ].
    + split.
      * intros [[H | H] | H]; [ auto | discriminate | auto ].
      * intros [H | [H | H]]; [ auto | discriminate | auto ].
  - unfold NodeManager.isActiveNode. apply Nat.eqb_eq.
Qed.

(** C4, as the specification words it, fails: with the depth-2 node
    [[0; 0]] selected, its depth-1 parent [[0]] and the root [[]] are
    classified active although neither is the selection. *)
Lemma isActiveNode_depth2_parent_active :
  let sel := [0; 0]%nat in
  depth sel = 2%nat /\
  NodeManager.isActiveNode [0]%nat (Some sel) = true /\
  ~ NodeManager.active_per_spec [0]%nat (Some sel) /\
  NodeManager.isActiveNode [] (Some sel) = true /\
  ~ NodeManager.active_per_spec [] (Some sel).
Proof.
  cbn zeta. repeat split; try reflexivity.
  - intros [H | [H _]]; discriminate.
  - intros [H | [H _]]; discriminate.
Qed.

(** C5, as the code has it: for a depth-2 selection [sel] a link is
    active exactly when it ends at [sel], or starts at the parent of
    [sel] (whatever its target, the siblings of [sel] included), or goes
    from the grandparent of [sel] to its parent. *)
Theorem isActivePath_depth2_exact (l : link) (sel : nodeRef) :
  depth sel = 2%nat ->
  (PathManager.isActivePath (Some l) (Some sel) = true <->
   (target l = sel
    \/ parent sel = Some (source l)
    \/ (exists p, parent sel = Some p /\ target l = p
                  /\ parent p = Some (source l)))).
Proof.
  intros Hd. destruct sel as [ | i [ | j [ | k r]]]; try discriminate.
  destruct l as [s t]. unfold PathManager.isActivePath. cbn.
  rewrite !orb_true_iff, andb_true_iff, !same_true. split.
  - intros [[H | H] | [H1 H2]]; subst; auto.
    right; right. exists [j]. auto.
  - intros [H | [H | (p & Hp & Ht & Hs)]].
    + auto.
    + injection H as <-. auto.
    + injection Hp as <-. injection Hs as <-. auto.
Qed.

Lemma isActivePath_depth2_exact_witness :
  depth [0; 0]%nat = 2%nat /\
  PathManager.isActivePath (Some (Link [] [0]%nat)) (Some [0; 0]%nat) = true.
Proof.
  split; [ reflexivity | ].
  apply (proj2 (@isActivePath_depth2_exact (Link [] [0]%nat) [0; 0]%nat
                  eq_refl)).
  right; right. exists [0]%nat. repeat split.
Defined.

(** C5, as the specification words it, fails: with the depth-2 node
    [[0; 0]] selected, the link from its parent [[0]] to its sibling
    [[1; 0]] is classified active. *)
Lemma isActivePath_sibling_link_active :
  let sel := [0; 0]%nat in
  let l := Link [0]%nat [1; 0]%nat in
  depth sel = 2%nat /\
  parent sel = Some (source l) /\ parent (target l) = parent sel /\
  target l <> sel /\
  PathManager.isActivePath (Some l) (Some sel) = true /\
  ~ PathManager.active_per_spec l sel.
Proof.
  cbn zeta. repeat split; try reflexivity; try discriminate.
  intros [H | [[_ H] | (p & Hp & Ht & _)]]; try discriminate.
  injection Hp as <-. discriminate.
Qed.

End Classification.

(* ================================================================== *)
(** ** Click handling *)
(* ================================================================== *)

Section NodeClick.

Import Hierarchy.

(** C3, evaluated on the code: [handleNodeClick] returns the state
    manager unchanged for every event and every state, because the
    member [isTransitioning] it tests is the method itself and so is
    always truthy.  A click in the idle state therefore neither sets
    the selection nor raises [isTransitioning]. *)
Theorem handleNodeClick_never_selects
    (node : option nodeRef) (sm : StateManager.t) :
  CircularNavManager.handleNodeClick node sm = sm.
Proof.
  unfold CircularNavManager.handleNodeClick.
  unfold StateManager.read_isTransitioning. simpl JsValue.truthy.
  rewrite orb_true_r. reflexivity.
Qed.

(** The idle click of the claim: the state is idle, a node is clicked,
    and afterwards nothing is selected and no transition has begun,
    where the update the handler was written to make would have
    selected the node and raised the flag. *)
Example handleNodeClick_idle_click :
  let sm' := CircularNavManager.handleNodeClick (Some [0]%nat)
               StateManager.initial in
  StateManager.call_isTransitioning StateManager.initial = false /\
  StateManager.selectedNode (StateManager.state sm') = None /\
  StateManager.isTransitioning (StateManager.state sm') = false /\
  StateManager.selectedNode
    (StateManager.state
       (StateManager.updateState_select [0]%nat StateManager.initial))
    = Some [0]%nat /\
  StateManager.isTransitioning
    (StateManager.state
       (StateManager.updateState_select [0]%nat StateManager.initial))
    = true.
Proof. cbn zeta. repeat split. Qed.

End NodeClick.

(* ================================================================== *)
(** ** Resize handling *)
(* ================================================================== *)

Section Resize.

Open Scope R_scope.
Import Config DisplayManager.

Lemma calculateWidth_nonneg (config : Config.t) (vp : Viewport) :
  0 <= width (rect vp) -> 0 <= innerWidth vp ->
  0 <= calculateWidth config vp.
Proof.
  intros Hw Hi. unfold calculateWidth. apply Rmin_glb.
  - eapply Rle_trans; [ exact Hw | apply Rmax_l ].
  - nra.
Qed.

Lemma calculateHeight_nonneg (config : Config.t) (vp : Viewport) :
  0 <= height (rect vp) -> 0 <= innerHeight vp ->
  0 <= calculateHeight config vp.
Proof.
  intros Hw Hi. unfold calculateHeight. apply Rmin_glb.
  - eapply Rle_trans; [ exact Hw | apply Rmax_l ].
  - nra.
Qed.

Lemma handleResize_no_update
    (config : Config.t) (vp : Viewport) (dm : DisplayManager.t) :
  0 <= width (rect vp) -> 0 <= height (rect vp) ->
  0 <= innerWidth vp -> 0 <= innerHeight vp ->
  snd (handleResize config vp dm) = None.
Proof.
  intros Hw Hh Hiw Hih.
  pose proof (calculateWidth_nonneg config vp Hw Hiw) as HW.
  pose proof (calculateHeight_nonneg config vp Hh Hih) as HH.
  unfold handleResize, calculateDimensions, hasSignificantChanges.
  cbn [lastDimensions dim_width dim_height].
  rewrite !Rminus_diag, Rabs_R0.
  destruct (Rgt_dec 0 (calculateWidth config vp * (1 / 100))); [ lra | ].
  destruct (Rgt_dec 0 (calculateHeight config vp * (1 / 100))); [ lra | ].
  reflexivity.
Qed.

Lemma width_of_viewport (w : R) :
  800 <= w <= 1296 ->
  calculateWidth DEFAULT_CONFIG (viewport_of_width w) = w.
Proof.
  intros H. unfold calculateWidth, viewport_of_width, DEFAULT_CONFIG.
  cbn [rect width innerWidth dimensions_min].
  rewrite Rmax_left by lra. apply Rmin_left. lra.
Qed.

Lemma height_of_viewport (w : R) :
  calculateHeight DEFAULT_CONFIG (viewport_of_width w) = 700.
Proof.
  unfold calculateHeight, viewport_of_width, DEFAULT_CONFIG.
  cbn [rect height innerHeight dimensions_min].
  rewrite Rmax_left by lra. apply Rmin_left. lra.
Qed.

(** [CircularNavManager.handleResize] always makes the call: its guard
    reads a property the StateManager does not have. *)
Lemma handleResize_always_updates (config : Config.t) (vp : Viewport)
    (sm : StateManager.t) (dm : DisplayManager.t) :
  WindowResize.handleResize config vp sm dm
    = (snd (calculateDimensions config vp dm),
       Some (fst (calculateDimensions config vp dm))).
Proof. reflexivity. Qed.

(** What a resize event does, whichever quiet period ends first. *)
Lemma resize_event_calls (config : Config.t) (vp : Viewport)
    (displayFirst : bool) (sm : StateManager.t) (dm : DisplayManager.t) :
  0 <= width (rect vp) -> 0 <= height (rect vp) ->
  0 <= innerWidth vp -> 0 <= innerHeight vp ->
  snd (WindowResize.resize_event config vp displayFirst sm dm)
    = [fst (calculateDimensions config vp dm)].
Proof.
  intros Hw Hh Hiw Hih. unfold WindowResize.resize_event.
  destruct displayFirst.
  - pose proof (@handleResize_no_update config vp dm Hw Hh Hiw Hih) as Hno.
    destruct (handleResize config vp dm) as [dm1 u1]. cbn [snd] in Hno.
    subst u1. rewrite handleResize_always_updates. reflexivity.
  - rewrite handleResize_always_updates.
    pose proof (@handleResize_no_update config vp
                  (snd (calculateDimensions config vp dm)) Hw Hh Hiw Hih)
      as Hno.
    destruct (handleResize config vp (snd (calculateDimensions config vp dm)))
      as [dm2 u2]. cbn [snd] in Hno. subst u2. reflexivity.
Qed.

(** C9, evaluated on the code: every resize event re-lays out, once,
    whatever the change of size.  The window has two listeners.
    [DisplayManager.handleResize], which holds the one-percent test,
    never calls [viz.update]: [calculateDimensions] has already stored
    the new dimensions in [lastDimensions] when
    [hasSignificantChanges] compares against it, so the difference is
    always zero.  [CircularNavManager.handleResize] calls [viz.update]
    with no test of the change. *)
Theorem resize_always_updates
    (config : Config.t) (vp : Viewport) (displayFirst : bool)
    (sm : StateManager.t) (dm : DisplayManager.t) :
  0 <= width (rect vp) -> 0 <= height (rect vp) ->
  0 <= innerWidth vp -> 0 <= innerHeight vp ->
  snd (handleResize config vp dm) = None /\
  snd (WindowResize.handleResize config vp sm dm)
    = Some (fst (calculateDimensions config vp dm)) /\
  snd (WindowResize.resize_event config vp displayFirst sm dm)
    = [fst (calculateDimensions config vp dm)].
Proof.
  intros Hw Hh Hiw Hih.
  split; [ exact (@handleResize_no_update config vp dm Hw Hh Hiw Hih) | ].
  split; [ reflexivity | ].
  exact (@resize_event_calls config vp displayFirst sm dm Hw Hh Hiw Hih).
Qed.

(** The resize of the specification's scenario that is to be ignored:
    the display was set up at a width of 1000 pixels, the container is
    now 1005 pixels wide, neither the width nor the height has changed
    by more than one percent, and the event re-lays out. *)
Lemma resize_always_updates_witness :
  let dm := setup DEFAULT_CONFIG (viewport_of_width 1000)
              {| currentProfile := None; lastDimensions := None |} in
  let vp := viewport_of_width 1005 in
  let new := fst (calculateDimensions DEFAULT_CONFIG vp dm) in
  (exists last,
      lastDimensions dm = Some last /\
      dim_width last = 1000 /\ dim_width new = 1005 /\
      ~ significant_per_spec last new) /\
  snd (WindowResize.resize_event DEFAULT_CONFIG vp true
         StateManager.initial dm) = [new].
Proof.
  cbn zeta. split.
  - eexists. split; [ reflexivity | ].
    cbn [dim_width fst calculateDimensions].
    rewrite !width_of_viewport by lra.
    split; [ reflexivity | ]. split; [ reflexivity | ].
    unfold significant_per_spec. cbn [dim_width dim_height].
    rewrite ?width_of_viewport by lra. rewrite !height_of_viewport.
    replace (1005 - 1000) with 5 by lra.
    replace (700 - 700) with 0 by lra.
    rewrite Rabs_R0, Rabs_pos_eq by lra.
    intros [H | H]; lra.
  - refine (proj2 (proj2 (@resize_always_updates DEFAULT_CONFIG
                            (viewport_of_width 1005) true StateManager.initial
                            (setup DEFAULT_CONFIG (viewport_of_width 1000)
                               {| currentProfile := None;
                                  lastDimensions := None |})
                            _ _ _ _)));
      unfold viewport_of_width; cbn [rect width height innerWidth innerHeight];
      lra.
Defined.

(** The other resize of the scenario: from 1000 to 1050 pixels the
    change exceeds one percent, and the handler that tests for it
    makes no call. *)
Example resize_1000_to_1050 :
  let dm := setup DEFAULT_CONFIG (viewport_of_width 1000)
              {| currentProfile := None; lastDimensions := None |} in
  let vp := viewport_of_width 1050 in
  (exists last,
      lastDimensions dm = Some last /\ dim_width last = 1000 /\
      dim_width (fst (calculateDimensions DEFAULT_CONFIG vp dm)) = 1050 /\
      significant_per_spec last
        (fst (calculateDimensions DEFAULT_CONFIG vp dm))) /\
  snd (handleResize DEFAULT_CONFIG vp dm) = None.
Proof.
  cbn zeta. split.
  2: { apply handleResize_no_update;
         unfold viewport_of_width;
         cbn [rect width height innerWidth innerHeight]; lra. }
  eexists. split; [ reflexivity | ].
  cbn [dim_width fst calculateDimensions].
  rewrite !width_of_viewport by lra.
  split; [ reflexivity | ]. split; [ reflexivity | ].
  left. cbn [dim_width].
  replace (1050 - 1000) with 50 by lra.
  rewrite Rabs_pos_eq by lra. lra.
Qed.

End Resize.

(* ================================================================== *)
(** ** Map and set containers *)
(* ================================================================== *)

Section Containers.

Variable V : Type.

Lemma get_set_same (k : string) (v : V) (m : JsMap.t V) :
  JsMap.get k (JsMap.set k v m) = Some v.
Proof.
  induction m as [ | [k' v'] m IH]; simpl.
  - rewrite String.eqb_refl. reflexivity.
  - destruct (String.eqb k' k) eqn:E; simpl.
    + rewrite String.eqb_refl. reflexivity.
    + rewrite E. exact IH.
Qed.

Lemma get_set_other (k k' : string) (v : V) (m : JsMap.t V) :
  k' <> k -> JsMap.get k' (JsMap.set k v m) = JsMap.get k' m.
Proof.
  intros Hne. induction m as [ | [k0 v0] m IH]; simpl.
  - destruct (String.eqb_spec k k'); congruence.
  - destruct (String.eqb_spec k0 k) as [-> | Hk]; simpl.
    + destruct (String.eqb_spec k k'); congruence.
    + rewrite IH. reflexivity.
Qed.

Lemma get_in_keys (k : string) (m : JsMap.t V) (v : V) :
  JsMap.get k m = Some v -> In k (JsMap.keys m).
Proof.
  induction m as [ | [k' v'] m IH]; simpl; [ discriminate | ].
  destruct (String.eqb_spec k' k); auto.
Qed.

Lemma get_not_in_keys (k : string) (m : JsMap.t V) :
  JsMap.get k m = None -> ~ In k (JsMap.keys m).
Proof.
  induction m as [ | [k' v'] m IH]; simpl; [ tauto | ].
  destruct (String.eqb_spec k' k); [ discriminate | ].
  intros H [E | Hin]; [ contradiction | exact (IH H Hin) ].
Qed.

Lemma keys_set_present (k : string) (v v' : V) (m : JsMap.t V) :
  JsMap.get k m = Some v' -> JsMap.keys (JsMap.set k v m) = JsMap.keys m.
Proof.
  induction m as [ | [k0 v0] m IH]; simpl; [ discriminate | ].
  destruct (String.eqb_spec k0 k) as [-> | Hk]; simpl; [ reflexivity | ].
  intros H. f_equal. exact (IH H).
Qed.

Lemma keys_set_absent (k : string) (v : V) (m : JsMap.t V) :
  JsMap.get k m = None ->
  JsMap.keys (JsMap.set k v m) = JsMap.keys m ++ [k].
Proof.
  induction m as [ | [k0 v0] m IH]; simpl; [ reflexivity | ].
  destruct (String.eqb_spec k0 k) as [-> | Hk]; simpl; [ discriminate | ].
  intros H. f_equal. exact (IH H).
Qed.

Lemma NoDup_keys_set (k : string) (v : V) (m : JsMap.t V) :
  NoDup (JsMap.keys m) -> NoDup (JsMap.keys (JsMap.set k v m)).
Proof.
  intros H. destruct (JsMap.get k m) as [v' | ] eqn:E.
  - rewrite (keys_set_present _ _ _ E). exact H.
  - rewrite (keys_set_absent _ _ _ E).
    apply NoDup_app; [ exact H | constructor; [ intros [] | constructor ] | ].
    intros a Ha [<- | []]. exact (get_not_in_keys _ _ E Ha).
Qed.

Lemma filter_filter (A : Type) (f g : A -> bool) (l : list A) :
  filter f (filter g l) = filter (fun x => g x && f x) l.
Proof.
  induction l as [ | a l IH]; simpl; [ reflexivity | ].
  destruct (g a); simpl; [ destruct (f a) | ]; rewrite IH; reflexivity.
Qed.

Lemma Permutation_filter (A : Type) (f : A -> bool) (l l' : list A) :
  Permutation l l' -> Permutation (filter f l) (filter f l').
Proof.
  induction 1 as [ | a l l' H IH | a b l | l l' l'' H1 IH1 H2 IH2]; simpl.
  - constructor.
  - destruct (f a); [ constructor | ]; exact IH.
  - destruct (f a), (f b); try reflexivity. constructor.
  - etransitivity; eassumption.
Qed.

Lemma NoDup_keys_filter (f : string * V -> bool) (m : JsMap.t V) :
  NoDup (JsMap.keys m) -> NoDup (JsMap.keys (filter f m)).
Proof.
  induction m as [ | e m IH]; simpl; intros H; [ constructor | ].
  inversion H as [ | ? ? Hin Hnd]; subst.
  destruct (f e); simpl; [ | auto ].
  constructor; [ | auto ].
  intros Hk. apply Hin. unfold JsMap.keys in *.
  apply in_map_iff in Hk. destruct Hk as (x & Hx & Hxin).
  apply filter_In in Hxin. apply in_map_iff. exists x. tauto.
Qed.

End Containers.

(* ================================================================== *)
(** ** Cache eviction *)
(* ================================================================== *)

Section Eviction.

Open Scope Z_scope.
Import CacheManager.

Variable Content : Type.
Variable estimateSize : Content -> Z.
Variable config : Config.t.

Lemma insert_entry_perm (e : string * Entry Content) (l : list (string * Entry Content)) :
  Permutation (insert_entry e l) (e :: l).
Proof.
  induction l as [ | e' l IH]; simpl; [ reflexivity | ].
  destruct (lastAccessed (snd e) - lastAccessed (snd e') <=? 0);
    [ reflexivity | ].
  etransitivity; [ apply perm_skip; exact IH | apply perm_swap ].
Qed.

Lemma sort_entries_perm (l : list (string * Entry Content)) : Permutation (sort_entries l) l.
Proof.
  induction l as [ | e l IH]; simpl; [ constructor | ].
  etransitivity; [ apply insert_entry_perm | apply perm_skip; exact IH ].
Qed.

Lemma insert_entry_sorted (e : string * Entry Content) (l : list (string * Entry Content)) :
  StronglySorted (@older Content) l -> StronglySorted (@older Content) (insert_entry e l).
Proof.
  induction 1 as [ | e' l Hl IH Hall]; simpl.
  - constructor; constructor.
  - destruct (Z.leb_spec (lastAccessed (snd e) - lastAccessed (snd e')) 0)
      as [Hle | Hgt].
    + constructor; [ constructor; assumption | ].
      constructor; [ unfold older; lia | ].
      eapply Forall_impl; [ | exact Hall ].
      intros x Hx. unfold older in *. lia.
    + constructor; [ exact IH | ].
      eapply Permutation_Forall;
        [ symmetry; apply insert_entry_perm | ].
      constructor; [ unfold older; lia | exact Hall ].
Qed.

Lemma sort_entries_sorted (l : list (string * Entry Content)) :
  StronglySorted (@older Content) (sort_entries l).
Proof.
  induction l as [ | e l IH]; simpl; [ constructor | ].
  apply insert_entry_sorted; exact IH.
Qed.

Lemma sorted_app_older (l1 l2 : list (string * Entry Content)) :
  StronglySorted (@older Content) (l1 ++ l2) ->
  forall a b, In a l1 -> In b l2 -> older a b.
Proof.
  induction l1 as [ | x l1 IH]; simpl; intros H a b Ha Hb; [ contradiction | ].
  inversion H as [ | ? ? Hs Hall]; subst.
  destruct Ha as [<- | Ha].
  - rewrite Forall_forall in Hall. apply Hall. apply in_or_app; auto.
  - eapply IH; eauto.
Qed.

Lemma with_cache_same (m : t Content) : with_cache (cache m) m = m.
Proof. destruct m; reflexivity. Qed.

Lemma delete_keys (rm : list (string * Entry Content)) (m : t Content) :
  fold_left (fun m e => with_cache (JsMap.delete (fst e) (cache m)) m) rm m
  = with_cache (filter (survives rm) (cache m)) m.
Proof.
  revert m. induction rm as [ | e rm IH]; intros m; simpl.
  - unfold survives; simpl. rewrite filter_true. symmetry.
    apply with_cache_same.
  - rewrite IH. unfold with_cache; simpl. f_equal.
    unfold JsMap.delete. rewrite filter_filter. apply filter_ext.
    intros x. unfold survives. simpl. rewrite negb_orb.
    rewrite (String.eqb_sym (fst x) (fst e)). reflexivity.
Qed.

Lemma survives_removed (rm kept : list (string * Entry Content)) :
  NoDup (JsMap.keys (rm ++ kept)) ->
  filter (survives rm) (rm ++ kept) = kept.
Proof.
  intros Hnd. rewrite filter_app.
  assert (H1 : filter (survives rm) rm = []).
  { assert (G : forall l, (forall x, In x l -> In (fst x) (JsMap.keys rm)) ->
                          filter (survives rm) l = []).
    { induction l as [ | x l IHl]; simpl; intros Hall; [ reflexivity | ].
      unfold survives at 1.
      assert (Hx : existsb (String.eqb (fst x)) (JsMap.keys rm) = true).
      { apply existsb_exists. exists (fst x). split.
        - apply Hall. left; reflexivity.
        - apply String.eqb_refl. }
      rewrite Hx. simpl. apply IHl. intros y Hy. apply Hall. right; exact Hy. }
    apply G. intros x Hx. unfold JsMap.keys. apply in_map. exact Hx. }
  rewrite H1. simpl. apply forallb_filter_id. apply forallb_forall.
  intros x Hx. unfold survives. apply negb_true_iff.
  destruct (existsb (String.eqb (fst x)) (JsMap.keys rm)) eqn:E;
    [ | reflexivity ].
  apply existsb_exists in E. destruct E as (k & Hk & Ek).
  apply String.eqb_eq in Ek. subst k. exfalso.
  unfold JsMap.keys in Hnd. rewrite map_app in Hnd.
  revert Hnd Hk. unfold JsMap.keys.
  generalize (map fst rm) as ks. intros ks Hnd Hk.
  induction ks as [ | k ks IHks]; simpl in *; [ contradiction | ].
  inversion Hnd as [ | ? ? Hnin Hnd']; subst.
  destruct Hk as [-> | Hk]; [ | auto ].
  apply Hnin. apply in_or_app. right. apply in_map. exact Hx.
Qed.

(** What [cleanup] does to a cache that is a proper map and holds more
    than the maximum. *)
Lemma cleanup_over (now : Z) (m : t Content) :
  0 <= Config.cache_maxSize config ->
  NoDup (JsMap.keys (cache m)) ->
  Config.cache_maxSize config < JsMap.size (cache m) ->
  let n := Z.to_nat (JsMap.size (cache m) - Config.cache_maxSize config) in
  let removed := firstn n (sort_entries (cache m)) in
  cache (cleanup config now m) = filter (survives removed) (cache m) /\
  Permutation (cache (cleanup config now m))
              (skipn n (sort_entries (cache m))) /\
  JsMap.size (cache (cleanup config now m)) = Config.cache_maxSize config.
Proof.
  intros Hmax Hnd Hover n removed.
  assert (Hcache : cache (cleanup config now m)
                   = filter (survives removed) (cache m)).
  { unfold cleanup.
    destruct (Z.leb_spec (JsMap.size (cache m)) (Config.cache_maxSize config));
      [ lia | ].
    unfold slice0.
    destruct (Z.ltb_spec
                (JsMap.size (cache m) - Config.cache_maxSize config) 0);
      [ lia | ].
    rewrite delete_keys. reflexivity. }
  assert (Hperm : Permutation (filter (survives removed) (cache m))
                              (skipn n (sort_entries (cache m)))).
  { etransitivity.
    - apply Permutation_filter. symmetry. apply sort_entries_perm.
    - rewrite <- (firstn_skipn n (sort_entries (cache m))) at 1.
      fold removed. rewrite survives_removed; [ reflexivity | ].
      unfold removed. rewrite firstn_skipn.
      eapply Permutation_NoDup; [ | exact Hnd ].
      unfold JsMap.keys. apply Permutation_map. symmetry.
      apply sort_entries_perm. }
  split; [ exact Hcache | ]. rewrite Hcache.
  split; [ exact Hperm | ].
  unfold JsMap.size. rewrite (Permutation_length Hperm), length_skipn.
  rewrite (Permutation_length (sort_entries_perm (cache m))).
  unfold n, JsMap.size in *. lia.
Qed.

(** The effect of [cleanup] on any cache that is a proper map. *)
Lemma cleanup_lru (now : Z) (m : t Content) :
  0 <= Config.cache_maxSize config ->
  NoDup (JsMap.keys (cache m)) ->
  let m' := cleanup config now m in
  JsMap.size (cache m') <= Config.cache_maxSize config /\
  NoDup (JsMap.keys (cache m')) /\
  exists removed,
    Permutation (cache m) (removed ++ cache m') /\
    cache m' = filter (survives removed) (cache m) /\
    Z.of_nat (List.length removed)
      = Z.max 0 (JsMap.size (cache m) - Config.cache_maxSize config) /\
    (forall r k, In r removed -> In k (cache m') ->
                 lastAccessed (snd r) <= lastAccessed (snd k)).
Proof.
  intros Hmax Hnd m'.
  destruct (Z.leb_spec (JsMap.size (cache m)) (Config.cache_maxSize config))
    as [Hle | Hover].
  - assert (Hm' : m' = m).
    { unfold m', cleanup.
      destruct (Z.leb_spec (JsMap.size (cache m))
                           (Config.cache_maxSize config)); [ reflexivity | lia ]. }
    rewrite Hm'. split; [ exact Hle | ]. split; [ exact Hnd | ].
    exists []. simpl. repeat split.
    + reflexivity.
    + unfold survives; simpl. symmetry. apply filter_true.
    + lia.
    + intros r k [].
  - destruct (cleanup_over now m Hmax Hnd Hover) as (Hcache & Hperm & Hsize).
    cbn zeta in Hcache, Hperm. fold m' in Hcache, Hperm, Hsize.
    set (n := Z.to_nat (JsMap.size (cache m) - Config.cache_maxSize config))
      in *.
    split; [ lia | ].
    split; [ rewrite Hcache; apply NoDup_keys_filter; exact Hnd | ].
    exists (firstn n (sort_entries (cache m))). repeat split.
    + etransitivity; [ symmetry; apply sort_entries_perm | ].
      rewrite <- (firstn_skipn n (sort_entries (cache m))) at 1.
      apply Permutation_app_head. symmetry. exact Hperm.
    + exact Hcache.
    + rewrite length_firstn.
      rewrite (Permutation_length (sort_entries_perm (cache m))).
      unfold n, JsMap.size in *. lia.
    + intros r k Hr Hk.
      apply (@sorted_app_older (firstn n (sort_entries (cache m)))
                               (skipn n (sort_entries (cache m)))).
      * rewrite firstn_skipn. apply sort_entries_sorted.
      * exact Hr.
      * eapply Permutation_in; [ exact Hperm | exact Hk ].
Qed.

Lemma set_invariant (now : Z) (id : string) (c : Content) (m : t Content) :
  0 <= Config.cache_maxSize config ->
  NoDup (JsMap.keys (cache m)) ->
  NoDup (JsMap.keys (cache (set estimateSize config now id c m))) /\
  JsMap.size (cache (set estimateSize config now id c m))
    <= Config.cache_maxSize config.
Proof.
  intros Hmax Hnd. unfold set.
  match goal with
  | |- context [shouldCleanup ?cfg ?n ?m2] => set (mid := m2)
  end.
  assert (Hmid : NoDup (JsMap.keys (cache mid)))
    by (apply NoDup_keys_set; exact Hnd).
  destruct (shouldCleanup config now mid) eqn:Es.
  - destruct (cleanup_lru now mid Hmax Hmid) as (Hs & Hn & _).
    split; assumption.
  - split; [ exact Hmid | ].
    unfold shouldCleanup in Es. apply orb_false_iff in Es.
    destruct Es as [Es _]. rewrite Z.gtb_ltb in Es.
    destruct (Z.ltb_spec (Config.cache_maxSize config) (JsMap.size (cache mid)));
      [ discriminate | lia ].
Qed.

Lemma set_all_invariant (calls : list (Z * string * Content))
    (m : t Content) :
  0 <= Config.cache_maxSize config ->
  NoDup (JsMap.keys (cache m)) ->
  JsMap.size (cache m) <= Config.cache_maxSize config ->
  NoDup (JsMap.keys (cache (set_all estimateSize config calls m))) /\
  JsMap.size (cache (set_all estimateSize config calls m))
    <= Config.cache_maxSize config.
Proof.
  intros Hmax. revert m.
  induction calls as [ | [[now id] c] calls IH]; intros m Hnd Hsz; simpl.
  - split; assumption.
  - destruct (set_invariant now id c m Hmax Hnd) as [H1 H2].
    apply IH; assumption.
Qed.

(** C6: with a non-negative configured maximum, any sequence of [set]
    calls on a fresh cache leaves a proper map of at most the maximum
    number of entries (each [set] runs [cleanup] as soon as the count
    exceeds it); and [cleanup], on any proper map, leaves at most the
    maximum, removes exactly [max 0 (count - maximum)] entries, keeps
    the others in their order, and every removed entry was last
    accessed no later than every kept one. *)
Theorem cleanup_evicts_least_recently_used :
  0 <= Config.cache_maxSize config ->
  (forall (calls : list (Z * string * Content)) (t0 : Z),
      let m := set_all estimateSize config calls (create Content t0) in
      NoDup (JsMap.keys (cache m)) /\
      JsMap.size (cache m) <= Config.cache_maxSize config) /\
  (forall (m : t Content) (now : Z),
      NoDup (JsMap.keys (cache m)) ->
      let m' := cleanup config now m in
      JsMap.size (cache m') <= Config.cache_maxSize config /\
      exists removed,
        Permutation (cache m) (removed ++ cache m') /\
        cache m' = filter (survives removed) (cache m) /\
        Z.of_nat (List.length removed)
          = Z.max 0 (JsMap.size (cache m) - Config.cache_maxSize config) /\
        (forall r k, In r removed -> In k (cache m') ->
                     lastAccessed (snd r) <= lastAccessed (snd k))).
Proof.
  intros Hmax. split.
  - intros calls t0. apply set_all_invariant.
    + exact Hmax.
    + constructor.
    + simpl. exact Hmax.
  - intros m now Hnd.
    destruct (cleanup_lru now m Hmax Hnd) as (Hs & _ & Hex).
    split; assumption.
Qed.

End Eviction.

Section EvictionScenario.

Open Scope Z_scope.
Import CacheManager.

Lemma cleanup_evicts_least_recently_used_witness :
  0 <= Config.cache_maxSize small_config /\
  JsMap.size
    (cache (set_all markup_size small_config
              [(0, "a", "A"); (1, "b", "B"); (3, "c", "C")]
              (create string 0)))
    <= Config.cache_maxSize small_config.
Proof.
  assert (H : 0 <= Config.cache_maxSize small_config) by (simpl; lia).
  split; [ exact H | ].
  exact (proj2 (proj1 (cleanup_evicts_least_recently_used
                         markup_size small_config H)
                  [(0, "a", "A"); (1, "b", "B"); (3, "c", "C")] 0)).
Defined.

(** The eviction scenario of the specification: capacity 2, [a] stored
    at time 0, [b] at time 1, [a] read at time 2, [c] stored at time 3;
    [b] is evicted and [a], [c] remain. *)
Example eviction_scenario :
  let w0 := {| mgr := set_all markup_size small_config
                        [(0, "a", "A"); (1, "b", "B")] (create string 0);
               fetches := []; drain := None |} in
  let '(r, w1) := get_call 2 "a" w0 in
  let m := set markup_size small_config 3 "c" "C" (mgr w1) in
  r = Hit "A" /\ JsMap.keys (cache m) = ["a"; "c"].
Proof. cbn zeta. split; reflexivity. Qed.

End EvictionScenario.

(* ================================================================== *)
(** ** The cache under interleaved calls *)
(* ================================================================== *)

Section CacheSteps.

Open Scope Z_scope.
Import CacheManager.

Variable Content : Type.
Variable estimateSize : Content -> Z.
Variable config : Config.t.

(** [set] and [cleanup] touch the cache and the statistics only. *)
Lemma cleanup_frame (now : Z) (m : t Content) :
  preloadQueue (cleanup config now m) = preloadQueue m /\
  isLoading (cleanup config now m) = isLoading m /\
  loadingPromises (cleanup config now m) = loadingPromises m.
Proof.
  unfold cleanup.
  destruct (JsMap.size (cache m) <=? Config.cache_maxSize config); [ auto | ].
  rewrite delete_keys. simpl. auto.
Qed.

Lemma set_frame (now : Z) (id : string) (c : Content) (m : t Content) :
  preloadQueue (set estimateSize config now id c m) = preloadQueue m /\
  isLoading (set estimateSize config now id c m) = isLoading m /\
  loadingPromises (set estimateSize config now id c m) = loadingPromises m.
Proof.
  unfold set.
  match goal with
  | |- context [shouldCleanup ?cfg ?n ?m2] =>
      destruct (shouldCleanup cfg n m2); [ | simpl; auto ];
      destruct (cleanup_frame now m2) as (-> & -> & ->); simpl; auto
  end.
Qed.

Lemma set_result_frame (now : Z) (id : string) (r : option Content)
    (m : t Content) :
  let m1 := match r with
            | Some c => set estimateSize config now id c m
            | None => m
            end in
  preloadQueue m1 = preloadQueue m /\ isLoading m1 = isLoading m /\
  loadingPromises m1 = loadingPromises m.
Proof.
  destruct r as [c | ]; cbn zeta; [ apply set_frame | auto ].
Qed.

Lemma start_round_frame (ids : list string) (w : World Content) :
  mgr (snd (start_round ids w)) = mgr w /\
  drain (snd (start_round ids w)) = drain w.
Proof.
  revert w. induction ids as [ | id ids IH]; intros w; simpl; [ auto | ].
  destruct (start_round ids
              {| mgr := mgr w;
                 fetches := fetches w ++
                   [ {| f_id := id; f_origin := ByPreload;
                        f_pending := true |} ];
                 drain := drain w |}) as [ps w2] eqn:E.
  simpl. pose proof (IH {| mgr := mgr w;
                 fetches := fetches w ++
                   [ {| f_id := id; f_origin := ByPreload;
                        f_pending := true |} ];
                 drain := drain w |}) as H.
  rewrite E in H. exact H.
Qed.

Lemma loop_test_running (b : JsSet.t) (w : World Content) :
  b <> [] ->
  exists d, drain (loop_test b w) = Some d /\ batch d = b /\
            mgr (loop_test b w) = mgr w.
Proof.
  intros Hb. unfold loop_test.
  assert (Hsz : (JsSet.size b >? 0) = true).
  { destruct b as [ | x b]; [ congruence | ]. unfold JsSet.size.
    apply Z.gtb_lt. simpl List.length. lia. }
  rewrite Hsz.
  destruct (start_round b w) as [ps w1] eqn:E.
  pose proof (start_round_frame b w) as [Hm _]. rewrite E in Hm.
  simpl in *. eauto.
Qed.

Lemma get_call_frame (now : Z) (id : string) (w : World Content) :
  drain (snd (get_call now id w)) = drain w /\
  isLoading (mgr (snd (get_call now id w))) = isLoading (mgr w) /\
  preloadQueue (mgr (snd (get_call now id w))) = preloadQueue (mgr w).
Proof.
  unfold get_call.
  destruct (JsMap.get id (loadingPromises (mgr w))); [ auto | ].
  destruct (JsMap.get id (cache (mgr w))); simpl; auto.
Qed.

Lemma preload_enqueue_frame (ids : list string) (m : t Content) :
  isLoading
    (fold_left
       (fun m id =>
          if negb (JsMap.has id (cache m))
             && negb (JsSet.has id (preloadQueue m))
          then with_preloadQueue (JsSet.add id (preloadQueue m)) m
          else m) ids m) = isLoading m.
Proof.
  revert m. induction ids as [ | id ids IH]; intros m; simpl; [ reflexivity | ].
  rewrite IH.
  destruct (negb (JsMap.has id (cache m))
            && negb (JsSet.has id (preloadQueue m))); reflexivity.
Qed.

(** One event leaves a running drain running, on the batch it took. *)
Lemma step_keeps_drain (e : event Content) (w w' : World Content)
    (d : Drain) :
  drain w = Some d -> batch d <> [] -> isLoading (mgr w) = true ->
  step estimateSize config e w = Some w' ->
  exists d', drain w' = Some d' /\ batch d' = batch d /\
             isLoading (mgr w') = true.
Proof.
  intros Hd Hb Hl Hstep. destruct e as [id now | p r now | ids | p r now | | ];
    simpl in Hstep.
  - injection Hstep as <-.
    destruct (get_call_frame now id w) as (-> & -> & _). eauto.
  - unfold get_resume in Hstep.
    destruct (nth_error (fetches w) p) as [[fid [ | ] [ | ]] | ];
      try discriminate.
    injection Hstep as <-. simpl.
    destruct (set_result_frame now fid r (mgr w)) as (_ & -> & _). eauto.
  - injection Hstep as <-. unfold preloadContent. simpl.
    rewrite preload_enqueue_frame, Hl. simpl. rewrite preload_enqueue_frame.
    eauto.
  - unfold preload_resume in Hstep. rewrite Hd in Hstep.
    destruct (nth_error (fetches w) p) as [[fid [ | ] [ | ]] | ];
      try discriminate.
    injection Hstep as <-. simpl.
    destruct (set_result_frame now fid r (mgr w)) as (_ & -> & _). eauto.
  - unfold batch_done in Hstep. rewrite Hd in Hstep.
    destruct d as [b [ | q qs] [ | ]]; try discriminate. simpl in Hb.
    destruct (JsSet.size (preloadQueue (mgr w)) >? 0).
    + injection Hstep as <-. simpl. eauto.
    + injection Hstep as <-.
      destruct (loop_test_running w Hb) as (d' & -> & Hd' & ->). eauto.
  - unfold delay_elapsed in Hstep. rewrite Hd in Hstep.
    destruct d as [b [ | q qs] [ | ]]; try discriminate. simpl in Hb.
    injection Hstep as <-.
    destruct (loop_test_running w Hb) as (d' & -> & Hd' & ->). eauto.
Qed.

(** C8, evaluated on the code: once [processPreloadQueue] has taken a
    non-empty batch, no sequence of calls and resumptions ends it; it
    stays suspended on that same batch with [isLoading] set, however
    the queue changes, because the batch is taken once, before the
    loop, and the loop tests that batch. *)
Theorem processPreloadQueue_never_completes
    (es : list (event Content)) (w w' : World Content) (d : Drain) :
  drain w = Some d -> batch d <> [] -> isLoading (mgr w) = true ->
  run estimateSize config es w = Some w' ->
  exists d', drain w' = Some d' /\ batch d' = batch d /\
             isLoading (mgr w') = true.
Proof.
  revert w d. induction es as [ | e es IH]; intros w d Hd Hb Hl Hrun;
    simpl in Hrun.
  - injection Hrun as <-. eauto.
  - destruct (step estimateSize config e w) as [w1 | ] eqn:Es;
      [ | discriminate ].
    destruct (step_keeps_drain e w Hd Hb Hl Es) as (d1 & Hd1 & Hb1 & Hl1).
    destruct (IH w1 d1 Hd1 ltac:(congruence) Hl1 Hrun) as (d' & H1 & H2 & H3).
    exists d'. repeat split; congruence.
Qed.

(* ------------------------------------------------------------------ *)
(** *** Fetches started by [get] *)

Lemma nth_error_settle (p q : nat) (fs : list Fetch) :
  nth_error (settle p fs) q =
    if Nat.eqb q p
    then option_map
           (fun f => {| f_id := f_id f; f_origin := f_origin f;
                        f_pending := false |})
           (nth_error fs p)
    else nth_error fs q.
Proof.
  revert p q. induction fs as [ | f fs IH]; intros p q; simpl.
  - destruct (Nat.eqb q p); destruct p, q; reflexivity.
  - destruct p as [ | p], q as [ | q]; simpl; try reflexivity.
    apply IH.
Qed.

Lemma get_delete (V : Type) (k k' : string) (m : JsMap.t V) :
  JsMap.get k' (JsMap.delete k m) =
    if String.eqb k k' then None else JsMap.get k' m.
Proof.
  induction m as [ | [k0 v0] m IH]; simpl.
  - destruct (String.eqb k k'); reflexivity.
  - destruct (String.eqb_spec k0 k) as [-> | Hk]; simpl.
    + rewrite IH. destruct (String.eqb k k'); reflexivity.
    + rewrite IH. destruct (String.eqb_spec k k') as [-> | Hk'].
      * destruct (String.eqb_spec k0 k'); [ contradiction | reflexivity ].
      * reflexivity.
Qed.

Lemma registered_at_most_one (w : World Content) :
  pending_registered w -> at_most_one_in_flight w.
Proof.
  intros H p q f g Hp Hq Hf Hg E.
  pose proof (H p f Hp Hf) as Rp. pose proof (H q g Hq Hg) as Rq.
  rewrite E in Rp. congruence.
Qed.

Lemma get_call_registered (now : Z) (id : string) (w : World Content) :
  pending_registered w -> pending_registered (snd (get_call now id w)).
Proof.
  intros H. unfold get_call.
  destruct (JsMap.get id (loadingPromises (mgr w))) as [p0 | ] eqn:El;
    [ exact H | ].
  destruct (JsMap.get id (cache (mgr w))) as [cached | ] eqn:Ec.
  - exact H.
  - intros p f Hp Hf. simpl in Hp |- *.
    destruct (Nat.lt_ge_cases p (List.length (fetches w))) as [Hlt | Hge].
    + rewrite nth_error_app1 in Hp by exact Hlt.
      pose proof (H p f Hp Hf) as R.
      rewrite get_set_other; [ exact R | ].
      intros E. rewrite E in R. congruence.
    + rewrite nth_error_app2 in Hp by exact Hge.
      destruct (p - List.length (fetches w))%nat as [ | k] eqn:Ek.
      * simpl in Hp. injection Hp as <-. simpl.
        rewrite get_set_same. f_equal. lia.
      * simpl in Hp. destruct k; discriminate.
Qed.

Lemma get_resume_registered (now : Z) (p : nat) (r : option Content)
    (w w' : World Content) :
  pending_registered w ->
  get_resume estimateSize config now p r w = Some w' ->
  pending_registered w'.
Proof.
  intros H Hres. unfold get_resume in Hres.
  destruct (nth_error (fetches w) p) as [[fid [ | ] [ | ]] | ] eqn:Ep;
    try discriminate.
  injection Hres as <-. intros q g Hq Hg. simpl in Hq |- *.
  destruct (set_result_frame now fid r (mgr w)) as (_ & _ & ->).
  rewrite nth_error_settle in Hq.
  destruct (Nat.eqb_spec q p) as [-> | Hne].
  - rewrite Ep in Hq. simpl in Hq. injection Hq as <-. discriminate.
  - pose proof (H q g Hq Hg) as Rq. pose proof (H p _ Ep eq_refl) as Rp.
    simpl in Rp. rewrite get_delete.
    destruct (String.eqb_spec fid (f_id g)) as [E | _]; [ | exact Rq ].
    rewrite <- E in Rq. congruence.
Qed.

Lemma run_gets_registered (es : list (event Content)) (w w' : World Content) :
  forallb (@get_event Content) es = true ->
  pending_registered w ->
  run estimateSize config es w = Some w' ->
  pending_registered w'.
Proof.
  revert w. induction es as [ | e es IH]; intros w Hes H Hrun; simpl in *.
  - injection Hrun as <-. exact H.
  - apply andb_true_iff in Hes. destruct Hes as [He Hes].
    destruct (step estimateSize config e w) as [w1 | ] eqn:Es;
      [ | discriminate ].
    apply (IH w1 Hes); [ | exact Hrun ].
    destruct e as [id now | p r now | ids | p r now | | ];
      try discriminate; simpl in Es.
    + injection Es as <-. apply get_call_registered; exact H.
    + eapply get_resume_registered; eauto.
Qed.

(** C7, as the code has it: (1) in every world, a [get(id)] issued while
    [loadingPromises] holds a promise for [id] hands back that promise
    and changes nothing, so no fetch starts; (2) two [get(id)] calls in
    a row for an id that is neither cached nor loading make one fetch
    between them and share its promise; (3) in every run made of [get]
    calls and the settlements of their fetches, no two fetches of one
    id are in flight. *)
Theorem get_coalesces_get_fetches :
  (forall (w : World Content) (id : string) (now : Z) (p : nat),
      JsMap.get id (loadingPromises (mgr w)) = Some p ->
      get_call now id w = (Joined Content p, w)) /\
  (forall (w : World Content) (id : string) (t1 t2 : Z),
      JsMap.get id (loadingPromises (mgr w)) = None ->
      JsMap.get id (cache (mgr w)) = None ->
      let p := List.length (fetches w) in
      let w1 := snd (get_call t1 id w) in
      fst (get_call t1 id w) = Fetching Content p /\
      get_call t2 id w1 = (Joined Content p, w1) /\
      fetches w1 = fetches w ++ [ {| f_id := id; f_origin := ByGet;
                                     f_pending := true |} ] /\
      fetch_count id w1 = S (fetch_count id w)) /\
  (forall (es : list (event Content)) (t0 : Z) (w : World Content),
      forallb (@get_event Content) es = true ->
      run estimateSize config es (start Content t0) = Some w ->
      at_most_one_in_flight w).
Proof.
  split; [ | split ].
  - intros w id now p H. unfold get_call. rewrite H. reflexivity.
  - intros w id t1 t2 Hl Hc p w1.
    assert (E1 : get_call t1 id w =
      (Fetching Content p,
       {| mgr := with_loadingPromises
                   (JsMap.set id p (loadingPromises (mgr w)))
                   (with_stats {| hits := hits (stats (mgr w));
                                  misses := misses (stats (mgr w)) + 1;
                                  stat_size := stat_size (stats (mgr w));
                                  lastCleanup := lastCleanup (stats (mgr w)) |}
                               (mgr w));
          fetches := fetches w ++ [ {| f_id := id; f_origin := ByGet;
                                       f_pending := true |} ];
          drain := drain w |})).
    { unfold get_call. rewrite Hl, Hc. reflexivity. }
    unfold w1. rewrite E1. cbn [fst snd]. split; [ reflexivity | ]. split.
    + unfold get_call. cbn [mgr loadingPromises with_loadingPromises].
      rewrite get_set_same. reflexivity.
    + split; [ reflexivity | ].
      unfold fetch_count. cbn [fetches]. rewrite filter_app, length_app.
      simpl. rewrite String.eqb_refl. simpl. lia.
  - intros es t0 w Hes Hrun. apply registered_at_most_one.
    eapply run_gets_registered; [ exact Hes | | exact Hrun ].
    intros p f Hp. destruct p; discriminate.
Qed.

(** C10, as the code has it: for an id that is cached and for which no
    promise is stored in [loadingPromises], [get(id)] hands back the
    stored content, starts no fetch, leaves the queue, the loading
    state and the preload loop alone, keeps the keys of the cache and
    their order, changes of the entry of [id] only [lastAccessed], which
    becomes the time of the call, leaves every other entry as it was,
    and adds one to the hit counter alone. *)
Theorem get_hit_frame (w : World Content) (id : string) (now : Z)
    (e : Entry Content) :
  JsMap.get id (cache (mgr w)) = Some e ->
  JsMap.get id (loadingPromises (mgr w)) = None ->
  let r := fst (get_call now id w) in
  let w' := snd (get_call now id w) in
  r = Hit (content e) /\
  fetches w' = fetches w /\ drain w' = drain w /\
  preloadQueue (mgr w') = preloadQueue (mgr w) /\
  isLoading (mgr w') = isLoading (mgr w) /\
  loadingPromises (mgr w') = loadingPromises (mgr w) /\
  JsMap.keys (cache (mgr w')) = JsMap.keys (cache (mgr w)) /\
  JsMap.get id (cache (mgr w'))
    = Some {| content := content e; added := added e;
              lastAccessed := now; size := size e |} /\
  (forall k, k <> id ->
             JsMap.get k (cache (mgr w')) = JsMap.get k (cache (mgr w))) /\
  stats (mgr w') = {| hits := hits (stats (mgr w)) + 1;
                      misses := misses (stats (mgr w));
                      stat_size := stat_size (stats (mgr w));
                      lastCleanup := lastCleanup (stats (mgr w)) |}.
Proof.
  intros Hc Hl. unfold get_call. rewrite Hl, Hc. cbn.
  repeat split.
  - eapply keys_set_present. exact Hc.
  - apply get_set_same.
  - intros k Hk. apply get_set_other. exact Hk.
Qed.

End CacheSteps.

(* ================================================================== *)
(** ** Cache scenarios *)
(* ================================================================== *)

Section CacheScenarios.

Open Scope Z_scope.
Import CacheManager.

Lemma get_coalesces_get_fetches_witness :
  JsMap.get "a" (loadingPromises (mgr (start string 0))) = None /\
  JsMap.get "a" (cache (mgr (start string 0))) = None /\
  fetch_count "a" (snd (get_call 1 "a" (start string 0))) = 1%nat /\
  get_call 2 "a" (snd (get_call 1 "a" (start string 0)))
    = (Joined string 0, snd (get_call 1 "a" (start string 0))).
Proof.
  split; [ reflexivity | ]. split; [ reflexivity | ].
  destruct (proj1 (proj2 (get_coalesces_get_fetches markup_size small_config))
              (start string 0) "a" 1 2 eq_refl eq_refl)
    as (_ & Hjoin & _ & Hcount).
  split; [ exact Hcount | exact Hjoin ].
Defined.

(** C7, as the specification words it, fails: [get("a")] starts a
    fetch, [preloadContent(["a"])] then starts a second one for the same
    id while the first is in flight; and a [get("a")] issued while a
    preload fetch of ["a"] is in flight starts a fetch of its own. *)
Lemma preload_fetch_not_coalesced :
  let w1 := snd (get_call 0 "a" (start string 0)) in
  let w2 := preloadContent small_config ["a"] w1 in
  let v1 := preloadContent small_config ["a"] (start string 0) in
  fetches w2 = [ {| f_id := "a"; f_origin := ByGet; f_pending := true |};
                 {| f_id := "a"; f_origin := ByPreload; f_pending := true |} ] /\
  ~ at_most_one_in_flight w2 /\
  fetches v1 = [ {| f_id := "a"; f_origin := ByPreload; f_pending := true |} ] /\
  fst (get_call 1 "a" v1) = Fetching string 1 /\
  ~ at_most_one_in_flight (snd (get_call 1 "a" v1)).
Proof.
  cbn zeta. split; [ reflexivity | ]. split.
  - intros H.
    specialize (H 0%nat 1%nat _ _ eq_refl eq_refl eq_refl eq_refl eq_refl).
    discriminate.
  - split; [ reflexivity | ]. split; [ reflexivity | ].
    intros H.
    specialize (H 0%nat 1%nat _ _ eq_refl eq_refl eq_refl eq_refl eq_refl).
    discriminate.
Qed.

Lemma get_hit_frame_witness :
  let w := {| mgr := set markup_size small_config 0 "a" "A" (create string 0);
              fetches := []; drain := None |} in
  JsMap.get "a" (cache (mgr w))
    = Some {| content := "A"; added := 0; lastAccessed := 0; size := 1 |} /\
  JsMap.get "a" (loadingPromises (mgr w)) = None /\
  fst (get_call 2 "a" w) = Hit "A" /\
  fetches (snd (get_call 2 "a" w)) = [].
Proof.
  cbn zeta. split; [ reflexivity | ]. split; [ reflexivity | ].
  destruct (@get_hit_frame string
              {| mgr := set markup_size small_config 0 "a" "A"
                          (create string 0);
                 fetches := []; drain := None |}
              "a" 2
              {| content := "A"; added := 0; lastAccessed := 0; size := 1 |}
              eq_refl eq_refl)
    as (Hr & Hf & _).
  split; [ exact Hr | exact Hf ].
Defined.

(** C10, as stated, fails in a world the code reaches: [get("a")]
    misses and its fetch 0 is in flight, [preloadContent(["a"])] starts
    fetch 1, fetch 1 settles and stores ["a"] in the cache.  Now ["a"]
    is cached, yet [get("a")] hands back the promise of fetch 0, not the
    stored content, and counts no hit. *)
Lemma get_of_cached_id_joins_pending_fetch :
  let w1 := snd (get_call 0 "a" (start string 0)) in
  let w2 := preloadContent small_config ["a"] w1 in
  exists w3,
    preload_resume markup_size small_config 5 1 (Some "A") w2 = Some w3 /\
    JsMap.get "a" (cache (mgr w3))
      = Some {| content := "A"; added := 5; lastAccessed := 5; size := 1 |} /\
    get_call 6 "a" w3 = (Joined string 0, w3) /\
    fst (get_call 6 "a" w3) <> Hit "A" /\
    hits (stats (mgr (snd (get_call 6 "a" w3)))) = hits (stats (mgr w3)).
Proof.
  cbn zeta. eexists. split; [ reflexivity | ].
  split; [ reflexivity | ]. split; [ reflexivity | ].
  split; [ discriminate | reflexivity ].
Qed.

Lemma processPreloadQueue_never_completes_witness :
  let w := preloadContent small_config ["a"] (start string 0) in
  let es := [ PreloadFetchSettled 0 (Some "A") 1; BatchDone string ] in
  drain w = Some {| batch := ["a"]; awaiting := [0%nat]; delaying := false |} /\
  isLoading (mgr w) = true /\
  exists w' d',
    run markup_size small_config es w = Some w' /\
    drain w' = Some d' /\ batch d' = ["a"] /\ isLoading (mgr w') = true.
Proof.
  cbn zeta. split; [ reflexivity | ]. split; [ reflexivity | ].
  eassert (E : run markup_size small_config
                 [ PreloadFetchSettled 0 (Some "A") 1; BatchDone string ]
                 (preloadContent small_config ["a"] (start string 0))
               = Some _) by reflexivity.
  destruct (@processPreloadQueue_never_completes string markup_size
              small_config _
              (preloadContent small_config ["a"] (start string 0)) _
              {| batch := ["a"]; awaiting := [0%nat]; delaying := false |}
              eq_refl ltac:(discriminate) eq_refl E)
    as (d' & H1 & H2 & H3).
  eexists. exists d'. split; [ exact E | ]. split; [ exact H1 | ].
  split; [ exact H2 | exact H3 ].
Defined.

(** The drain of the claim at a queue of one id: ["a"] is queued, its
    fetch settles and ["a"] leaves the queue; the queue is empty, the
    loop runs its next round on the batch it took before the loop and
    fetches ["a"] a second time, and [isLoading] stays set. *)
Example drain_fetches_again :
  let w := preloadContent small_config ["a"] (start string 0) in
  exists w',
    run markup_size small_config
        [ PreloadFetchSettled 0 (Some "A") 1; BatchDone string ] w = Some w' /\
    preloadQueue (mgr w') = [] /\
    fetch_count "a" w' = 2%nat /\
    isLoading (mgr w') = true /\
    drain w' = Some {| batch := ["a"]; awaiting := [1%nat];
                       delaying := false |}.
Proof. cbn zeta. eexists. repeat split. Qed.

(** With two ids queued and a batch size of one, the second id is
    never fetched: after the delay the loop fetches ["a"] again. *)
Example drain_starves_second_batch :
  let w := preloadContent small_config ["a"; "b"] (start string 0) in
  exists w',
    run markup_size small_config
        [ PreloadFetchSettled 0 (Some "A") 1; BatchDone string;
          DelayElapsed string ] w = Some w' /\
    preloadQueue (mgr w') = ["b"] /\
    fetch_count "a" w' = 2%nat /\ fetch_count "b" w' = 0%nat.
Proof. cbn zeta. eexists. repeat split. Qed.

End CacheScenarios.

(* ================================================================== *)
(** ** Further facts about utils/calculations.js *)
(* ================================================================== *)

Section AngleNormalisation.

Open Scope R_scope.
Import Calculations.





Lemma raise_angle_result (fuel : nat) (angle r : R) :
  raise_angle fuel angle = Some r -> 0 <= r.
Proof.
  revert angle. induction fuel as [ | fuel IH]; intros angle H;
    [ discriminate | ].
  simpl in H. destruct (Rlt_dec angle 0); [ eauto | ].
  injection H as <-. lra.
Qed.

Lemma lower_angle_result (fuel : nat) (angle r : R) :
  lower_angle fuel angle = Some r -> 0 <= angle -> 0 <= r < 2 * PI.
Proof.
  revert angle. induction fuel as [ | fuel IH]; intros angle H H0;
    [ discriminate | ].
  simpl in H. destruct (Rge_dec angle (2 * PI)).
  - apply (IH _ H). pose proof PI_RGT_0. lra.
  - injection H as <-. lra.
Qed.

(** Whatever normalizeAngle returns lies in [[0, 2 PI)] and is a fixed
    point: normalising it again, on any fuel that allows one test of
    each loop, returns it unchanged. *)
Theorem normalizeAngle_idempotent (fuel fuel' : nat) (angle r : R) :
  normalizeAngle fuel angle = Some r ->
  0 <= r < 2 * PI /\ normalizeAngle (S fuel') r = Some r.
Proof.
  unfold normalizeAngle. intros H.
  destruct (raise_angle fuel angle) as [a | ] eqn:Ea; [ | discriminate ].
  pose proof (@lower_angle_result _ _ _ H (@raise_angle_result _ _ _ Ea)) as Hr.
  split; [ exact Hr | ]. simpl.
  destruct (Rlt_dec r 0); [ lra | ].
  destruct (Rge_dec r (2 * PI)); [ lra | reflexivity ].
Qed.

Lemma normalizeAngle_idempotent_witness :
  normalizeAngle 2 (-1) = Some (-1 + 2 * PI) /\
  normalizeAngle 1 (-1 + 2 * PI) = Some (-1 + 2 * PI).
Proof.
  assert (H : normalizeAngle 2 (-1) = Some (-1 + 2 * PI)).
  { pose proof PI_gt_2 as Hpi. unfold normalizeAngle. simpl.
    destruct (Rlt_dec (-1) 0); [ | lra ].
    destruct (Rlt_dec (-1 + 2 * PI) 0); [ lra | ].
    destruct (Rge_dec (-1 + 2 * PI) (2 * PI)); [ lra | reflexivity ]. }
  split; [ exact H | ].
  exact (proj2 (@normalizeAngle_idempotent 2 0 (-1) (-1 + 2 * PI) H)).
Defined.

End AngleNormalisation.

Section Positions.

Open Scope R_scope.

Lemma cos_quarter_back (a : R) : cos (a - PI / 2) = sin a.
Proof. rewrite cos_minus, cos_PI2, sin_PI2. ring. Qed.

Lemma sin_quarter_back (a : R) : sin (a - PI / 2) = - cos a.
Proof. rewrite sin_minus, cos_PI2, sin_PI2. ring. Qed.

(** project sends the angle [a] and the radius [r] to
    [(r sin a, - r cos a)]: the point at distance [|r|] from the origin,
    straight up (negative [y]) for the angle 0 and turning clockwise on
    a screen. *)
Theorem project_on_circle (angle radius : R) :
  Calculations.project angle radius
    = (radius * sin angle, - (radius * cos angle)) /\
  fst (Calculations.project angle radius) * fst (Calculations.project angle radius)
  + snd (Calculations.project angle radius) * snd (Calculations.project angle radius)
    = radius * radius /\
  Calculations.project 0 radius = (0, - radius).
Proof.
  assert (E : Calculations.project angle radius
              = (radius * sin angle, - (radius * cos angle))).
  { unfold Calculations.project.
    rewrite cos_quarter_back, sin_quarter_back. f_equal; ring. }
  split; [ exact E | ]. split.
  - rewrite E. cbn [fst snd]. pose proof (sin2_cos2 angle) as H.
    unfold Rsqr in H. nra.
  - unfold Calculations.project.
    rewrite cos_quarter_back, sin_quarter_back, sin_0, cos_0. f_equal; ring.
Qed.

(** The centre of a node below the root, as NodeManager places it, is
    the end point PathManager gives the node's link, and both are
    project of the node's angle and radius. *)
Theorem node_position_is_link_end (d : nat) (x y : R) :
  d <> 0%nat ->
  NodeManager.calculateNodePosition d x y = PathManager.calculateEndPoint x y /\
  PathManager.calculateEndPoint x y = Calculations.project x y.
Proof.
  intros Hd. unfold NodeManager.calculateNodePosition.
  destruct (Nat.eqb_spec d 0); [ contradiction | ].
  split; reflexivity.
Qed.

Lemma node_position_is_link_end_witness :
  2%nat <> 0%nat /\
  NodeManager.calculateNodePosition 2 0 100
    = PathManager.calculateEndPoint 0 100.
Proof.
  assert (H : 2%nat <> 0%nat) by discriminate.
  split; [ exact H | exact (proj1 (@node_position_is_link_end 2 0 100 H)) ].
Defined.

(** The indicator of an outer node is placed without the quarter-turn
    offset the links use: it sits where the link of a node a quarter
    turn further on would end, and for a radius other than 0 never at
    the end of the node's own link. *)
Theorem indicator_off_link_end (x y : R) :
  OuterElementManager.calculateIndicatorPosition x y
    = PathManager.calculateEndPoint (x + PI / 2) y /\
  (y <> 0 ->
   OuterElementManager.calculateIndicatorPosition x y
     <> PathManager.calculateEndPoint x y).
Proof.
  unfold OuterElementManager.calculateIndicatorPosition,
    PathManager.calculateEndPoint. cbn zeta. split.
  - replace (x + PI / 2 - PI / 2) with x by ring. reflexivity.
  - intros Hy E. rewrite cos_quarter_back, sin_quarter_back in E.
    injection E as E1 E2.
    pose proof (sin2_cos2 x) as H. unfold Rsqr in H.
    assert (Hc : cos x = sin x) by (apply (Rmult_eq_reg_l y); assumption).
    assert (Hs : sin x = - cos x) by (apply (Rmult_eq_reg_l y); assumption).
    nra.
Qed.

Lemma indicator_off_link_end_witness :
  100 <> 0 /\
  OuterElementManager.calculateIndicatorPosition 0 100
    <> PathManager.calculateEndPoint 0 100.
Proof.
  assert (H : 100 <> 0) by lra.
  split; [ exact H | exact (proj2 (indicator_off_link_end 0 100) H) ].
Defined.

End Positions.

Section Clamps.

Open Scope R_scope.
Import Calculations.

(** calculateOptimalSpacing never goes below half a node, and never
    leaves slack: the nodes with a gap before, between and after them
    either fill the container exactly or, when the half-node minimum
    applies, take more room than the container has. *)
Theorem calculateOptimalSpacing_fills (containerSize nodeSize : R)
    (nodeCount : nat) :
  let spacing := calculateOptimalSpacing containerSize nodeCount nodeSize in
  let used := INR nodeCount * nodeSize + (INR nodeCount + 1) * spacing in
  nodeSize / 2 <= spacing /\ containerSize <= used /\
  (nodeSize / 2 <= (containerSize - nodeSize * INR nodeCount)
                   / (INR nodeCount + 1) ->
   used = containerSize).
Proof.
  cbn zeta. unfold calculateOptimalSpacing.
  pose proof (pos_INR nodeCount) as Hn.
  set (opt := (containerSize - nodeSize * INR nodeCount) / (INR nodeCount + 1)).
  assert (Hopt : (INR nodeCount + 1) * opt
                 = containerSize - nodeSize * INR nodeCount).
  { unfold opt. field. lra. }
  split; [ | split ].
  - eapply Rle_trans; [ | apply Rmax_l ]. lra.
  - pose proof (Rmax_r (nodeSize * (1 / 2)) opt) as Hr. nra.
  - intros Hge. rewrite Rmax_right by lra. nra.
Qed.

(** calculateCurveTension lies between 0.3 and 0.8, is the same in
    both directions, is 0.3 up to a distance of 300 and 0.8 from a
    distance of 800 on. *)
Theorem calculateCurveTension_bounds (source target : R * R) :
  let dx := fst target - fst source in
  let dy := snd target - snd source in
  3 / 10 <= calculateCurveTension source target <= 8 / 10 /\
  calculateCurveTension source target = calculateCurveTension target source /\
  (sqrt (dx * dx + dy * dy) <= 300 ->
   calculateCurveTension source target = 3 / 10) /\
  (800 <= sqrt (dx * dx + dy * dy) ->
   calculateCurveTension source target = 8 / 10).
Proof.
  cbn zeta. unfold calculateCurveTension.
  set (d := sqrt ((fst target - fst source) * (fst target - fst source)
                  + (snd target - snd source) * (snd target - snd source))).
  split; [ | split; [ | split ] ].
  - split.
    + apply Rmin_glb; [ lra | apply Rmax_l ].
    + apply Rmin_l.
  - f_equal. f_equal. f_equal. unfold d. f_equal. ring.
  - intros H. rewrite (Rmax_left (3 / 10)) by lra. apply Rmin_right. lra.
  - intros H. rewrite (Rmax_right (3 / 10)) by lra. apply Rmin_left. lra.
Qed.

(** calculateAnimationDuration never exceeds the maximum; when the
    minimum does not exceed the maximum it never goes below the minimum
    and grows with the magnitude, and a magnitude between 0 and 1 is
    mapped linearly between the two. *)
Theorem calculateAnimationDuration_bounds
    (magnitude minDuration maxDuration : R) :
  calculateAnimationDuration magnitude minDuration maxDuration <= maxDuration /\
  (minDuration <= maxDuration ->
   minDuration <= calculateAnimationDuration magnitude minDuration maxDuration /\
   (0 <= magnitude <= 1 ->
    calculateAnimationDuration magnitude minDuration maxDuration
      = minDuration + magnitude * (maxDuration - minDuration)) /\
   (forall magnitude', magnitude <= magnitude' ->
      calculateAnimationDuration magnitude minDuration maxDuration
        <= calculateAnimationDuration magnitude' minDuration maxDuration)).
Proof.
  unfold calculateAnimationDuration. split; [ apply Rmin_l | ].
  intros Hmm. split; [ | split ].
  - apply Rmin_glb; [ exact Hmm | apply Rmax_l ].
  - intros [H0 H1]. rewrite Rmax_right by nra. apply Rmin_right. nra.
  - intros m' Hm'.
    assert (Hlin : minDuration + magnitude * (maxDuration - minDuration)
                   <= minDuration + m' * (maxDuration - minDuration)) by nra.
    apply Rmin_glb; [ apply Rmin_l | ].
    eapply Rle_trans; [ apply Rmin_r | ].
    apply Rmax_lub; [ apply Rmax_l | ].
    eapply Rle_trans; [ exact Hlin | apply Rmax_r ].
Qed.

Lemma calculateAnimationDuration_bounds_witness :
  200 <= 1000 /\
  calculateAnimationDuration (1 / 2) 200 1000 = 200 + 1 / 2 * (1000 - 200).
Proof.
  assert (H : 200 <= 1000) by lra.
  split; [ exact H | ].
  apply (proj1 (proj2 (proj2 (calculateAnimationDuration_bounds
                                (1 / 2) 200 1000) H))).
  lra.
Defined.

End Clamps.

Section TextWrapFacts.

Open Scope R_scope.
Import Calculations.

Variable calculateTextWidth : string -> R -> R.

Lemma append_assoc (a b c : string) :
  ((a ++ b) ++ c)%string = (a ++ (b ++ c))%string.
Proof.
  induction a as [ | x a IH]; simpl; [ reflexivity | ]. rewrite IH. reflexivity.
Qed.

Lemma join_cons (a : string) (b : string) (r : list string) :
  Js.join_space (a :: b :: r)
    = (a ++ " " ++ Js.join_space (b :: r))%string.
Proof. reflexivity. Qed.

Lemma join_split (text : string) :
  Js.join_space (fst (Js.split_space text) :: snd (Js.split_space text)) = text.
Proof.
  induction text as [ | c rest IH]; [ reflexivity | ].
  simpl Js.split_space. destruct (Js.split_space rest) as [w ws].
  cbn [fst snd] in IH.
  destruct (Ascii.eqb_spec c " "%char) as [-> | Hc]; cbn [fst snd].
  - rewrite join_cons, IH. reflexivity.
  - destruct ws as [ | w' ws].
    + unfold Js.join_space in *. simpl in *. rewrite IH. reflexivity.
    + rewrite join_cons.
      change (String c w ++ " " ++ Js.join_space (w' :: ws))%string
        with (String c (w ++ " " ++ Js.join_space (w' :: ws)))%string.
      rewrite <- join_cons, IH. reflexivity.
Qed.

Lemma join_cons_more (x : string) (l : list string) :
  l <> [] -> Js.join_space (x :: l) = (x ++ " " ++ Js.join_space l)%string.
Proof. destruct l; [ congruence | reflexivity ]. Qed.

Lemma join_merge (l r : list string) (a b : string) :
  Js.join_space (l ++ (a ++ " " ++ b)%string :: r)
    = Js.join_space (l ++ a :: b :: r).
Proof.
  induction l as [ | x l IH].
  - simpl app. rewrite join_cons. destruct r as [ | c r].
    + reflexivity.
    + rewrite !join_cons, !append_assoc. reflexivity.
  - rewrite <- !app_comm_cons.
    rewrite !join_cons_more by (destruct l; discriminate).
    rewrite IH. reflexivity.
Qed.

Lemma wrap_loop_join (maxWidth fontSize : R) (words lines : list string)
    (currentLine : string) :
  Js.join_space (wrap_loop calculateTextWidth maxWidth fontSize words lines
                           currentLine)
    = Js.join_space (lines ++ currentLine :: words).
Proof.
  revert lines currentLine.
  induction words as [ | w words IH]; intros lines cur; cbn [wrap_loop].
  - reflexivity.
  - destruct (Rle_dec (calculateTextWidth (cur ++ " " ++ w)%string fontSize)
                      maxWidth).
    + rewrite IH. apply join_merge.
    + rewrite IH, <- app_assoc. reflexivity.
Qed.

(** Wrapping loses nothing: the lines of calculateTextWrap, joined by
    single spaces, are the text again, whatever the measure, the width
    and the font size. *)
Theorem calculateTextWrap_join (text : string) (maxWidth fontSize : R) :
  Js.join_space (calculateTextWrap calculateTextWidth text maxWidth fontSize)
    = text.
Proof.
  unfold calculateTextWrap.
  pose proof (join_split text) as H.
  destruct (Js.split_space text) as [first rest]. cbn [fst snd] in H.
  rewrite wrap_loop_join. exact H.
Qed.

Lemma wrap_loop_fits (maxWidth fontSize : R) (all words lines : list string)
    (currentLine : string) :
  let ok := fun line =>
              In line all \/ calculateTextWidth line fontSize <= maxWidth in
  incl words all -> Forall ok lines -> ok currentLine ->
  Forall ok (wrap_loop calculateTextWidth maxWidth fontSize words lines
                       currentLine).
Proof.
  cbn zeta. revert lines currentLine.
  induction words as [ | w words IH]; intros lines cur Hincl Hlines Hcur;
    cbn [wrap_loop].
  - apply Forall_app. split; [ exact Hlines | ].
    constructor; [ exact Hcur | constructor ].
  - assert (Hrest : incl words all)
      by (intros z Hz; apply Hincl; right; exact Hz).
    destruct (Rle_dec (calculateTextWidth (cur ++ " " ++ w)%string fontSize)
                      maxWidth) as [Hfit | Hover].
    + apply IH; [ exact Hrest | exact Hlines | right; exact Hfit ].
    + apply IH; [ exact Hrest | | left; apply Hincl; left; reflexivity ].
      apply Forall_app. split; [ exact Hlines | ].
      constructor; [ exact Hcur | constructor ].
Qed.

(** Every line calculateTextWrap returns either measures at most the
    maximum width or is a single word of the text (a word wider than
    the maximum gets a line of its own and is not broken). *)
Theorem calculateTextWrap_fits (text : string) (maxWidth fontSize : R) :
  Forall
    (fun line =>
       In line (fst (Js.split_space text) :: snd (Js.split_space text))
       \/ calculateTextWidth line fontSize <= maxWidth)
    (calculateTextWrap calculateTextWidth text maxWidth fontSize).
Proof.
  unfold calculateTextWrap.
  destruct (Js.split_space text) as [first rest]. cbn [fst snd].
  apply (@wrap_loop_fits maxWidth fontSize (first :: rest)).
  - intros z Hz. right; exact Hz.
  - constructor.
  - left. left. reflexivity.
Qed.

End TextWrapFacts.

(* ================================================================== *)
(** ** Further facts about the selection classification *)
(* ================================================================== *)

Section MoreClassification.

Import Hierarchy.

(** Decide a goal on references of known shape by cases on the index
    comparisons. *)
Ltac by_index_cases :=
  cbn;
  repeat match goal with
         | |- context [Nat.eqb ?a ?b] => destruct (Nat.eqb a b) eqn:?
         end;
  cbn; try reflexivity; try discriminate.

Ltac by_same_cases :=
  cbn;
  repeat match goal with
         | |- context [same ?a ?b] => destruct (same a b) eqn:?
         end;
  cbn; try reflexivity; try discriminate;
  repeat match goal with
         | H : same _ _ = true |- _ => apply same_true in H
         end;
  subst; try discriminate; try congruence.

Lemma parent_not_self (n : nodeRef) : parent n <> Some n.
Proof.
  destruct n as [ | k n]; simpl; [ discriminate | ].
  intros E. injection E as E.
  apply (f_equal (@List.length nat)) in E. simpl in E. lia.
Qed.

Lemma same_option_true (a b : option nodeRef) :
  NodeManager.same_option a b = true <-> a = b.
Proof.
  destruct a as [x | ], b as [y | ]; simpl;
    try (split; [ discriminate | congruence ]); [ | tauto ].
  rewrite same_true. split; [ congruence | intros E; injection E; auto ].
Qed.

(** No node is classified both active and sibling, whatever is
    selected; and with a depth-1 selection every depth-1 node is one or
    the other: the selection is active, the other primary nodes are its
    siblings. *)
Theorem active_and_sibling_disjoint (node : nodeRef) :
  (forall sel : option nodeRef,
      NodeManager.isActiveNode node sel
      && NodeManager.isSiblingNode node sel = false) /\
  (forall sel : nodeRef,
      depth sel = 1%nat -> depth node = 1%nat ->
      NodeManager.isSiblingNode node (Some sel)
        = negb (NodeManager.isActiveNode node (Some sel))).
Proof.
  split.
  - intros [sel | ]; [ | apply andb_false_r ].
    destruct (NodeManager.isSiblingNode node (Some sel)) eqn:Es;
      [ | apply andb_false_r ].
    rewrite andb_true_r. unfold NodeManager.isSiblingNode in Es.
    destruct (Nat.eqb (depth node) 0) eqn:Ed; [ discriminate | ].
    apply andb_true_iff in Es. destruct Es as [Ep Ene].
    apply same_option_true in Ep. apply negb_true_iff in Ene.
    unfold NodeManager.isActiveNode. rewrite Ene, Ed. simpl.
    rewrite orb_false_r.
    destruct (parent sel) as [p | ] eqn:Eps; [ | reflexivity ].
    apply same_false. intros ->. exact (parent_not_self Ep).
  - intros sel Hs Hn.
    destruct sel as [ | i [ | ? ?]]; try discriminate.
    destruct node as [ | j [ | ? ?]]; try discriminate.
    unfold NodeManager.isSiblingNode, NodeManager.isActiveNode. simpl.
    rewrite !andb_true_r, !orb_false_r. reflexivity.
Qed.

(** isActivePath away from depth 2: nothing is active without a link or
    without a selection; with the root selected every link is active;
    with a depth-1 selection exactly the link from its parent to it and
    the links that start at it. *)
Theorem isActivePath_shallow (l : link) :
  PathManager.isActivePath (Some l) None = false /\
  (forall sel, PathManager.isActivePath None sel = false) /\
  (forall sel, depth sel = 0%nat ->
               PathManager.isActivePath (Some l) (Some sel) = true) /\
  (forall sel, depth sel = 1%nat ->
     (PathManager.isActivePath (Some l) (Some sel) = true <->
      (parent sel = Some (source l) /\ target l = sel) \/ source l = sel)).
Proof.
  split; [ reflexivity | ]. split; [ intros [s | ]; reflexivity | ].
  split.
  - intros sel Hd. unfold PathManager.isActivePath. rewrite Hd. reflexivity.
  - intros sel Hd. destruct sel as [ | i [ | ? ?]]; try discriminate.
    destruct l as [s t]. unfold PathManager.isActivePath. cbn.
    rewrite orb_true_iff, andb_true_iff, !same_true. split.
    + intros [[H1 H2] | H]; subst; auto.
    + intros [[H1 H2] | H]; [ injection H1 as <-; auto | auto ].
Qed.

(** For a link of the hierarchy from a depth-1 node to one of its
    children, getPathOpacity is 1 exactly when isActivePath holds and 0
    otherwise, for every selection and for none; and for every link the
    opacity without a selection is the opacity the link is created
    with. *)
Theorem outer_link_visible_iff_active (l : link) :
  (depth (source l) = 1%nat -> parent (target l) = Some (source l) ->
   forall sel,
     PathManager.getPathOpacity l sel
       = if PathManager.isActivePath (Some l) sel then 1%Z else 0%Z) /\
  PathManager.getPathOpacity l None = PathManager.getInitialOpacity l.
Proof.
  split.
  - intros Hs Hp sel. destruct l as [s t]. simpl in *.
    destruct s as [ | i [ | ? ?]]; try discriminate.
    destruct t as [ | j t]; try discriminate. injection Hp as ->.
    destruct sel as [sel | ]; [ | reflexivity ].
    unfold PathManager.getPathOpacity, PathManager.isActivePath.
    destruct sel as [ | a [ | b [ | c r]]]; by_index_cases.
  - unfold PathManager.getPathOpacity, PathManager.getInitialOpacity.
    destruct (Nat.eqb (depth (source l)) 0) eqn:E0.
    + apply Nat.eqb_eq in E0. rewrite E0. reflexivity.
    + reflexivity.
Qed.

Lemma outer_link_visible_iff_active_witness :
  depth [0]%nat = 1%nat /\ parent [1; 0]%nat = Some [0]%nat /\
  PathManager.getPathOpacity (Link [0]%nat [1; 0]%nat) (Some [0; 0]%nat) = 1%Z.
Proof.
  split; [ reflexivity | ]. split; [ reflexivity | ].
  exact (proj1 (outer_link_visible_iff_active (Link [0]%nat [1; 0]%nat))
           eq_refl eq_refl (Some [0; 0]%nat)).
Defined.

(** With a depth-1 selection no link is both active and sibling.  With
    a depth-2 selection every link that starts at the selection's
    parent is active, the sibling links among them too, so
    getPathColor gives all of them the active colour and the inactive
    colour goes only to outer links of other branches. *)
Theorem path_colour_of_branch (l : link) (sel : nodeRef) :
  (depth sel = 1%nat ->
   PathManager.isActivePath (Some l) (Some sel)
   && PathManager.isSiblingPath (Some l) (Some sel) = false) /\
  (depth sel = 2%nat -> parent sel = Some (source l) ->
   PathManager.getPathColor l (Some sel) = PathManager.ColorActive /\
   (target l <> sel -> PathManager.isSiblingPath (Some l) (Some sel) = true)) /\
  (depth sel = 2%nat ->
   PathManager.getPathColor l (Some sel) = PathManager.ColorInactive ->
   parent sel <> Some (source l) /\ depth (target l) = 2%nat).
Proof.
  destruct l as [s t]. split; [ | split ].
  - intros Hd. destruct sel as [ | i [ | ? ?]]; try discriminate.
    unfold PathManager.isActivePath, PathManager.isSiblingPath.
    by_same_cases.
  - intros Hd Hp. destruct sel as [ | i [ | j [ | ? ?]]]; try discriminate.
    simpl in Hp. injection Hp as <-.
    unfold PathManager.getPathColor, PathManager.isActivePath,
      PathManager.isSiblingPath. cbn.
    rewrite Nat.eqb_refl. simpl. rewrite orb_true_r. simpl.
    split; [ reflexivity | ].
    intros Ht. apply same_false in Ht. rewrite Ht. reflexivity.
  - intros Hd Hc. destruct sel as [ | i [ | j [ | ? ?]]]; try discriminate.
    unfold PathManager.getPathColor, PathManager.isActivePath,
      PathManager.isSiblingPath in Hc. cbn in Hc.
    destruct (same s [j]) eqn:Es.
    { destruct (same t [i; j]); cbn in Hc; discriminate. }
    unfold depth in *.
    destruct (Nat.eqb (List.length t) 2) eqn:Et.
    + apply Nat.eqb_eq in Et. split; [ | exact Et ].
      simpl. intros E. injection E as E. subst s.
      rewrite same_refl in Es. discriminate.
    + repeat match type of Hc with
             | context [same ?a ?b] => destruct (same a b); cbn in Hc
             end; discriminate.
Qed.

Lemma path_colour_of_branch_witness :
  depth [0; 0]%nat = 2%nat /\ parent [0; 0]%nat = Some [0]%nat /\
  PathManager.getPathColor (Link [0]%nat [1; 0]%nat) (Some [0; 0]%nat)
    = PathManager.ColorActive.
Proof.
  split; [ reflexivity | ]. split; [ reflexivity | ].
  exact (proj1 (proj1 (proj2 (path_colour_of_branch
                                (Link [0]%nat [1; 0]%nat) [0; 0]%nat))
                  eq_refl eq_refl)).
Defined.

(** For the outer (depth-2) nodes, which are the ones that carry an
    indicator and a label: no node is both an active indicator and a
    faded label; a pulsing node is active and at full opacity; and with
    a depth-1 selection every outer node is one of the two, active when
    it is a child of the selection and faded otherwise. *)
Theorem outer_states_consistent (node : nodeRef) :
  depth node = 2%nat ->
  (forall sel,
      OuterElementManager.isActiveIndicator node sel
      && OuterElementManager.isFadedLabel node sel = false) /\
  (forall sel,
      OuterElementManager.shouldPulse node sel = true ->
      sel = Some node /\
      OuterElementManager.isActiveIndicator node sel = true /\
      OuterElementManager.getLabelOpacity node sel = 1%R) /\
  (forall sel,
      depth sel = 1%nat ->
      OuterElementManager.isFadedLabel node (Some sel)
        = negb (OuterElementManager.isActiveIndicator node (Some sel)) /\
      (OuterElementManager.isActiveIndicator node (Some sel) = true
       <-> parent node = Some sel)).
Proof.
  intros Hd. destruct node as [ | i [ | j [ | ? ?]]]; try discriminate.
  split; [ | split ].
  - intros [sel | ]; [ | reflexivity ].
    unfold OuterElementManager.isActiveIndicator,
      OuterElementManager.isFadedLabel.
    destruct sel as [ | a [ | b [ | c r]]]; by_index_cases.
  - intros [sel | ] Hp; [ | discriminate ].
    unfold OuterElementManager.shouldPulse in Hp.
    apply andb_true_iff in Hp. destruct Hp as [Hs _].
    apply same_true in Hs. subst sel. split; [ reflexivity | ].
    unfold OuterElementManager.getLabelOpacity,
      OuterElementManager.isActiveIndicator,
      OuterElementManager.isFadedLabel. cbn.
    rewrite !Nat.eqb_refl. simpl. split; reflexivity.
  - intros sel Hs. destruct sel as [ | a [ | ? ?]]; try discriminate.
    unfold OuterElementManager.isActiveIndicator,
      OuterElementManager.isFadedLabel. cbn.
    rewrite !andb_true_r, andb_false_r. cbn. split; [ reflexivity | ].
    rewrite Nat.eqb_eq. split; [ intros ->; reflexivity | ].
    intros E. injection E; auto.
Qed.

Lemma outer_states_consistent_witness :
  depth [1; 0]%nat = 2%nat /\
  OuterElementManager.isFadedLabel [1; 0]%nat (Some [1]%nat) = true.
Proof.
  split; [ reflexivity | ].
  exact (proj1 (proj2 (proj2 (@outer_states_consistent [1; 0]%nat eq_refl))
                  [1]%nat eq_refl)).
Defined.

End MoreClassification.

Section LabelLayout.

Import OuterElementManager.

Lemma join_firstn_skipn (m : nat) (words : list string) :
  (0 < m < List.length words)%nat ->
  (Js.join_space (firstn m words) ++ " "
   ++ Js.join_space (skipn m words))%string = Js.join_space words.
Proof.
  revert m. induction words as [ | x words IH]; intros m [H0 Hm].
  - simpl in Hm. lia.
  - destruct m as [ | m]; [ lia | ]. simpl in Hm.
    assert (Hwords : words <> []) by (destruct words; simpl in *; [ lia | congruence ]).
    rewrite (@join_cons_more x words Hwords).
    destruct m as [ | m].
    + reflexivity.
    + change (firstn (S (S m)) (x :: words)) with (x :: firstn (S m) words).
      change (skipn (S (S m)) (x :: words)) with (skipn (S m) words).
      assert (Hfirst : firstn (S m) words <> [])
        by (destruct words; simpl in *; congruence).
      rewrite (@join_cons_more x (firstn (S m) words) Hfirst).
      rewrite !append_assoc.
      rewrite <- (IH (S m)) by lia. reflexivity.
Qed.

(** The lines calculateLabelLayout chooses hold the whole name: a
    single line is the name; of two lines either the first is empty and
    the second is the name, or the two joined by a space are the name.
    A name without a space is always laid out on a single line. *)
Theorem calculateLabelLayout_lines (config : Config.t) (longText : nat)
    (spacing_base : R) (name : string) (node_x node_y : R) :
  match lines (calculateLabelLayout config longText spacing_base name
                                    node_x node_y) with
  | SingleLine text => text = name
  | DoubleLine firstLine secondLine =>
      snd (Js.split_space name) <> [] /\
      ((firstLine = EmptyString /\ secondLine = name)
       \/ (firstLine ++ " " ++ secondLine)%string = name)
  end.
Proof.
  unfold calculateLabelLayout.
  pose proof (join_split name) as Hjoin.
  destruct (Js.split_space name) as [first rest]. cbn [fst snd] in Hjoin |- *.
  set (words := first :: rest) in *.
  set (wordCount := List.length words).
  destruct (Nat.ltb 1 wordCount
            && (Nat.ltb longText (String.length name) || Nat.ltb 2 wordCount))
    eqn:Etwo; cbn [lines]; [ | reflexivity ].
  apply andb_true_iff in Etwo. destruct Etwo as [Hwc _].
  apply Nat.ltb_lt in Hwc.
  assert (Hrest : rest <> []).
  { intros ->. unfold wordCount, words in Hwc. simpl in Hwc. lia. }
  split; [ exact Hrest | ].
  set (midpoint := Nat.div (wordCount + 1) 2).
  assert (Hmid : (0 < midpoint < wordCount)%nat).
  { unfold midpoint.
    pose proof (Nat.div_mod_eq (wordCount + 1) 2) as E.
    pose proof (Nat.mod_upper_bound (wordCount + 1) 2 ltac:(lia)) as Hb.
    lia. }
  match goal with
  | |- context [if ?c then (midpoint - 1)%nat else midpoint] =>
      destruct c
  end.
  - destruct (Nat.eq_dec midpoint 1) as [E1 | Hne].
    + left. rewrite E1. cbn [Nat.sub firstn skipn]. split; [ reflexivity | ].
      exact Hjoin.
    + right. rewrite join_firstn_skipn by (fold wordCount; lia). exact Hjoin.
  - right. rewrite join_firstn_skipn by (fold wordCount; lia). exact Hjoin.
Qed.

Lemma split_one_word (w : string) :
  snd (Js.split_space w) = [] -> Js.split_space w = (w, []).
Proof.
  intros H. pose proof (join_split w) as J.
  destruct (Js.split_space w) as [first rest]. simpl in H. subst rest.
  cbn in J. rewrite J. reflexivity.
Qed.

Lemma split_two_words (w0 w1 : string) :
  snd (Js.split_space w0) = [] ->
  Js.split_space (w0 ++ " " ++ w1)%string
    = (w0, fst (Js.split_space w1) :: snd (Js.split_space w1)).
Proof.
  induction w0 as [ | c r IH]; intros H.
  - simpl. destruct (Js.split_space w1); reflexivity.
  - simpl in *.
    destruct (Js.split_space r) as [w ws] eqn:Er.
    destruct (Ascii.eqb c " "%char); [ discriminate | ].
    simpl in H. rewrite (IH H). reflexivity.
Qed.

(** A name of two words in ASCII characters whose first word is more
    than one and a half times as long as the second, and which is
    longer than the long-text threshold, is laid out on two lines of
    which the first is empty: the split point is moved back to before
    the first word.  (On ASCII words the length in bytes is the length
    in UTF-16 units the source counts.) *)
Theorem calculateLabelLayout_empty_first_line (config : Config.t)
    (longText : nat) (spacing_base : R) (w0 w1 : string)
    (node_x node_y : R) :
  Js.is_ascii w0 = true -> Js.is_ascii w1 = true ->
  snd (Js.split_space w0) = [] -> snd (Js.split_space w1) = [] ->
  (3 * String.length w1 < 2 * String.length w0)%nat ->
  (longText < String.length (w0 ++ " " ++ w1))%nat ->
  lines (calculateLabelLayout config longText spacing_base
                              (w0 ++ " " ++ w1)%string node_x node_y)
    = DoubleLine EmptyString (w0 ++ " " ++ w1)%string.
Proof.
  intros _ _ H0 H1 Hlen Hlong. unfold calculateLabelLayout.
  rewrite (@split_two_words w0 w1 H0), (@split_one_word w1 H1).
  cbn [fst snd List.length].
  change (Nat.ltb 1 2) with true. change (Nat.ltb 2 2) with false.
  apply Nat.ltb_lt in Hlong. rewrite Hlong.
  change (Nat.div (2 + 1) 2) with 1%nat.
  cbn [firstn skipn andb orb].
  change (Js.join_space [w0]) with w0.
  change (Js.join_space [w1]) with w1.
  apply Nat.ltb_lt in Hlen. rewrite Hlen.
  reflexivity.
Qed.

Lemma calculateLabelLayout_empty_first_line_witness :
  Js.is_ascii "internationalization" = true /\
  Js.is_ascii "a" = true /\
  snd (Js.split_space "internationalization") = [] /\
  snd (Js.split_space "a") = [] /\
  lines (calculateLabelLayout Config.DEFAULT_CONFIG 11 32
           "internationalization a" 0 100)
    = DoubleLine "" "internationalization a".
Proof.
  split; [ reflexivity | ]. split; [ reflexivity | ].
  split; [ reflexivity | ]. split; [ reflexivity | ].
  apply (@calculateLabelLayout_empty_first_line Config.DEFAULT_CONFIG 11 32
           "internationalization" "a" 0 100 eq_refl eq_refl eq_refl eq_refl).
  - simpl. lia.
  - simpl. lia.
Defined.

End LabelLayout.

(* ================================================================== *)
(** ** Further facts about state/DisplayManager.js *)
(* ================================================================== *)

Section Dimensions.

Open Scope R_scope.
Import Config DisplayManager.

(** The radius is 35 percent of the smaller side of the container,
    floored at one and a half times the central node's minimum size.
    The cap at 40 percent of the width never takes effect for a
    container of non-negative size, and the floor applies even where it
    exceeds that cap. *)
Theorem calculateRadius_cap_is_idle (config : Config.t) (vp : Viewport) :
  0 <= width (rect vp) ->
  calculateRadius config vp
    = Rmax (node_central_minSize config * (3 / 2))
           (Rmin (width (rect vp)) (height (rect vp)) * (35 / 100)) /\
  node_central_minSize config * (3 / 2) <= calculateRadius config vp.
Proof.
  intros Hw. unfold calculateRadius. split; [ | apply Rmax_l ].
  f_equal. apply Rmin_left.
  pose proof (Rmin_l (width (rect vp)) (height (rect vp))) as H. nra.
Qed.

Lemma calculateRadius_cap_is_idle_witness :
  0 <= width (rect (viewport_of_width 1000)) /\
  node_central_minSize DEFAULT_CONFIG * (3 / 2)
    <= calculateRadius DEFAULT_CONFIG (viewport_of_width 1000).
Proof.
  assert (H : 0 <= width (rect (viewport_of_width 1000))) by (simpl; lra).
  split; [ exact H | ].
  exact (proj2 (calculateRadius_cap_is_idle DEFAULT_CONFIG
                  (viewport_of_width 1000) H)).
Defined.

(** The computed width never exceeds 90 percent of the window width
    and the computed height never 70 percent of the window height, the
    configured minimum notwithstanding: the minimum is kept only where
    it fits under that bound, and then the width is the larger of the
    container width and the minimum, cut at the bound. *)
Theorem calculateWidth_bounds (config : Config.t) (vp : Viewport) :
  calculateWidth config vp <= innerWidth vp * (9 / 10) /\
  calculateHeight config vp <= innerHeight vp * (7 / 10) /\
  (width (dimensions_min config) <= innerWidth vp * (9 / 10) ->
   width (dimensions_min config) <= calculateWidth config vp) /\
  (innerWidth vp * (9 / 10) < width (dimensions_min config) ->
   calculateWidth config vp = innerWidth vp * (9 / 10)
   /\ calculateWidth config vp < width (dimensions_min config)).
Proof.
  unfold calculateWidth, calculateHeight.
  split; [ apply Rmin_r | ]. split; [ apply Rmin_r | ]. split.
  - intros H. apply Rmin_glb; [ apply Rmax_r | exact H ].
  - intros H.
    assert (E : Rmin (Rmax (width (rect vp)) (width (dimensions_min config)))
                     (innerWidth vp * (9 / 10)) = innerWidth vp * (9 / 10)).
    { apply Rmin_right.
      pose proof (Rmax_r (width (rect vp)) (width (dimensions_min config))).
      lra. }
    rewrite E. split; [ reflexivity | exact H ].
Qed.

(** The fluid text size, for breakpoints [small < large] and sizes
    [minSize <= maxSize]: it stays between the two sizes, is the
    minimum up to the small breakpoint, the maximum from the large
    breakpoint on, and never decreases as the container widens. *)
Theorem calculateFluidSize_clamped (config : Config.t) (vp vp' : Viewport)
    (minSize maxSize : R) :
  breakpoint_small config < breakpoint_large config ->
  minSize <= maxSize ->
  minSize <= calculateFluidSize config vp minSize maxSize <= maxSize /\
  (width (rect vp) <= breakpoint_small config ->
   calculateFluidSize config vp minSize maxSize = minSize) /\
  (breakpoint_large config <= width (rect vp) ->
   calculateFluidSize config vp minSize maxSize = maxSize) /\
  (width (rect vp) <= width (rect vp') ->
   calculateFluidSize config vp minSize maxSize
     <= calculateFluidSize config vp' minSize maxSize).
Proof.
  intros Hbp Hsz. unfold calculateFluidSize.
  set (span := breakpoint_large config - breakpoint_small config).
  assert (Hspan : 0 < span) by (unfold span; lra).
  set (slope := (maxSize - minSize) / span).
  assert (Hslope : 0 <= slope).
  { unfold slope. apply Rmult_le_pos; [ lra | ].
    left. apply Rinv_0_lt_compat. exact Hspan. }
  assert (Hfull : slope * span = maxSize - minSize).
  { unfold slope. field. lra. }
  split; [ | split; [ | split ] ].
  - split.
    + apply Rmin_glb; [ exact Hsz | apply Rmax_l ].
    + apply Rmin_l.
  - intros Hw. rewrite Rmax_left by nra. apply Rmin_right. exact Hsz.
  - intros Hw.
    assert (Hge : maxSize
                  <= minSize + slope * (width (rect vp) - breakpoint_small config)).
    { unfold span in Hfull. nra. }
    rewrite Rmax_right by lra. apply Rmin_left. exact Hge.
  - intros Hw.
    apply Rmin_glb; [ apply Rmin_l | ].
    eapply Rle_trans; [ apply Rmin_r | ].
    apply Rmax_lub; [ apply Rmax_l | ].
    eapply Rle_trans; [ | apply Rmax_r ]. nra.
Qed.

Lemma calculateFluidSize_clamped_witness :
  breakpoint_small DEFAULT_CONFIG < breakpoint_large DEFAULT_CONFIG /\
  14 <= 18 /\
  calculateFluidSize DEFAULT_CONFIG (viewport_of_width 1440) 14 18 = 18.
Proof.
  assert (H1 : breakpoint_small DEFAULT_CONFIG < breakpoint_large DEFAULT_CONFIG)
    by (simpl; lra).
  assert (H2 : 14 <= 18) by lra.
  split; [ exact H1 | ]. split; [ exact H2 | ].
  apply (proj1 (proj2 (proj2 (@calculateFluidSize_clamped DEFAULT_CONFIG
                                (viewport_of_width 1440)
                                (viewport_of_width 1440) 14 18 H1 H2)))).
  simpl. lra.
Defined.

End Dimensions.

(* ================================================================== *)
(** ** Further facts about state/CacheManager.js *)
(* ================================================================== *)

Section PreloadQueue.

Open Scope Z_scope.
Import CacheManager.

Variable Content : Type.
Variable config : Config.t.

Lemma set_has_in (k : string) (s : JsSet.t) :
  JsSet.has k s = true <-> In k s.
Proof.
  unfold JsSet.has. rewrite existsb_exists. split.
  - intros (x & Hx & E). apply String.eqb_eq in E. subst. exact Hx.
  - intros H. exists k. split; [ exact H | apply String.eqb_refl ].
Qed.

Lemma set_add_absent (k : string) (s : JsSet.t) :
  ~ In k s -> JsSet.add k s = s ++ [k].
Proof.
  intros H. unfold JsSet.add.
  destruct (JsSet.has k s) eqn:E; [ | reflexivity ].
  apply set_has_in in E. contradiction.
Qed.

Lemma getBatch_loop_prefix (batchSize : Z) (queue : list string) :
  forall (batch : JsSet.t) (count : Z),
    NoDup (batch ++ queue) -> 0 <= count ->
    getBatch_loop batchSize queue batch count
      = batch ++ firstn (Z.to_nat (batchSize - count)) queue.
Proof.
  induction queue as [ | id rest IH]; intros batch count Hnd Hc; simpl.
  - rewrite firstn_nil, app_nil_r. reflexivity.
  - destruct (Z.geb_spec count batchSize) as [Hge | Hlt].
    + replace (Z.to_nat (batchSize - count)) with 0%nat by lia.
      simpl. rewrite app_nil_r. reflexivity.
    + assert (Hnot : ~ In id batch).
      { intros Hin. apply NoDup_remove_2 in Hnd. apply Hnd.
        apply in_or_app. left; exact Hin. }
      rewrite (@set_add_absent _ _ Hnot), IH.
      * replace (Z.to_nat (batchSize - count))
          with (S (Z.to_nat (batchSize - (count + 1)))) by lia.
        simpl. rewrite <- app_assoc. reflexivity.
      * rewrite <- app_assoc. exact Hnd.
      * lia.
Qed.

(** getBatch takes the first [batchSize] ids of the queue, in queue
    order, or the whole queue when it is shorter; a batch size of zero
    or less gives the empty batch. *)
Theorem getBatch_is_queue_prefix (m : t Content) :
  NoDup (preloadQueue m) ->
  getBatch config m
    = firstn (Z.to_nat (Config.performance_batchSize config)) (preloadQueue m) /\
  JsSet.size (getBatch config m)
    = Z.min (Z.max 0 (Config.performance_batchSize config))
            (JsSet.size (preloadQueue m)).
Proof.
  intros Hnd.
  assert (E : getBatch config m
              = firstn (Z.to_nat (Config.performance_batchSize config))
                       (preloadQueue m)).
  { unfold getBatch. rewrite getBatch_loop_prefix; [ | exact Hnd | lia ].
    rewrite Z.sub_0_r. reflexivity. }
  split; [ exact E | ]. rewrite E. unfold JsSet.size.
  rewrite length_firstn. lia.
Qed.

Lemma processPreloadQueue_queue (w : World Content) :
  preloadQueue (mgr (processPreloadQueue config w)) = preloadQueue (mgr w) /\
  cache (mgr (processPreloadQueue config w)) = cache (mgr w).
Proof.
  unfold processPreloadQueue.
  destruct (isLoading (mgr w) || (JsSet.size (preloadQueue (mgr w)) =? 0));
    [ auto | ].
  unfold loop_test.
  match goal with
  | |- context [if ?c then _ else _] => destruct c
  end.
  - match goal with
    | |- context [start_round ?b ?w0] =>
        pose proof (start_round_frame b w0) as [Hm _];
        destruct (start_round b w0) as [ps w1]
    end.
    simpl in *. rewrite Hm. auto.
  - simpl. auto.
Qed.

Lemma enqueue_spec (ids : list string) :
  forall m : t Content,
    NoDup (preloadQueue m) ->
    let m' :=
      fold_left
        (fun m id =>
           if negb (JsMap.has id (cache m))
              && negb (JsSet.has id (preloadQueue m))
           then with_preloadQueue (JsSet.add id (preloadQueue m)) m
           else m) ids m in
    cache m' = cache m /\ NoDup (preloadQueue m') /\
    (exists added,
        preloadQueue m' = preloadQueue m ++ added /\
        forall id, In id added ->
                   In id ids /\ JsMap.has id (cache m) = false) /\
    (forall id, In id ids -> JsMap.has id (cache m) = false ->
                In id (preloadQueue m')).
Proof.
  induction ids as [ | id ids IH]; intros m Hnd; cbn zeta.
  - simpl. split; [ reflexivity | ]. split; [ exact Hnd | ].
    split; [ exists []; rewrite app_nil_r; split; [ reflexivity | intros ? [] ] | ].
    intros ? [].
  - cbn [fold_left].
    destruct (JsMap.has id (cache m)) eqn:Ehas; cbn [negb andb].
    + destruct (IH m Hnd) as (Hc & Hn & (added & Hq & Hadd) & Hin).
      cbn zeta in Hc, Hn, Hq, Hin.
      split; [ exact Hc | ]. split; [ exact Hn | ]. split.
      * exists added. split; [ exact Hq | ].
        intros x Hx. destruct (Hadd x Hx). split; [ right | ]; assumption.
      * intros x [<- | Hx] Hx'; [ congruence | auto ].
    + destruct (JsSet.has id (preloadQueue m)) eqn:Eq; cbn [negb].
      * destruct (IH m Hnd) as (Hc & Hn & (added & Hq & Hadd) & Hin).
        cbn zeta in Hc, Hn, Hq, Hin.
        split; [ exact Hc | ]. split; [ exact Hn | ]. split.
        -- exists added. split; [ exact Hq | ].
           intros x Hx. destruct (Hadd x Hx). split; [ right | ]; assumption.
        -- intros x [<- | Hx] Hx'; [ | auto ].
           rewrite Hq. apply in_or_app. left. apply set_has_in. exact Eq.
      * assert (Hnot : ~ In id (preloadQueue m)).
        { intros H. apply set_has_in in H. congruence. }
        assert (Hnd' : NoDup (preloadQueue
                   (with_preloadQueue (JsSet.add id (preloadQueue m)) m))).
        { simpl. rewrite (@set_add_absent _ _ Hnot).
          apply NoDup_app; [ exact Hnd | constructor; [ intros [] | constructor ] | ].
          intros a Ha [<- | []]. contradiction. }
        destruct (IH _ Hnd') as (Hc & Hn & (added & Hq & Hadd) & Hin).
        cbn zeta in Hc, Hn, Hq, Hin. simpl in Hc, Hq, Hadd, Hin.
        split; [ exact Hc | ]. split; [ exact Hn | ]. split.
        -- exists (id :: added). split.
           ++ rewrite Hq, (@set_add_absent _ _ Hnot), <- app_assoc. reflexivity.
           ++ intros x [<- | Hx]; [ split; [ left; reflexivity | exact Ehas ] | ].
              destruct (Hadd x Hx). split; [ right | ]; assumption.
        -- intros x [<- | Hx] Hx'; [ | auto ].
           rewrite Hq. apply in_or_app. left.
           rewrite (@set_add_absent _ _ Hnot). apply in_or_app. right.
           left; reflexivity.
Qed.

(** preloadContent keeps the queue free of repetitions, leaves the ids
    already queued in their places, appends only ids it was given that
    are not cached, and after it every uncached id it was given is in
    the queue; the cache itself is not touched. *)
Theorem preloadContent_queue (ids : list string) (w : World Content) :
  NoDup (preloadQueue (mgr w)) ->
  let w' := preloadContent config ids w in
  cache (mgr w') = cache (mgr w) /\
  NoDup (preloadQueue (mgr w')) /\
  (exists added,
      preloadQueue (mgr w') = preloadQueue (mgr w) ++ added /\
      forall id, In id added ->
                 In id ids /\ JsMap.has id (cache (mgr w)) = false) /\
  (forall id, In id ids -> JsMap.has id (cache (mgr w)) = false ->
              In id (preloadQueue (mgr w'))).
Proof.
  intros Hnd. cbn zeta. unfold preloadContent.
  destruct (enqueue_spec ids (mgr w) Hnd) as (Hc & Hn & Hadd & Hin).
  cbn zeta in Hc, Hn, Hadd, Hin.
  match goal with
  | |- context [if ?c then processPreloadQueue config ?w1 else _] =>
      destruct c;
      [ destruct (processPreloadQueue_queue w1) as [-> ->] | ]
  end; simpl; auto.
Qed.

End PreloadQueue.

Section PreloadQueueScenarios.

Open Scope Z_scope.
Import CacheManager.

Lemma getBatch_is_queue_prefix_witness :
  let m := mgr (preloadContent small_config ["a"; "b"] (start string 0)) in
  NoDup (preloadQueue m) /\ getBatch small_config m = ["a"].
Proof.
  cbn zeta.
  assert (H : NoDup (preloadQueue
                       (mgr (preloadContent small_config ["a"; "b"]
                               (start string 0))))).
  { change (NoDup ["a"; "b"]).
    constructor; [ intros [E | []]; discriminate | ].
    constructor; [ intros [] | constructor ]. }
  split; [ exact H | ].
  exact (proj1 (@getBatch_is_queue_prefix string small_config _ H)).
Defined.

Lemma preloadContent_queue_witness :
  NoDup (preloadQueue (mgr (start string 0))) /\
  preloadQueue (mgr (preloadContent small_config ["a"; "b"; "a"]
                       (start string 0))) = ["a"; "b"] /\
  cache (mgr (preloadContent small_config ["a"; "b"; "a"] (start string 0)))
    = [].
Proof.
  assert (H : NoDup (preloadQueue (mgr (start string 0)))) by constructor.
  split; [ exact H | ]. split; [ reflexivity | ].
  exact (proj1 (@preloadContent_queue string small_config
                  ["a"; "b"; "a"] (start string 0) H)).
Defined.

End PreloadQueueScenarios.

Section CacheRoundTrips.

Open Scope Z_scope.
Import CacheManager.

Variable Content : Type.
Variable estimateSize : Content -> Z.
Variable config : Config.t.

Lemma set_absent_append (V : Type) (k : string) (v : V) (m : JsMap.t V) :
  JsMap.get k m = None -> JsMap.set k v m = m ++ [(k, v)].
Proof.
  induction m as [ | [k0 v0] m IH]; simpl; [ reflexivity | ].
  destruct (String.eqb k0 k); [ discriminate | ].
  intros H. rewrite (IH H). reflexivity.
Qed.

Lemma size_set_present (V : Type) (k : string) (v v' : V) (m : JsMap.t V) :
  JsMap.get k m = Some v' -> JsMap.size (JsMap.set k v m) = JsMap.size m.
Proof.
  intros H. unfold JsMap.size. f_equal.
  pose proof (keys_set_present k v m H) as E.
  apply (f_equal (@List.length string)) in E.
  unfold JsMap.keys in E. rewrite !length_map in E. exact E.
Qed.

Lemma get_filter_kept (V : Type) (f : string * V -> bool) (k : string)
    (m : JsMap.t V) :
  (forall e, In e m -> fst e = k -> f e = true) ->
  JsMap.get k (filter f m) = JsMap.get k m.
Proof.
  induction m as [ | [k0 v0] m IH]; intros H; simpl; [ reflexivity | ].
  destruct (f (k0, v0)) eqn:Ef; simpl.
  - destruct (String.eqb k0 k); [ reflexivity | ].
    apply IH. intros e He. apply H. right; exact He.
  - destruct (String.eqb_spec k0 k) as [E | E].
    + rewrite (H (k0, v0) (or_introl eq_refl) E) in Ef. discriminate.
    + apply IH. intros e He. apply H. right; exact He.
Qed.

Lemma set_stat_size (now : Z) (id : string) (c : Content) (m : t Content) :
  stat_size (stats (set estimateSize config now id c m))
    = JsMap.size (cache (set estimateSize config now id c m)).
Proof.
  unfold set.
  match goal with
  | |- context [shouldCleanup ?cfg ?n ?m2] =>
      destruct (shouldCleanup cfg n m2); [ | reflexivity ]
  end.
  unfold cleanup. cbn [cache with_stats with_cache].
  match goal with
  | |- context [if ?c then _ else _] => destruct c; reflexivity
  end.
Qed.

Lemma enqueue_frame (ids : list string) (m : t Content) :
  let m' :=
    fold_left
      (fun m id =>
         if negb (JsMap.has id (cache m))
            && negb (JsSet.has id (preloadQueue m))
         then with_preloadQueue (JsSet.add id (preloadQueue m)) m
         else m) ids m in
  cache m' = cache m /\ stats m' = stats m /\
  loadingPromises m' = loadingPromises m.
Proof.
  revert m. induction ids as [ | id ids IH]; intros m; cbn zeta;
    [ auto | ].
  cbn [fold_left].
  match goal with
  | |- context [fold_left _ ids ?m1] =>
      destruct (IH m1) as (E1 & E2 & E3); cbn zeta in E1, E2, E3;
      rewrite E1, E2, E3
  end.
  destruct (negb (JsMap.has id (cache m))
            && negb (JsSet.has id (preloadQueue m))); auto.
Qed.

Lemma loop_test_frame (b : JsSet.t) (w : World Content) :
  cache (mgr (loop_test b w)) = cache (mgr w) /\
  stats (mgr (loop_test b w)) = stats (mgr w) /\
  loadingPromises (mgr (loop_test b w)) = loadingPromises (mgr w) /\
  preloadQueue (mgr (loop_test b w)) = preloadQueue (mgr w).
Proof.
  unfold loop_test. destruct (JsSet.size b >? 0); [ | simpl; auto ].
  pose proof (start_round_frame b w) as [Hm _].
  destruct (start_round b w) as [ps w1]. simpl in *. rewrite Hm. auto.
Qed.

Lemma preloadContent_frame (ids : list string) (w : World Content) :
  cache (mgr (preloadContent config ids w)) = cache (mgr w) /\
  stats (mgr (preloadContent config ids w)) = stats (mgr w) /\
  loadingPromises (mgr (preloadContent config ids w))
    = loadingPromises (mgr w).
Proof.
  unfold preloadContent.
  destruct (enqueue_frame ids (mgr w)) as (E1 & E2 & E3).
  cbn zeta in E1, E2, E3.
  match goal with
  | |- context [if ?c then processPreloadQueue config ?w1 else _] =>
      destruct c; [ | simpl; auto ]; unfold processPreloadQueue;
      destruct (isLoading (mgr w1)
                || (JsSet.size (preloadQueue (mgr w1)) =? 0));
      [ simpl; auto | ]
  end.
  match goal with
  | |- context [loop_test ?b ?w2] =>
      destruct (loop_test_frame b w2) as (-> & -> & -> & _)
  end.
  simpl. auto.
Qed.

Lemma step_stat_size (e : event Content) (w w' : World Content) :
  stat_size (stats (mgr w)) = JsMap.size (cache (mgr w)) ->
  step estimateSize config e w = Some w' ->
  stat_size (stats (mgr w')) = JsMap.size (cache (mgr w')).
Proof.
  intros H Hstep.
  destruct e as [id now | p r now | ids | p r now | | ]; simpl in Hstep.
  - injection Hstep as <-. unfold get_call.
    destruct (JsMap.get id (loadingPromises (mgr w))); [ exact H | ].
    destruct (JsMap.get id (cache (mgr w))) as [cached | ] eqn:Ec; simpl.
    + rewrite (@size_set_present _ id _ cached _ Ec). exact H.
    + exact H.
  - unfold get_resume in Hstep.
    destruct (nth_error (fetches w) p) as [[fid [ | ] [ | ]] | ];
      try discriminate.
    injection Hstep as <-. simpl.
    destruct r as [c | ]; [ apply set_stat_size | exact H ].
  - injection Hstep as <-.
    destruct (preloadContent_frame ids w) as (-> & -> & _). exact H.
  - unfold preload_resume in Hstep.
    destruct (drain w) as [d | ]; [ | discriminate ].
    destruct (nth_error (fetches w) p) as [[fid [ | ] [ | ]] | ];
      try discriminate.
    injection Hstep as <-. simpl.
    destruct r as [c | ]; [ apply set_stat_size | exact H ].
  - unfold batch_done in Hstep.
    destruct (drain w) as [[b [ | q qs] [ | ]] | ]; try discriminate.
    destruct (JsSet.size (preloadQueue (mgr w)) >? 0);
      injection Hstep as <-; [ exact H | ].
    destruct (loop_test_frame b w) as (-> & -> & _). exact H.
  - unfold delay_elapsed in Hstep.
    destruct (drain w) as [[b [ | q qs] [ | ]] | ]; try discriminate.
    injection Hstep as <-.
    destruct (loop_test_frame b w) as (-> & -> & _). exact H.
Qed.

(** The [size] statistic is always the number of cached entries:
    whatever calls, settlements and preload rounds a fresh cache has
    gone through, [stats.size] equals [cache.size]. *)
Theorem stats_size_is_cache_size (es : list (event Content)) (t0 : Z)
    (w : World Content) :
  run estimateSize config es (start Content t0) = Some w ->
  stat_size (stats (mgr w)) = JsMap.size (cache (mgr w)).
Proof.
  assert (G : forall es w0 w1,
             stat_size (stats (mgr w0)) = JsMap.size (cache (mgr w0)) ->
             run estimateSize config es w0 = Some w1 ->
             stat_size (stats (mgr w1)) = JsMap.size (cache (mgr w1))).
  { clear. induction es as [ | e es IH]; intros w0 w1 H Hrun; simpl in Hrun.
    - injection Hrun as <-. exact H.
    - destruct (step estimateSize config e w0) as [w2 | ] eqn:Es;
        [ | discriminate ].
      eapply IH; [ | exact Hrun ]. eapply step_stat_size; eauto. }
  intros Hrun. eapply G; [ | exact Hrun ]. reflexivity.
Qed.

Lemma length_settle (p : nat) (fs : list (Fetch)) :
  List.length (settle p fs) = List.length fs.
Proof.
  revert p. induction fs as [ | f fs IH]; intros p;
    [ destruct p; reflexivity | ].
  destruct p as [ | p]; simpl; [ reflexivity | ]. rewrite IH. reflexivity.
Qed.

Lemma insert_entry_append (x e : string * Entry Content)
    (sorted : list (string * Entry Content)) :
  lastAccessed (snd x) <= lastAccessed (snd e) ->
  insert_entry x (sorted ++ [e]) = insert_entry x sorted ++ [e].
Proof.
  intros Hle. induction sorted as [ | y sorted IH]; simpl.
  - destruct (Z.leb_spec (lastAccessed (snd x) - lastAccessed (snd e)) 0);
      [ reflexivity | lia ].
  - destruct (lastAccessed (snd x) - lastAccessed (snd y) <=? 0);
      [ reflexivity | ].
    rewrite IH. reflexivity.
Qed.

Lemma sort_entries_append (e : string * Entry Content)
    (l : list (string * Entry Content)) :
  (forall x, In x l -> lastAccessed (snd x) <= lastAccessed (snd e)) ->
  sort_entries (l ++ [e]) = sort_entries l ++ [e].
Proof.
  induction l as [ | x l IH]; intros H; [ reflexivity | ].
  change (sort_entries ((x :: l) ++ [e]))
    with (insert_entry x (sort_entries (l ++ [e]))).
  rewrite IH by (intros y Hy; apply H; right; exact Hy).
  change (sort_entries (x :: l)) with (insert_entry x (sort_entries l)).
  apply insert_entry_append. apply H. left; reflexivity.
Qed.

Lemma set_keeps_new_entry (now : Z) (id : string) (c : Content)
    (m : t Content) :
  1 <= Config.cache_maxSize config ->
  JsMap.size (cache m) <= Config.cache_maxSize config ->
  (forall e, In e (cache m) -> lastAccessed (snd e) <= now) ->
  JsMap.get id (cache (set estimateSize config now id c m))
    = Some {| content := c; added := now; lastAccessed := now;
              size := estimateSize c |}.
Proof.
  intros Hmax Hsize Hclock. unfold set.
  set (entry := {| content := c; added := now; lastAccessed := now;
                   size := estimateSize c |}).
  match goal with
  | |- context [shouldCleanup ?cfg ?n ?m2] =>
      destruct (shouldCleanup cfg n m2);
      [ | cbn [cache with_stats with_cache]; apply get_set_same ]
  end.
  unfold cleanup. cbn [cache with_stats with_cache].
  destruct (Z.leb_spec (JsMap.size (JsMap.set id entry (cache m)))
                       (Config.cache_maxSize config)) as [Hle | Hover].
  - cbn [cache with_stats with_cache]. apply get_set_same.
  - destruct (JsMap.get id (cache m)) as [old | ] eqn:Eold.
    + rewrite (@size_set_present _ id entry old (cache m) Eold) in Hover. lia.
    + rewrite (set_absent_append id entry (cache m) Eold) in *.
      assert (Hlen : JsMap.size (cache m ++ [(id, entry)])
                     = JsMap.size (cache m) + 1).
      { unfold JsMap.size. rewrite length_app. simpl. lia. }
      replace (JsMap.size (cache m ++ [(id, entry)])
               - Config.cache_maxSize config) with 1 by lia.
      unfold slice0. cbn [Z.ltb Z.compare Z.to_nat Pos.to_nat Pos.iter_op
                          Nat.add].
      rewrite sort_entries_append
        by (intros x Hx; simpl; apply Hclock; exact Hx).
      destruct (sort_entries (cache m)) as [ | e0 sorted] eqn:Es.
      { pose proof (Permutation_length (sort_entries_perm (cache m))) as Hp.
        rewrite Es in Hp. unfold JsMap.size in *. simpl in Hp. lia. }
      change (PosDef.Pos.to_nat 1) with 1%nat.
      cbn [app firstn].
      match goal with
      | |- context [fold_left ?f [e0] ?m0] =>
          change (fold_left f [e0] m0)
            with (with_cache (JsMap.delete (fst e0) (cache m0)) m0)
      end.
      cbn [cache with_stats with_cache].
      unfold JsMap.delete. rewrite get_filter_kept.
      * rewrite <- (set_absent_append id entry (cache m) Eold).
        apply get_set_same.
      * intros e _ Hkey. apply negb_true_iff.
        apply String.eqb_neq. rewrite Hkey. intros E.
        apply (get_not_in_keys _ _ Eold). rewrite E.
        unfold JsMap.keys. apply in_map.
        eapply Permutation_in; [ apply sort_entries_perm | ].
        rewrite Es. left; reflexivity.
Qed.

(** A stored payload can be read back: with room for at least one
    entry, a cache within its capacity and a clock that has not run
    backwards, [set(id, content)] leaves [id] cached with that content,
    whatever it had to evict, and a following [get(id)], when no
    promise is stored for [id], returns that content. *)
Theorem set_then_get (now later : Z) (id : string) (c : Content)
    (w : World Content) :
  1 <= Config.cache_maxSize config ->
  JsMap.size (cache (mgr w)) <= Config.cache_maxSize config ->
  (forall e, In e (cache (mgr w)) -> lastAccessed (snd e) <= now) ->
  JsMap.get id (loadingPromises (mgr w)) = None ->
  let w' := {| mgr := set estimateSize config now id c (mgr w);
               fetches := fetches w; drain := drain w |} in
  JsMap.get id (cache (mgr w'))
    = Some {| content := c; added := now; lastAccessed := now;
              size := estimateSize c |} /\
  fst (get_call later id w') = Hit c.
Proof.
  intros Hmax Hsize Hclock Hload. cbn zeta.
  pose proof (@set_keeps_new_entry now id c (mgr w) Hmax Hsize Hclock) as Hget.
  split; [ exact Hget | ].
  unfold get_call. cbn [mgr].
  destruct (set_frame estimateSize config now id c (mgr w)) as (_ & _ & ->).
  rewrite Hload, Hget. reflexivity.
Qed.

(** A miss that ends well is a hit next time: when [get(id)] misses and
    its fetch brings the content, the content is cached, the promise is
    forgotten, and the next [get(id)] returns the content without a
    fetch.  Conditions as for [set]. *)
Theorem get_miss_then_hit (t1 t2 t3 : Z) (id : string) (c : Content)
    (w : World Content) :
  1 <= Config.cache_maxSize config ->
  JsMap.size (cache (mgr w)) <= Config.cache_maxSize config ->
  (forall e, In e (cache (mgr w)) -> lastAccessed (snd e) <= t2) ->
  JsMap.get id (loadingPromises (mgr w)) = None ->
  JsMap.get id (cache (mgr w)) = None ->
  let p := List.length (fetches w) in
  let w1 := snd (get_call t1 id w) in
  exists w2,
    get_resume estimateSize config t2 p (Some c) w1 = Some w2 /\
    JsMap.get id (loadingPromises (mgr w2)) = None /\
    fst (get_call t3 id w2) = Hit c /\
    fetches (snd (get_call t3 id w2)) = fetches w2 /\
    List.length (fetches w2) = S p.
Proof.
  intros Hmax Hsize Hclock Hload Hcache p w1.
  assert (E1 : w1 =
      {| mgr := with_loadingPromises
                  (JsMap.set id p (loadingPromises (mgr w)))
                  (with_stats {| hits := hits (stats (mgr w));
                                 misses := misses (stats (mgr w)) + 1;
                                 stat_size := stat_size (stats (mgr w));
                                 lastCleanup := lastCleanup (stats (mgr w)) |}
                              (mgr w));
         fetches := fetches w ++ [ {| f_id := id; f_origin := ByGet;
                                      f_pending := true |} ];
         drain := drain w |}).
  { unfold w1, get_call. rewrite Hload, Hcache. reflexivity. }
  rewrite E1. unfold get_resume. cbn [fetches mgr].
  rewrite nth_error_app2 by (unfold p; lia).
  replace (p - List.length (fetches w))%nat with 0%nat by (unfold p; lia).
  cbn [nth_error].
  eexists. split; [ reflexivity | ].
  match goal with
  | |- context [set estimateSize config t2 id c ?m1] =>
      pose proof (@set_keeps_new_entry t2 id c m1 Hmax Hsize Hclock) as Hget;
      destruct (set_frame estimateSize config t2 id c m1) as (_ & _ & Hlp)
  end.
  assert (Hnone : JsMap.get id
            (JsMap.delete id
               (loadingPromises
                  (set estimateSize config t2 id c
                     (with_loadingPromises
                        (JsMap.set id p (loadingPromises (mgr w)))
                        (with_stats
                           {| hits := hits (stats (mgr w));
                              misses := misses (stats (mgr w)) + 1;
                              stat_size := stat_size (stats (mgr w));
                              lastCleanup := lastCleanup (stats (mgr w)) |}
                           (mgr w)))))) = None).
  { rewrite get_delete, String.eqb_refl. reflexivity. }
  split; [ exact Hnone | ].
  unfold get_call. cbn [mgr loadingPromises with_loadingPromises cache].
  cbn [mgr loadingPromises with_loadingPromises cache] in Hnone.
  rewrite Hnone, Hget. cbn [fst snd fetches].
  split; [ reflexivity | ]. split; [ reflexivity | ].
  rewrite length_settle, length_app. simpl. unfold p. lia.
Qed.

(** A miss that ends badly is forgotten: when the fetch of [get(id)]
    fails, the cache is as it was, no promise is left for [id], and the
    next [get(id)] starts a new fetch. *)
Theorem get_failure_not_remembered (t1 t2 t3 : Z) (id : string)
    (w : World Content) :
  JsMap.get id (loadingPromises (mgr w)) = None ->
  JsMap.get id (cache (mgr w)) = None ->
  let p := List.length (fetches w) in
  let w1 := snd (get_call t1 id w) in
  exists w2,
    get_resume estimateSize config t2 p None w1 = Some w2 /\
    cache (mgr w2) = cache (mgr w) /\
    JsMap.get id (loadingPromises (mgr w2)) = None /\
    fst (get_call t3 id w2) = Fetching Content (S p).
Proof.
  intros Hload Hcache p w1.
  assert (E1 : w1 =
      {| mgr := with_loadingPromises
                  (JsMap.set id p (loadingPromises (mgr w)))
                  (with_stats {| hits := hits (stats (mgr w));
                                 misses := misses (stats (mgr w)) + 1;
                                 stat_size := stat_size (stats (mgr w));
                                 lastCleanup := lastCleanup (stats (mgr w)) |}
                              (mgr w));
         fetches := fetches w ++ [ {| f_id := id; f_origin := ByGet;
                                      f_pending := true |} ];
         drain := drain w |}).
  { unfold w1, get_call. rewrite Hload, Hcache. reflexivity. }
  rewrite E1. unfold get_resume. cbn [fetches mgr].
  rewrite nth_error_app2 by (unfold p; lia).
  replace (p - List.length (fetches w))%nat with 0%nat by (unfold p; lia).
  cbn [nth_error].
  eexists. split; [ reflexivity | ].
  cbn [mgr cache with_loadingPromises with_stats loadingPromises].
  split; [ reflexivity | ].
  assert (Hnone : JsMap.get id
            (JsMap.delete id (JsMap.set id p (loadingPromises (mgr w))))
            = None).
  { rewrite get_delete, String.eqb_refl. reflexivity. }
  split; [ exact Hnone | ].
  unfold get_call.
  cbn [mgr cache with_loadingPromises with_stats loadingPromises fetches].
  rewrite Hnone, Hcache. cbn [fst fetchContent fetches].
  f_equal. rewrite length_settle, length_app. simpl. unfold p. lia.
Qed.

(** [clear()] does not cancel a request in flight: when the fetch of an
    earlier [get(id)] brings its content after the cache was cleared,
    the content is stored, and it is then the only entry. *)
Theorem clear_keeps_fetch_in_flight (t1 t2 : Z) (p : nat) (id : string)
    (c : Content) (w : World Content) :
  1 <= Config.cache_maxSize config ->
  nth_error (fetches w) p
    = Some {| f_id := id; f_origin := ByGet; f_pending := true |} ->
  exists w2,
    get_resume estimateSize config t2 p (Some c) (clear t1 w) = Some w2 /\
    JsMap.keys (cache (mgr w2)) = [id] /\
    JsMap.get id (cache (mgr w2))
      = Some {| content := c; added := t2; lastAccessed := t2;
                size := estimateSize c |}.
Proof.
  intros Hmax Hp. unfold get_resume, clear. cbn [fetches mgr]. rewrite Hp.
  eexists. split; [ reflexivity | ].
  cbn [mgr cache with_loadingPromises].
  unfold set. cbn [cache with_cache with_stats JsMap.set].
  match goal with
  | |- context [shouldCleanup ?cfg ?n ?m2] =>
      destruct (shouldCleanup cfg n m2)
  end.
  - unfold cleanup. cbn [cache with_cache with_stats].
    destruct (Z.leb_spec (JsMap.size [(id, {| content := c; added := t2;
                                              lastAccessed := t2;
                                              size := estimateSize c |})])
                         (Config.cache_maxSize config)) as [_ | H].
    + cbn. rewrite String.eqb_refl. split; reflexivity.
    + unfold JsMap.size in H. simpl in H. lia.
  - cbn. rewrite String.eqb_refl. split; reflexivity.
Qed.

End CacheRoundTrips.

Section CacheScenarios.

Open Scope Z_scope.
Import CacheManager.

Lemma stats_size_is_cache_size_witness :
  exists w,
    run markup_size small_config
        [Get string "a" 0; GetFetchSettled 0 (Some "<p>a</p>") 1;
         Get string "b" 2; GetFetchSettled 1 (Some "<p>b</p>") 3;
         Get string "c" 4; GetFetchSettled 2 (Some "<p>c</p>") 5]
        (start string 0) = Some w /\
    stat_size (stats (mgr w)) = JsMap.size (cache (mgr w)).
Proof.
  assert (H : exists w,
    run markup_size small_config
        [Get string "a" 0; GetFetchSettled 0 (Some "<p>a</p>") 1;
         Get string "b" 2; GetFetchSettled 1 (Some "<p>b</p>") 3;
         Get string "c" 4; GetFetchSettled 2 (Some "<p>c</p>") 5]
        (start string 0) = Some w)
    by (eexists; vm_compute; reflexivity).
  destruct H as [w H]. exists w. split; [ exact H | ].
  exact (@stats_size_is_cache_size string markup_size small_config _ 0 w H).
Defined.

Lemma set_then_get_witness :
  let w := start string 0 in
  let w' := {| mgr := set markup_size small_config 5 "a" "<p>a</p>" (mgr w);
               fetches := fetches w; drain := drain w |} in
  1 <= Config.cache_maxSize small_config /\
  JsMap.size (cache (mgr w)) <= Config.cache_maxSize small_config /\
  JsMap.get "a" (loadingPromises (mgr w)) = None /\
  fst (get_call 6 "a" w') = Hit "<p>a</p>".
Proof.
  cbn zeta.
  assert (Hmax : 1 <= Config.cache_maxSize small_config)
    by (vm_compute; discriminate).
  assert (Hsize : JsMap.size (cache (mgr (start string 0)))
                  <= Config.cache_maxSize small_config)
    by (vm_compute; discriminate).
  assert (Hclock : forall e, In e (cache (mgr (start string 0))) ->
                             lastAccessed (snd e) <= 5)
    by (intros e []).
  assert (Hload : JsMap.get "a" (loadingPromises (mgr (start string 0)))
                  = None) by reflexivity.
  split; [ exact Hmax | ]. split; [ exact Hsize | ].
  split; [ exact Hload | ].
  exact (proj2 (@set_then_get string markup_size small_config 5 6 "a"
                  "<p>a</p>" (start string 0) Hmax Hsize Hclock Hload)).
Defined.

Lemma get_miss_then_hit_witness :
  let w := start string 0 in
  1 <= Config.cache_maxSize small_config /\
  JsMap.get "a" (cache (mgr w)) = None /\
  exists w2,
    get_resume markup_size small_config 2 0 (Some "<p>a</p>")
               (snd (get_call 1 "a" w)) = Some w2 /\
    JsMap.get "a" (loadingPromises (mgr w2)) = None /\
    fst (get_call 3 "a" w2) = Hit "<p>a</p>" /\
    fetches (snd (get_call 3 "a" w2)) = fetches w2 /\
    List.length (fetches w2) = 1%nat.
Proof.
  cbn zeta.
  assert (Hmax : 1 <= Config.cache_maxSize small_config)
    by (vm_compute; discriminate).
  assert (Hsize : JsMap.size (cache (mgr (start string 0)))
                  <= Config.cache_maxSize small_config)
    by (vm_compute; discriminate).
  assert (Hclock : forall e, In e (cache (mgr (start string 0))) ->
                             lastAccessed (snd e) <= 2)
    by (intros e []).
  assert (Hload : JsMap.get "a" (loadingPromises (mgr (start string 0)))
                  = None) by reflexivity.
  assert (Hcache : JsMap.get "a" (cache (mgr (start string 0))) = None)
    by reflexivity.
  split; [ exact Hmax | ]. split; [ exact Hcache | ].
  exact (@get_miss_then_hit string markup_size small_config 1 2 3 "a"
           "<p>a</p>" (start string 0) Hmax Hsize Hclock Hload Hcache).
Defined.

Lemma get_failure_not_remembered_witness :
  let w := start string 0 in
  JsMap.get "a" (loadingPromises (mgr w)) = None /\
  JsMap.get "a" (cache (mgr w)) = None /\
  exists w2,
    get_resume markup_size small_config 2 0 None (snd (get_call 1 "a" w))
      = Some w2 /\
    cache (mgr w2) = cache (mgr w) /\
    JsMap.get "a" (loadingPromises (mgr w2)) = None /\
    fst (get_call 3 "a" w2) = Fetching string 1.
Proof.
  cbn zeta.
  assert (Hload : JsMap.get "a" (loadingPromises (mgr (start string 0)))
                  = None) by reflexivity.
  assert (Hcache : JsMap.get "a" (cache (mgr (start string 0))) = None)
    by reflexivity.
  split; [ exact Hload | ]. split; [ exact Hcache | ].
  exact (@get_failure_not_remembered string markup_size small_config 1 2 3
           "a" (start string 0) Hload Hcache).
Defined.

Lemma clear_keeps_fetch_in_flight_witness :
  let w := snd (get_call 1 "a" (start string 0)) in
  1 <= Config.cache_maxSize small_config /\
  nth_error (fetches w) 0
    = Some {| f_id := "a"; f_origin := ByGet; f_pending := true |} /\
  cache (mgr (clear 2 w)) = [] /\
  exists w2,
    get_resume markup_size small_config 3 0 (Some "<p>a</p>") (clear 2 w)
      = Some w2 /\
    JsMap.keys (cache (mgr w2)) = ["a"] /\
    JsMap.get "a" (cache (mgr w2))
      = Some {| content := "<p>a</p>"; added := 3; lastAccessed := 3;
                size := markup_size "<p>a</p>" |}.
Proof.
  cbn zeta.
  assert (Hmax : 1 <= Config.cache_maxSize small_config)
    by (vm_compute; discriminate).
  assert (Hp : nth_error (fetches (snd (get_call 1 "a" (start string 0)))) 0
               = Some {| f_id := "a"; f_origin := ByGet;
                         f_pending := true |}) by reflexivity.
  split; [ exact Hmax | ]. split; [ exact Hp | ].
  split; [ reflexivity | ].
  exact (@clear_keeps_fetch_in_flight string markup_size small_config 2 3 0
           "a" "<p>a</p>" (snd (get_call 1 "a" (start string 0))) Hmax Hp).
Defined.

End CacheScenarios.

(* ================================================================== *)
(** ** The zoom handlers *)
(* ================================================================== *)

Section Zoom.

Open Scope R_scope.
Import Controls.

Lemma updateZoom_zoom (newZoom : R) (c : t) :
  currentZoom (updateZoom newZoom c) = newZoom.
Proof.
  unfold updateZoom. destruct (Req_dec_T newZoom (currentZoom c)) as [E | _];
    [ symmetry; exact E | reflexivity ].
Qed.

Lemma step_zoom (config : ZoomConfig) (c : t) (a : action) :
  currentZoom (step config c a) = currentZoom c \/
  (a = ZoomIn /\
   currentZoom (step config c a)
     = Rmin (currentZoom c * zoom_step config) (zoom_max config)) \/
  (a = ZoomOut /\
   currentZoom (step config c a)
     = Rmax (currentZoom c / zoom_step config) (zoom_min config)) \/
  (a = Reset /\ currentZoom (step config c a) = 1).
Proof.
  destruct a; cbn [step].
  - unfold handleZoomIn. destruct (isZooming c); [ left; reflexivity | ].
    right; left. split; [ reflexivity | apply updateZoom_zoom ].
  - unfold handleZoomOut. destruct (isZooming c); [ left; reflexivity | ].
    right; right; left. split; [ reflexivity | apply updateZoom_zoom ].
  - unfold handleReset. destruct (isZooming c); [ left; reflexivity | ].
    right; right; right. split; [ reflexivity | apply updateZoom_zoom ].
  - left. reflexivity.
Qed.

Lemma run_in_range (config : ZoomConfig) (actions : list action) (c : t) :
  zoom_min config <= 1 <= zoom_max config ->
  1 <= zoom_step config ->
  0 < currentZoom c ->
  zoom_min config <= currentZoom c <= zoom_max config ->
  zoom_min config <= currentZoom (run config actions c) <= zoom_max config.
Proof.
  intros Hone Hstep. revert c.
  induction actions as [ | a actions IH]; intros c Hpos Hin;
    [ exact Hin | ].
  change (run config (a :: actions) c)
    with (run config actions (step config c a)).
  assert (Hinv : 0 < / zoom_step config <= 1).
  { split; [ apply Rinv_0_lt_compat; lra | ].
    rewrite <- Rinv_1. apply Rinv_le_contravar; lra. }
  assert (Hup : currentZoom c <= currentZoom c * zoom_step config) by nra.
  assert (Hdown : 0 < currentZoom c / zoom_step config <= currentZoom c).
  { unfold Rdiv. split; nra. }
  destruct (step_zoom config c a)
    as [E | [[_ E] | [[_ E] | [_ E]]]]; apply IH; rewrite E;
    try assumption; try lra.
  - apply Rmin_glb_lt; lra.
  - split; [ apply Rmin_glb; lra | apply Rmin_r ].
  - eapply Rlt_le_trans; [ apply Hdown | apply Rmax_l ].
  - split; [ apply Rmax_r | apply Rmax_lub; lra ].
Qed.

(** With a step of at least 1 and bounds around 1, the zoom never
    leaves [zoom.min .. zoom.max], whatever buttons are pressed and
    whenever the animations end. *)
Theorem zoom_stays_in_range (config : ZoomConfig) (actions : list action) :
  zoom_min config <= 1 <= zoom_max config ->
  1 <= zoom_step config ->
  zoom_min config <= currentZoom (run config actions initial)
    <= zoom_max config.
Proof.
  intros Hone Hstep. apply run_in_range; try assumption; simpl; lra.
Qed.

Lemma zoom_stays_in_range_witness :
  let config := {| zoom_min := 5 / 10; zoom_max := 3; zoom_step := 2 |} in
  zoom_min config <= 1 <= zoom_max config /\
  1 <= zoom_step config /\
  zoom_min config
    <= currentZoom (run config [ZoomIn; AnimationDone; ZoomIn; AnimationDone;
                                ZoomOut] initial)
    <= zoom_max config.
Proof.
  cbn zeta.
  assert (H1 : 5 / 10 <= 1 <= 3) by lra.
  assert (H2 : 1 <= 2) by lra.
  split; [ exact H1 | ]. split; [ exact H2 | ].
  exact (zoom_stays_in_range
           {| zoom_min := 5 / 10; zoom_max := 3; zoom_step := 2 |}
           [ZoomIn; AnimationDone; ZoomIn; AnimationDone; ZoomOut] H1 H2).
Defined.

(** The step multiplies on the way in and divides on the way out, so
    with a step below 1, as in the default configuration, the buttons
    work backwards: "zoom in" lowers the zoom and "zoom out" raises it.
    The lowered zoom is not held at [zoom.min], nor the raised one at
    [zoom.max]. *)
Theorem zoom_step_below_one_inverts (config : ZoomConfig) (c : t) :
  0 < zoom_step config < 1 ->
  isZooming c = false ->
  0 < currentZoom c ->
  currentZoom (handleZoomIn config c) < currentZoom c /\
  currentZoom (handleZoomIn config c) <= currentZoom c * zoom_step config /\
  currentZoom c < currentZoom (handleZoomOut config c) /\
  currentZoom c / zoom_step config <= currentZoom (handleZoomOut config c).
Proof.
  intros Hstep Hidle Hpos.
  unfold handleZoomIn, handleZoomOut. rewrite Hidle, !updateZoom_zoom.
  assert (Hin : currentZoom c * zoom_step config < currentZoom c) by nra.
  assert (Hout : currentZoom c < currentZoom c / zoom_step config).
  { unfold Rdiv.
    assert (1 < / zoom_step config).
    { rewrite <- Rinv_1. apply Rinv_lt_contravar; lra. }
    nra. }
  pose proof (Rmin_l (currentZoom c * zoom_step config) (zoom_max config)).
  pose proof (Rmax_l (currentZoom c / zoom_step config) (zoom_min config)).
  repeat split; lra.
Qed.

Lemma zoom_step_below_one_inverts_witness :
  0 < zoom_step DEFAULT_ZOOM < 1 /\
  currentZoom (handleZoomIn DEFAULT_ZOOM initial) < zoom_min DEFAULT_ZOOM /\
  zoom_max DEFAULT_ZOOM < currentZoom (handleZoomOut DEFAULT_ZOOM initial).
Proof.
  assert (Hstep : 0 < zoom_step DEFAULT_ZOOM < 1) by (simpl; lra).
  assert (Hidle : isZooming initial = false) by reflexivity.
  assert (Hpos : 0 < currentZoom initial) by (simpl; lra).
  destruct (zoom_step_below_one_inverts DEFAULT_ZOOM initial Hstep Hidle Hpos)
    as (_ & Hin & _ & Hout).
  split; [ exact Hstep | ].
  simpl in Hin, Hout |- *. split; lra.
Defined.

End Zoom.

(* ================================================================== *)
(** ** Validation of the merged configuration *)
(* ================================================================== *)

Section MergedConfig.

Import ConfigObject.

Variable V : Type.

Lemma has_set (k k' : string) (v : V) (o : JsMap.t V) :
  JsMap.has k' (JsMap.set k v o)
    = (String.eqb k k' || JsMap.has k' o)%bool.
Proof.
  unfold JsMap.has. destruct (String.eqb_spec k k') as [-> | Hne].
  - rewrite get_set_same. reflexivity.
  - rewrite get_set_other by congruence. reflexivity.
Qed.

Lemma has_assign (k : string) (props : list (string * V)) (o : JsMap.t V) :
  JsMap.has k (fold_left (fun o kv => JsMap.set (fst kv) (snd kv) o) props o)
    = (JsMap.has k o || existsb (fun kv => String.eqb (fst kv) k) props)%bool.
Proof.
  revert o. induction props as [ | [k0 v0] props IH]; intros o; simpl.
  - rewrite orb_false_r. reflexivity.
  - rewrite IH, has_set. simpl.
    destruct (String.eqb k0 k), (JsMap.has k o); reflexivity.
Qed.

Lemma get_assign_absent (k : string) (props : list (string * V))
    (o : JsMap.t V) :
  ~ In k (map fst props) ->
  JsMap.get k
    (fold_left (fun o kv => JsMap.set (fst kv) (snd kv) o) props o)
    = JsMap.get k o.
Proof.
  revert o. induction props as [ | [k0 v0] props IH]; intros o Hnot;
    [ reflexivity | ].
  simpl in Hnot |- *. rewrite IH by tauto.
  apply get_set_other. intros E. apply Hnot. left. symmetry. exact E.
Qed.

Lemma get_assign_last (k : string) (v : V) (props : list (string * V))
    (o : JsMap.t V) :
  NoDup (map fst props) ->
  In (k, v) props ->
  JsMap.get k
    (fold_left (fun o kv => JsMap.set (fst kv) (snd kv) o) props o) = Some v.
Proof.
  revert o. induction props as [ | [k0 v0] props IH]; intros o Hnd Hin;
    [ destruct Hin | ].
  simpl in Hnd. inversion Hnd as [ | ? ? Hnot Hnd']; subst.
  destruct Hin as [E | Hin]; simpl.
  - injection E as -> ->. rewrite get_assign_absent by exact Hnot.
    apply get_set_same.
  - apply IH; assumption.
Qed.

(** The validation in [createInstance] cannot fail: the caller's
    object is merged over the defaults before it is validated, so the
    four required properties are always there.  The merge is shallow:
    a property of the caller's object replaces the default section of
    that name whole. *)
Theorem createInstance_config_valid (section : string -> V)
    (config : ConfigObject.t V) :
  NoDup (JsMap.keys config) ->
  exists merged,
    createInstance_config section config = inr merged /\
    (forall k, In k (required ++ JsMap.keys config) ->
               JsMap.has k merged = true) /\
    (forall k v, In (k, v) config -> JsMap.get k merged = Some v).
Proof.
  intros Hnd. exists (spread (DEFAULT_CONFIG section) config).
  assert (Hreq : forall k, In k required ->
            JsMap.has k (spread (DEFAULT_CONFIG section) config) = true).
  { intros k Hk. unfold spread. rewrite has_assign, existsb_app.
    simpl in Hk.
    destruct Hk as [<- | [<- | [<- | [<- | []]]]]; reflexivity. }
  split; [ | split ].
  - unfold createInstance_config, validateConfig.
    replace (filter (fun prop =>
                       negb (JsMap.has prop
                               (spread (DEFAULT_CONFIG section) config)))
                    required) with (@nil string); [ reflexivity | ].
    symmetry. unfold required. cbn [filter].
    rewrite !Hreq by (simpl; tauto). reflexivity.
  - intros k Hk. apply in_app_or in Hk. destruct Hk as [Hk | Hk];
      [ apply Hreq; exact Hk | ].
    unfold spread. rewrite has_assign, existsb_app.
    assert (E : existsb (fun kv : string * V => String.eqb (fst kv) k) config
                = true).
    { apply existsb_exists. unfold JsMap.keys in Hk.
      apply in_map_iff in Hk. destruct Hk as (kv & Ekv & Hin).
      exists kv. split; [ exact Hin | ]. rewrite Ekv. apply String.eqb_refl. }
    rewrite E, !orb_true_r. reflexivity.
  - intros k v Hin. unfold spread. rewrite fold_left_app.
    apply get_assign_last; assumption.
Qed.

End MergedConfig.

Lemma createInstance_config_valid_witness :
  let config := [("text", "compact"); ("theme", "dark")]%string in
  NoDup (JsMap.keys config) /\
  exists merged,
    ConfigObject.createInstance_config (fun name => name) config
      = inr merged /\
    (forall k, In k (ConfigObject.required ++ JsMap.keys config) ->
               JsMap.has k merged = true) /\
    (forall k v, In (k, v) config -> JsMap.get k merged = Some v).
Proof.
  cbn zeta.
  assert (H : NoDup (JsMap.keys [("text", "compact"); ("theme", "dark")]%string)).
  { change (NoDup ["text"; "theme"]%string).
    constructor; [ intros [E | []]; discriminate | ].
    constructor; [ intros [] | constructor ]. }
  split; [ exact H | ].
  exact (@createInstance_config_valid string (fun name => name)
           [("text", "compact"); ("theme", "dark")]%string H).
Defined.
